(** * WCAG checker: rescan reconciliation and scan orchestration

    A shallow embedding of the server routes of the accessibility
    dashboard:

    - [src/app/api/scans/route.ts]: [POST], [processScan],
      [handleRescanDiff];
    - [src/app/api/projects/[id]/rescan/route.ts]: [POST];
    - [src/app/api/projects/[id]/results/route.ts]: [GET].

    JavaScript values are modelled as far as the routes inspect them:
    JSON values with [JSON.stringify], [undefined] and [null], the
    insertion-ordered [Map], [Array.prototype.slice] and the stable
    [Array.prototype.sort].  The Prisma client is modelled as a state
    and error monad over the tables [Scan] and [Result]. *)

From Stdlib Require Import String Ascii List ZArith Lia Bool.
From Stdlib Require Import Permutation Sorted Decimal DecimalString DecimalZ.
Import ListNotations.
Local Open Scope list_scope.
Local Open Scope string_scope.
Set Warnings "-register-all".

(* ================================================================== *)
(** ** JavaScript values *)
(* ================================================================== *)

Module JS.

(** A JSON value.  Numbers are the integers, printed in decimal; an
    object is the list of its properties in enumeration order. *)
Inductive json : Type :=
| Null
| Bool (b : bool)
| Num (n : Z)
| Str (s : string)
| Arr (items : list json)
| Obj (props : list (string * json)).

(** A JavaScript value as the routes see one: [None] is [undefined]. *)
Definition value : Type := option json.

(** [T | null | undefined] for a typed property. *)
Inductive nullish (A : Type) : Type :=
| undefined
| null
| defined (a : A).
Arguments undefined {A}.
Arguments null {A}.
Arguments defined {A} a.

Definition dquote : ascii := "034"%char.
Definition backslash : ascii := "\"%char.

Definition hexdigit (n : nat) : ascii :=
  nth n (list_ascii_of_string "0123456789abcdef") "0"%char.

(** The escape [JSON.stringify] writes for one character of a string. *)
Definition escape_char (c : ascii) : string :=
  if Ascii.eqb c dquote then String backslash (String dquote EmptyString)
  else if Ascii.eqb c backslash then String backslash (String backslash EmptyString)
  else if Ascii.eqb c "008"%char then "\b"
  else if Ascii.eqb c "012"%char then "\f"
  else if Ascii.eqb c "010"%char then "\n"
  else if Ascii.eqb c "013"%char then "\r"
  else if Ascii.eqb c "009"%char then "\t"
  else if Nat.ltb (nat_of_ascii c) 32 then
    "\u00" ++ String (hexdigit (Nat.div (nat_of_ascii c) 16))
                (String (hexdigit (Nat.modulo (nat_of_ascii c) 16)) EmptyString)
  else String c EmptyString.

Fixpoint quote_body (s : string) : string :=
  match s with
  | EmptyString => EmptyString
  | String c t => escape_char c ++ quote_body t
  end.

Definition quote (s : string) : string :=
  String dquote (quote_body s ++ String dquote EmptyString).

Definition string_of_Z (n : Z) : string := NilZero.string_of_int (Z.to_int n).

(** [JSON.stringify] on a JSON value. *)
Fixpoint stringify (v : json) : string :=
  match v with
  | Null => "null"
  | Bool true => "true"
  | Bool false => "false"
  | Num n => string_of_Z n
  | Str s => quote s
  | Arr items => "[" ++ String.concat "," (map stringify items) ++ "]"
  | Obj props =>
      "{" ++ String.concat ","
               (map (fun p => quote (fst p) ++ ":" ++ stringify (snd p)) props)
          ++ "}"
  end.

(** [JSON.stringify(v)]: [undefined] for [undefined]. *)
Definition JSON_stringify (v : value) : option string := option_map stringify v.

Definition option_string_eqb (a b : option string) : bool :=
  match a, b with
  | None, None => true
  | Some x, Some y => String.eqb x y
  | _, _ => false
  end.

(** [a !== b] on the results of [JSON.stringify]. *)
Definition strict_neq (a b : option string) : bool := negb (option_string_eqb a b).

(** [ToBoolean]. *)
Definition truthy (v : value) : bool :=
  match v with
  | None => false
  | Some Null => false
  | Some (Bool b) => b
  | Some (Num n) => negb (Z.eqb n 0)
  | Some (Str s) => negb (String.eqb s "")
  | Some (Arr _) => true
  | Some (Obj _) => true
  end.

(** [v || {}]. *)
Definition or_empty_object (v : value) : json :=
  match v with
  | Some j => if truthy v then j else Obj []
  | None => Obj []
  end.

(** [s || ''] for a string-typed property. *)
Definition or_empty_string (s : nullish string) : string :=
  match s with
  | defined x => x
  | _ => ""
  end.

Definition of_nullable (o : option string) : nullish string :=
  match o with
  | Some s => defined s
  | None => null
  end.

(** *** The insertion-ordered [Map<string, V>] *)

Section Map.
Context {V : Type}.

Definition Map : Type := list (string * V).

(** [m.set(k, v)]: a present key keeps its position and takes the new
    value, a new key goes to the end. *)
Fixpoint set (k : string) (v : V) (m : Map) : Map :=
  match m with
  | [] => [(k, v)]
  | (k', v') :: rest =>
      if String.eqb k k' then (k, v) :: rest else (k', v') :: set k v rest
  end.

Fixpoint get (k : string) (m : Map) : option V :=
  match m with
  | [] => None
  | (k', v') :: rest => if String.eqb k k' then Some v' else get k rest
  end.

Definition has (k : string) (m : Map) : bool :=
  match get k m with
  | Some _ => true
  | None => false
  end.

Definition keys (m : Map) : list string := map fst m.
Definition values (m : Map) : list V := map snd m.
End Map.
Arguments Map V : clear implicits.

(** *** [Array.prototype.slice(start, end)] *)

Definition relative_index (len i : Z) : Z :=
  if (i <? 0)%Z then Z.max (len + i) 0 else Z.min i len.

Definition slice {A : Type} (start stop : Z) (l : list A) : list A :=
  let len := Z.of_nat (length l) in
  let k := relative_index len start in
  let final := relative_index len stop in
  firstn (Z.to_nat (final - k)) (skipn (Z.to_nat k) l).

(** *** [Array.prototype.sort(compare)]

    The sort is stable; an element moves behind a later one only when
    the comparator puts it strictly after. *)

Section Sort.
Context {A : Type} (compare : A -> A -> Z).

Fixpoint insert (x : A) (l : list A) : list A :=
  match l with
  | [] => [x]
  | y :: rest =>
      if (compare x y <=? 0)%Z then x :: y :: rest else y :: insert x rest
  end.

Definition sort (l : list A) : list A := fold_right insert [] l.
End Sort.

End JS.

(* ================================================================== *)
(** ** Reading JSON text back

    Vocabulary for the proof that [JSON.stringify] loses nothing:
    a decoder for one escaped character, the kind of text a character
    opens, an induction principle that reaches inside arrays and
    objects, and equality of values by structure. *)
(* ================================================================== *)

Module JSONText.
Import JS.


Definition hexval (c : ascii) : nat :=
  let n := nat_of_ascii c in
  if Nat.leb 97 n then n - 87 else n - 48.

(** The character that an escape at the head of [s] stands for, and
    what follows it. *)
Definition unescape (s : string) : option (ascii * string) :=
  match s with
  | EmptyString => None
  | String c rest =>
      if Ascii.eqb c backslash then
        match rest with
        | EmptyString => None
        | String e rest' =>
            if Ascii.eqb e "u"%char then
              match rest' with
              | String _ (String _ (String h (String l rest''))) =>
                  Some (ascii_of_nat (16 * hexval h + hexval l), rest'')
              | _ => None
              end
            else if Ascii.eqb e "b"%char then Some ("008"%char, rest')
            else if Ascii.eqb e "f"%char then Some ("012"%char, rest')
            else if Ascii.eqb e "n"%char then Some ("010"%char, rest')
            else if Ascii.eqb e "r"%char then Some ("013"%char, rest')
            else if Ascii.eqb e "t"%char then Some ("009"%char, rest')
            else Some (e, rest')
        end
      else Some (c, rest)
  end.

(** The kind of JSON text a character can open. *)
Definition kind_of_char (c : ascii) : option nat :=
  if Ascii.eqb c "n"%char then Some 0
  else if Ascii.eqb c "t"%char || Ascii.eqb c "f"%char then Some 1
  else if Ascii.eqb c "-"%char
          || (Nat.leb 48 (nat_of_ascii c) && Nat.leb (nat_of_ascii c) 57)
       then Some 2
  else if Ascii.eqb c dquote then Some 3
  else if Ascii.eqb c "["%char then Some 4
  else if Ascii.eqb c "{"%char then Some 5
  else None.

Definition kind (j : json) : nat :=
  match j with
  | Null => 0
  | Bool _ => 1
  | Num _ => 2
  | Str _ => 3
  | Arr _ => 4
  | Obj _ => 5
  end.

Definition numchar (c : ascii) : bool :=
  match kind_of_char c with
  | Some 2 => true
  | _ => false
  end.

Fixpoint all_chars (p : ascii -> bool) (s : string) : bool :=
  match s with
  | EmptyString => true
  | String c rest => p c && all_chars p rest
  end.

(** What may follow a JSON text inside a larger one: nothing, or a
    character that opens no text. *)
Definition closes (r : string) : Prop :=
  match r with
  | EmptyString => True
  | String c _ => kind_of_char c = None
  end.

Section JsonInduction.
Variable P : json -> Prop.
Hypothesis HNull : P Null.
Hypothesis HBool : forall b, P (Bool b).
Hypothesis HNum : forall n, P (Num n).
Hypothesis HStr : forall s, P (Str s).
Hypothesis HArr : forall items, Forall P items -> P (Arr items).
Hypothesis HObj : forall props, Forall (fun p => P (snd p)) props -> P (Obj props).

Fixpoint json_induction (j : json) : P j :=
  match j with
  | Null => HNull
  | Bool b => HBool b
  | Num n => HNum n
  | Str s => HStr s
  | Arr items =>
      HArr items
        ((fix go (l : list json) : Forall P l :=
            match l with
            | [] => Forall_nil P
            | x :: t => Forall_cons x (json_induction x) (go t)
            end) items)
  | Obj props =>
      HObj props
        ((fix go (l : list (string * json)) : Forall (fun p => P (snd p)) l :=
            match l with
            | [] => Forall_nil _
            | p :: t => Forall_cons p (json_induction (snd p)) (go t)
            end) props)
  end.
End JsonInduction.

Definition items_text (l : list json) : string :=
  String.concat "," (map stringify l).
Definition prop_text (p : string * json) : string :=
  quote (fst p) ++ ":" ++ stringify (snd p).
Definition props_text (l : list (string * json)) : string :=
  String.concat "," (map prop_text l).

Definition unique_text (a : json) : Prop :=
  forall b r1 r2, closes r1 -> closes r2 ->
    stringify a ++ r1 = stringify b ++ r2 -> a = b /\ r1 = r2.

Section ListEqb.
Context {A : Type} (eqb : A -> A -> bool).
Fixpoint list_eqb (l l' : list A) : bool :=
  match l, l' with
  | [], [] => true
  | x :: t, y :: t' => eqb x y && list_eqb t t'
  | _, _ => false
  end.
End ListEqb.

(** Equality of JSON values, by structure. *)
Fixpoint json_eqb (a b : json) : bool :=
  match a, b with
  | Null, Null => true
  | Bool x, Bool y => Bool.eqb x y
  | Num x, Num y => Z.eqb x y
  | Str x, Str y => String.eqb x y
  | Arr l, Arr l' => list_eqb json_eqb l l'
  | Obj l, Obj l' =>
      list_eqb (fun p q => String.eqb (fst p) (fst q) && json_eqb (snd p) (snd q)) l l'
  | _, _ => false
  end.

(** [a === b] on the values themselves. *)
Definition value_eqb (a b : value) : bool :=
  match a, b with
  | None, None => true
  | Some x, Some y => json_eqb x y
  | _, _ => false
  end.

End JSONText.

(* ================================================================== *)
(** ** Data model ([prisma/schema.prisma]) *)
(* ================================================================== *)

(** The properties of a finding that a rescan may rewrite:
    [fieldsToCheck] of [handleRescanDiff]. *)
Module Field.
Inductive t : Type := help | impact | tags | elementPath | details.

Definition eqb (a b : t) : bool :=
  match a, b with
  | help, help | impact, impact | tags, tags
  | elementPath, elementPath | details, details => true
  | _, _ => false
  end.
End Field.

(** What [createKey] reads from a finding, stored or fresh. *)
Class Finding (A : Type) : Type := {
  finding_url : A -> string;
  finding_message : A -> string;
  finding_element : A -> JS.nullish string;
  finding_severity : A -> string
}.

(** [model Result]: one stored finding. *)
Module Result.
Record t : Type := mk {
  id : string;
  scanId : string;
  url : string;
  message : string;
  element : option string;
  severity : string;
  impact : option string;
  help : option string;
  tags : list string;
  elementPath : option string;
  details : JS.json;
  createdAt : Z;
  updatedAt : Z
}.

Definition nullable (o : option string) : JS.json :=
  match o with
  | Some s => JS.Str s
  | None => JS.Null
  end.

(** [result[field]] on a row read through the client: a missing
    string or JSON column reads as [null], never as [undefined]. *)
Definition get (r : t) (f : Field.t) : JS.value :=
  match f with
  | Field.help => Some (nullable (help r))
  | Field.impact => Some (nullable (impact r))
  | Field.tags => Some (JS.Arr (map JS.Str (tags r)))
  | Field.elementPath => Some (nullable (elementPath r))
  | Field.details => Some (details r)
  end.

#[global] Instance finding : Finding t := {
  finding_url := url;
  finding_message := message;
  finding_element := fun r => JS.of_nullable (element r);
  finding_severity := severity
}.
End Result.

(** One finding as an analysis strategy returns it.  The rewritable
    properties are arbitrary JavaScript values ([any]). *)
Module AccessibilityResult.
Record t : Type := mk {
  url : string;
  message : string;
  element : JS.nullish string;
  severity : string;
  impact : JS.value;
  help : JS.value;
  tags : JS.value;
  elementPath : JS.value;
  details : JS.value;
  createdAt : Z
}.

Definition get (r : t) (f : Field.t) : JS.value :=
  match f with
  | Field.help => help r
  | Field.impact => impact r
  | Field.tags => tags r
  | Field.elementPath => elementPath r
  | Field.details => details r
  end.

#[global] Instance finding : Finding t := {
  finding_url := url;
  finding_message := message;
  finding_element := element;
  finding_severity := severity
}.
End AccessibilityResult.

(* ================================================================== *)
(** ** The reconciliation diff ([handleRescanDiff], lines 196-252) *)
(* ================================================================== *)

Module Reconcile.

(** [createKey]: url, message, element-or-empty and severity joined
    with a bar. *)
Definition createKey {A : Type} `{Finding A} (result : A) : string :=
  finding_url result ++ "|" ++ finding_message result ++ "|"
    ++ JS.or_empty_string (finding_element result) ++ "|"
    ++ finding_severity result.

(** [list.forEach(result => map.set(createKey(result), result))]. *)
Definition buildMap {A : Type} `{Finding A} (results : list A) : JS.Map A :=
  fold_left (fun m result => JS.set (createKey result) result m) results [].

Definition fieldsToCheck : list Field.t :=
  [Field.help; Field.impact; Field.tags; Field.elementPath; Field.details].

(** The [updates] object of one matched pair, without [updatedAt]:
    the assigned properties in assignment order. *)
Definition Updates : Type := list (Field.t * JS.value).

(** The body of [for (const field of fieldsToCheck)]; the state is
    [(updates, hasChanges)]. *)
Definition checkField (existingResult : Result.t)
    (newResult : AccessibilityResult.t)
    (st : Updates * bool) (field : Field.t) : Updates * bool :=
  if JS.strict_neq (JS.JSON_stringify (Result.get existingResult field))
                   (JS.JSON_stringify (AccessibilityResult.get newResult field))
  then ((fst st ++ [(field, AccessibilityResult.get newResult field)])%list, true)
  else st.

Definition checkFields (existingResult : Result.t)
    (newResult : AccessibilityResult.t) : Updates * bool :=
  fold_left (checkField existingResult newResult) fieldsToCheck ([], false).

(** One entry of [toUpdate]: [{ id, updates }] with [updates.updatedAt]. *)
Record Patch : Type := mkPatch {
  patch_id : string;
  updates : Updates;
  updatedAt : Z
}.

Record Diff : Type := mkDiff {
  toAdd : list AccessibilityResult.t;
  toRemove : list string;
  toUpdate : list Patch
}.

Section Diff.
Variable existingResults : list Result.t.
Variable newResults : list AccessibilityResult.t.
(** The value of every [new Date()] of the loop. *)
Variable now : Z.

Definition existingMap : JS.Map Result.t := buildMap existingResults.
Definition newMap : JS.Map AccessibilityResult.t := buildMap newResults.

Definition computeToAdd : list AccessibilityResult.t :=
  flat_map (fun entry =>
              if negb (JS.has (fst entry) existingMap) then [snd entry] else [])
           newMap.

Definition computeToRemove : list string :=
  flat_map (fun entry =>
              if negb (JS.has (fst entry) newMap)
              then [Result.id (snd entry)] else [])
           existingMap.

Definition computeToUpdate : list Patch :=
  flat_map (fun entry =>
              let key := fst entry in
              let existingResult := snd entry in
              if JS.has key newMap then
                match JS.get key newMap with
                | Some newResult =>
                    let st := checkFields existingResult newResult in
                    if snd st
                    then [mkPatch (Result.id existingResult) (fst st) now]
                    else []
                | None => []
                end
              else [])
           existingMap.

Definition computeDiff : Diff :=
  mkDiff computeToAdd computeToRemove computeToUpdate.
End Diff.

End Reconcile.

(* ================================================================== *)
(** ** The diff in the words of the specification (section 4.3)

    Written from the specification, not from the code: a finding is
    identified by its tuple (url, message, element-or-empty, severity),
    findings are matched between the two lists as given, and the
    rewritable properties are compared as values.  The vocabulary of
    the code, which compares key strings, stands next to it. *)
(* ================================================================== *)

Module ReconcileSpec.
Import Reconcile.

(** The identity tuple of the specification: url, message,
    element-or-empty, severity. *)
Definition identity {A : Type} `{Finding A} (r : A)
  : string * string * string * string :=
  (finding_url r, finding_message r,
   JS.or_empty_string (finding_element r), finding_severity r).

Definition tuple_eqb (x y : string * string * string * string) : bool :=
  let '(u, m, e, s) := x in
  let '(u', m', e', s') := y in
  String.eqb u u' && String.eqb m m' && String.eqb e e' && String.eqb s s'.

Section Keys.
Context {A B : Type} `{Finding A} `{Finding B}.

(** [a] and [b] are the same finding: their identity tuples agree. *)
Definition sameFinding (a : A) (b : B) : bool :=
  tuple_eqb (identity a) (identity b).

(** Some member of [others] is the finding [a]. *)
Definition matched (a : A) (others : list B) : bool :=
  existsb (sameFinding a) others.

(** The key strings of [a] and [b] agree. *)
Definition sameKey (a : A) (b : B) : bool :=
  String.eqb (createKey a) (createKey b).

(** Some member of [others] has the key string of [a]. *)
Definition keyMatched (a : A) (others : list B) : bool :=
  existsb (sameKey a) others.

(** Between [l] and [l'] the key string tells findings apart as the
    identity tuple does. *)
Definition faithful (l : list A) (l' : list B) : Prop :=
  forall a b, In a l -> In b l' ->
    createKey a = createKey b -> identity a = identity b.
End Keys.

Definition noBar (s : string) : bool :=
  JSONText.all_chars (fun c => negb (Ascii.eqb c "|"%char)) s.

(** No bar in the url, the message or the element of the finding. *)
Definition barFree {A : Type} `{Finding A} (r : A) : Prop :=
  noBar (finding_url r) = true
  /\ noBar (finding_message r) = true
  /\ noBar (JS.or_empty_string (finding_element r)) = true.

(** No two members are the same finding. *)
Definition distinctFindings {A : Type} `{Finding A} (l : list A) : Prop :=
  NoDup (map identity l).

(** No two members share a key string. *)
Definition distinctKeys {A : Type} `{Finding A} (l : list A) : Prop :=
  NoDup (map createKey l).

(** Among the stored rows and the fresh results, findings of
    different identity have different key strings. *)
Definition faithfulKeys (R1 : list Result.t) (R2 : list AccessibilityResult.t)
  : Prop :=
  faithful R1 R1 /\ faithful R2 R2 /\ faithful R1 R2.

(** [r] stands in [l] and no later member has its key. *)
Definition lastOccurrence {A : Type} `{Finding A} (r : A) (l : list A) : Prop :=
  exists before after,
    l = (before ++ r :: after)%list
    /\ forall x, In x after -> createKey x <> createKey r.

(** For each key, the last member of [l] that has it, in the order in
    which the keys first occur. *)
Definition lastOnly {A : Type} `{Finding A} (l : list A) : list A :=
  JS.values (buildMap l).

Definition differs (e : Result.t) (n : AccessibilityResult.t) (f : Field.t) : bool :=
  negb (JSONText.value_eqb (Result.get e f) (AccessibilityResult.get n f)).

(** The rewritable properties whose values differ, each with the fresh
    value. *)
Definition patchFields (e : Result.t) (n : AccessibilityResult.t) : Updates :=
  map (fun f => (f, AccessibilityResult.get n f))
      (filter (differs e n) fieldsToCheck).

(** The patch of the stored row [e] against the fresh result [n]:
    none when the five properties agree. *)
Definition patchOf (e : Result.t) (n : AccessibilityResult.t) (now : Z)
  : list Patch :=
  match patchFields e n with
  | [] => []
  | fields => [mkPatch (Result.id e) fields now]
  end.

(** *** The diff of the specification *)

Definition toAdd_spec (R1 : list Result.t) (R2 : list AccessibilityResult.t)
  : list AccessibilityResult.t :=
  filter (fun n => negb (matched n R1)) R2.

Definition toRemove_spec (R1 : list Result.t) (R2 : list AccessibilityResult.t)
  : list string :=
  map Result.id (filter (fun e => negb (matched e R2)) R1).

Definition toUpdate_spec (R1 : list Result.t) (R2 : list AccessibilityResult.t)
    (now : Z) : list Patch :=
  flat_map (fun e =>
              match find (sameFinding e) R2 with
              | Some n => patchOf e n now
              | None => []
              end) R1.

Definition diff_spec (R1 : list Result.t) (R2 : list AccessibilityResult.t)
    (now : Z) : Diff :=
  mkDiff (toAdd_spec R1 R2) (toRemove_spec R1 R2) (toUpdate_spec R1 R2 now).

(** *** The same diff with findings told apart by their key strings *)

Definition toAdd_keyed (R1 : list Result.t) (R2 : list AccessibilityResult.t)
  : list AccessibilityResult.t :=
  filter (fun n => negb (keyMatched n R1)) R2.

Definition toRemove_keyed (R1 : list Result.t) (R2 : list AccessibilityResult.t)
  : list string :=
  map Result.id (filter (fun e => negb (keyMatched e R2)) R1).

Definition toUpdate_keyed (R1 : list Result.t) (R2 : list AccessibilityResult.t)
    (now : Z) : list Patch :=
  flat_map (fun e =>
              match find (sameKey e) R2 with
              | Some n => patchOf e n now
              | None => []
              end) R1.

Definition diff_keyed (R1 : list Result.t) (R2 : list AccessibilityResult.t)
    (now : Z) : Diff :=
  mkDiff (toAdd_keyed R1 R2) (toRemove_keyed R1 R2) (toUpdate_keyed R1 R2 now).
End ReconcileSpec.

(* ================================================================== *)
(** ** The persistence gateway (the Prisma client) *)
(* ================================================================== *)

(** [{wcagLevel, section508, bestPractices, experimental}]. *)
Record ComplianceOptions : Type := mkOptions {
  wcagLevel : string;
  section508 : bool;
  bestPractices : bool;
  experimental : bool
}.

Module Project.
Record t : Type := mk {
  id : string;
  name : string;
  complianceOptions : option ComplianceOptions
}.
End Project.

Module Url.
Record t : Type := mk {
  id : string;
  url : string;
  projectId : string
}.
End Url.

(** [model Scan]; [status] is the string column of the schema. *)
Module Scan.
Record t : Type := mk {
  id : string;
  projectId : string;
  url : string;
  status : string;
  startedAt : option Z;
  completedAt : option Z;
  error : option string;
  totalIssues : option Z;
  criticalIssues : option Z;
  seriousIssues : option Z;
  moderateIssues : option Z;
  minorIssues : option Z;
  analysisMethod : option string;
  createdAt : Z;
  updatedAt : Z
}.

(** The [data] argument of [prisma.scan.update]: [None] leaves the
    column alone, [Some None] writes [null]. *)
Record UpdateInput : Type := mkUpdate {
  u_status : option string;
  u_url : option string;
  u_startedAt : option (option Z);
  u_completedAt : option (option Z);
  u_error : option (option string);
  u_totalIssues : option (option Z);
  u_criticalIssues : option (option Z);
  u_seriousIssues : option (option Z);
  u_moderateIssues : option (option Z);
  u_minorIssues : option (option Z);
  u_analysisMethod : option (option string)
}.

Definition assign {A : Type} (new : option A) (old : A) : A :=
  match new with
  | Some v => v
  | None => old
  end.

Definition update (data : UpdateInput) (now : Z) (s : t) : t :=
  mk (id s) (projectId s)
     (assign (u_url data) (url s))
     (assign (u_status data) (status s))
     (assign (u_startedAt data) (startedAt s))
     (assign (u_completedAt data) (completedAt s))
     (assign (u_error data) (error s))
     (assign (u_totalIssues data) (totalIssues s))
     (assign (u_criticalIssues data) (criticalIssues s))
     (assign (u_seriousIssues data) (seriousIssues s))
     (assign (u_moderateIssues data) (moderateIssues s))
     (assign (u_minorIssues data) (minorIssues s))
     (assign (u_analysisMethod data) (analysisMethod s))
     (createdAt s) now.

(** The [data] argument of [prisma.scan.create]. *)
Record CreateInput : Type := mkCreate {
  c_projectId : string;
  c_url : string;
  c_status : option string;
  c_startedAt : option Z
}.

Definition create (data : CreateInput) (newId : string) (now : Z) : t :=
  mk newId (c_projectId data) (c_url data)
     (match c_status data with Some s => s | None => "pending" end)
     (c_startedAt data) None None None None None None None None now now.
End Scan.

(** The [data] of one row of [prisma.result.createMany]. *)
Module ResultCreateInput.
Record t : Type := mk {
  scanId : string;
  url : string;
  message : string;
  element : JS.nullish string;
  severity : string;
  impact : JS.value;
  help : JS.value;
  tags : JS.value;
  elementPath : JS.value;
  details : JS.value;
  createdAt : Z
}.
End ResultCreateInput.

Module Prisma.

(** A thrown value: an [Error] with its name and message, or anything
    else, kept as its string conversion. *)
Inductive exn : Type :=
| Error (name message : string)
| Thrown (text : string).

(** [new Error(message)]. *)
Definition new_Error (message : string) : exn := Error "Error" message.

(** [`${e}`]. *)
Definition to_string (e : exn) : string :=
  match e with
  | Error name message =>
      if String.eqb name "" then message
      else if String.eqb message "" then name
      else name ++ ": " ++ message
  | Thrown text => text
  end.

(** [error instanceof Error ? error.message : "Unknown error"]. *)
Definition message_of (e : exn) : string :=
  match e with
  | Error _ message => message
  | Thrown _ => "Unknown error"
  end.

(** Whom a client call is addressed to: a model of the schema, or the
    transaction machinery ([BEGIN], [COMMIT]). *)
Inductive Model : Type := ProjectModel | ScanModel | ResultModel | Transaction.

(** The tables, the clock read by [new Date()], the id generator and,
    for each model, the outcome of each coming client call ([Some e]:
    the call rejects with [e]; past the end of the list every call
    goes through). *)
Record World : Type := mkWorld {
  projects : list Project.t;
  urls : list Url.t;
  scans : list Scan.t;
  results : list Result.t;
  clock : Z;
  counter : nat;
  projectFaults : list (option exn);
  scanFaults : list (option exn);
  resultFaults : list (option exn);
  transactionFaults : list (option exn)
}.

Definition set_scans (l : list Scan.t) (w : World) : World :=
  mkWorld (projects w) (urls w) l (results w) (clock w) (counter w)
          (projectFaults w) (scanFaults w) (resultFaults w) (transactionFaults w).
Definition set_results (l : list Result.t) (w : World) : World :=
  mkWorld (projects w) (urls w) (scans w) l (clock w) (counter w)
          (projectFaults w) (scanFaults w) (resultFaults w) (transactionFaults w).
Definition set_counter (n : nat) (w : World) : World :=
  mkWorld (projects w) (urls w) (scans w) (results w) (clock w) n
          (projectFaults w) (scanFaults w) (resultFaults w) (transactionFaults w).

Definition faults (m : Model) (w : World) : list (option exn) :=
  match m with
  | ProjectModel => projectFaults w
  | ScanModel => scanFaults w
  | ResultModel => resultFaults w
  | Transaction => transactionFaults w
  end.

Definition set_faults (m : Model) (l : list (option exn)) (w : World) : World :=
  match m with
  | ProjectModel =>
      mkWorld (projects w) (urls w) (scans w) (results w) (clock w) (counter w)
              l (scanFaults w) (resultFaults w) (transactionFaults w)
  | ScanModel =>
      mkWorld (projects w) (urls w) (scans w) (results w) (clock w) (counter w)
              (projectFaults w) l (resultFaults w) (transactionFaults w)
  | ResultModel =>
      mkWorld (projects w) (urls w) (scans w) (results w) (clock w) (counter w)
              (projectFaults w) (scanFaults w) l (transactionFaults w)
  | Transaction =>
      mkWorld (projects w) (urls w) (scans w) (results w) (clock w) (counter w)
              (projectFaults w) (scanFaults w) (resultFaults w) l
  end.

(** The tables of [w0] with the clock, generator and coming outcomes of
    [w]: what a rolled-back transaction leaves. *)
Definition rollback (w0 w : World) : World :=
  mkWorld (projects w0) (urls w0) (scans w0) (results w0)
          (clock w) (counter w)
          (projectFaults w) (scanFaults w) (resultFaults w) (transactionFaults w).

(** Computations that read and write the world and may throw. *)
Definition M (A : Type) : Type := World -> (exn + A) * World.

Definition ret {A : Type} (a : A) : M A := fun w => (inr a, w).

Definition bind {A B : Type} (c : M A) (k : A -> M B) : M B :=
  fun w =>
    match c w with
    | (inr a, w') => k a w'
    | (inl e, w') => (inl e, w')
    end.

Definition throw {A : Type} (e : exn) : M A := fun w => (inl e, w).

(** [try { c } catch (e) { handler(e) }]. *)
Definition try_catch {A : Type} (c : M A) (handler : exn -> M A) : M A :=
  fun w =>
    match c w with
    | (inr a, w') => (inr a, w')
    | (inl e, w') => handler e w'
    end.

Definition when (b : bool) (c : M unit) : M unit :=
  if b then c else ret tt.

Fixpoint forEach {A : Type} (l : list A) (body : A -> M unit) : M unit :=
  match l with
  | [] => ret tt
  | x :: rest => bind (body x) (fun _ => forEach rest body)
  end.

Declare Scope prisma_scope.
Delimit Scope prisma_scope with prisma.
Notation "x <- c ;; k" := (bind c (fun x => k))
  (at level 61, c at next level, right associativity) : prisma_scope.
Notation "c ;;; k" := (bind c (fun _ => k))
  (at level 61, right associativity) : prisma_scope.
Local Open Scope prisma_scope.

(** [new Date()]. *)
Definition new_Date : M Z := fun w => (inr (clock w), w).

Definition cuid_of (n : nat) : string := "c" ++ JS.string_of_Z (Z.of_nat n).

(** The [@default(cuid())] of a new row. *)
Definition cuid : M string :=
  fun w => (inr (cuid_of (counter w)), set_counter (S (counter w)) w).

(** Every client call first meets its outcome. *)
Definition call (m : Model) : M unit :=
  fun w =>
    match faults m w with
    | [] => (inr tt, w)
    | None :: rest => (inr tt, set_faults m rest w)
    | Some e :: rest => (inl e, set_faults m rest w)
    end.

Definition validation_error : exn :=
  Error "PrismaClientValidationError" "Invalid value provided.".
Definition not_found_error : exn :=
  Error "PrismaClientKnownRequestError" "Record to update not found.".

(** *** Columns of [Result] from JavaScript values

    [None]: the value has the wrong type for the column and the client
    rejects the call.  A column gives back the value it was given: a
    string or a list of strings as written, and a JSON value as
    written too, the properties of an object in the order in which
    they were sent. *)

Definition string_column (v : JS.json) : option (option string) :=
  match v with
  | JS.Null => Some None
  | JS.Str s => Some (Some s)
  | _ => None
  end.

Fixpoint string_items (items : list JS.json) : option (list string) :=
  match items with
  | [] => Some []
  | JS.Str s :: rest => option_map (cons s) (string_items rest)
  | _ :: _ => None
  end.

Definition string_list_column (v : JS.json) : option (list string) :=
  match v with
  | JS.Arr items => string_items items
  | _ => None
  end.

(** [data: { [field]: v }] on a row: [undefined] leaves the column
    alone. *)
Definition assignField (f : Field.t) (v : JS.value) (r : Result.t)
  : option Result.t :=
  match v with
  | None => Some r
  | Some j =>
      match f with
      | Field.help =>
          option_map (fun x =>
            Result.mk (Result.id r) (Result.scanId r) (Result.url r)
              (Result.message r) (Result.element r) (Result.severity r)
              (Result.impact r) x (Result.tags r) (Result.elementPath r)
              (Result.details r) (Result.createdAt r) (Result.updatedAt r))
            (string_column j)
      | Field.impact =>
          option_map (fun x =>
            Result.mk (Result.id r) (Result.scanId r) (Result.url r)
              (Result.message r) (Result.element r) (Result.severity r)
              x (Result.help r) (Result.tags r) (Result.elementPath r)
              (Result.details r) (Result.createdAt r) (Result.updatedAt r))
            (string_column j)
      | Field.tags =>
          option_map (fun x =>
            Result.mk (Result.id r) (Result.scanId r) (Result.url r)
              (Result.message r) (Result.element r) (Result.severity r)
              (Result.impact r) (Result.help r) x (Result.elementPath r)
              (Result.details r) (Result.createdAt r) (Result.updatedAt r))
            (string_list_column j)
      | Field.elementPath =>
          option_map (fun x =>
            Result.mk (Result.id r) (Result.scanId r) (Result.url r)
              (Result.message r) (Result.element r) (Result.severity r)
              (Result.impact r) (Result.help r) (Result.tags r) x
              (Result.details r) (Result.createdAt r) (Result.updatedAt r))
            (string_column j)
      | Field.details =>
          Some (Result.mk (Result.id r) (Result.scanId r) (Result.url r)
              (Result.message r) (Result.element r) (Result.severity r)
              (Result.impact r) (Result.help r) (Result.tags r)
              (Result.elementPath r) j (Result.createdAt r)
              (Result.updatedAt r))
      end
  end.

Fixpoint assignFields (us : Reconcile.Updates) (r : Result.t)
  : option Result.t :=
  match us with
  | [] => Some r
  | (f, v) :: rest =>
      match assignField f v r with
      | Some r' => assignFields rest r'
      | None => None
      end
  end.

Definition touch (now : Z) (r : Result.t) : Result.t :=
  Result.mk (Result.id r) (Result.scanId r) (Result.url r)
    (Result.message r) (Result.element r) (Result.severity r)
    (Result.impact r) (Result.help r) (Result.tags r)
    (Result.elementPath r) (Result.details r) (Result.createdAt r) now.

Definition element_column (e : JS.nullish string) : option string :=
  match e with
  | JS.defined s => Some s
  | _ => None
  end.

(** The row the database builds from one [createMany] entry: columns
    left [undefined] take their default ([NULL], the empty list). *)
Definition newRow (newId : string) (now : Z) (d : ResultCreateInput.t)
  : option Result.t :=
  assignFields
    [(Field.impact, ResultCreateInput.impact d);
     (Field.help, ResultCreateInput.help d);
     (Field.tags, ResultCreateInput.tags d);
     (Field.elementPath, ResultCreateInput.elementPath d);
     (Field.details, ResultCreateInput.details d)]
    (Result.mk newId (ResultCreateInput.scanId d) (ResultCreateInput.url d)
       (ResultCreateInput.message d)
       (element_column (ResultCreateInput.element d))
       (ResultCreateInput.severity d) None None [] None JS.Null
       (ResultCreateInput.createdAt d) now).

(** *** Client calls *)

Definition id_in (ids : list string) (r : Result.t) : bool :=
  existsb (String.eqb (Result.id r)) ids.

(** [result.findMany({ where: { scanId } })]. *)
Definition result_findMany (scanId : string) : M (list Result.t) :=
  call ResultModel ;;;
  fun w =>
    (inr (filter (fun r => String.eqb (Result.scanId r) scanId) (results w)), w).

(** [result.deleteMany({ where: { id: { in: ids } } })]. *)
Definition result_deleteMany (ids : list string) : M unit :=
  call ResultModel ;;;
  fun w =>
    (inr tt, set_results (filter (fun r => negb (id_in ids r)) (results w)) w).

Fixpoint newRows (data : list ResultCreateInput.t) : M (list Result.t) :=
  match data with
  | [] => ret []
  | d :: rest =>
      newId <- cuid ;;
      now <- new_Date ;;
      match newRow newId now d with
      | Some r => rows <- newRows rest ;; ret (r :: rows)
      | None => throw validation_error
      end
  end.

(** [result.createMany({ data })]: all the rows or none. *)
Definition result_createMany (data : list ResultCreateInput.t) : M unit :=
  call ResultModel ;;;
  rows <- newRows data ;;
  fun w => (inr tt, set_results (results w ++ rows)%list w).

(** The row with the given id rewritten, [None] when a value is
    rejected. *)
Fixpoint updateRow (id : string) (data : Reconcile.Updates) (updatedAt : Z)
    (rows : list Result.t) : option (list Result.t) :=
  match rows with
  | [] => Some []
  | r :: rest =>
      if String.eqb (Result.id r) id then
        option_map (fun r' => touch updatedAt r' :: rest) (assignFields data r)
      else option_map (cons r) (updateRow id data updatedAt rest)
  end.

(** [result.update({ where: { id }, data })], [data] being the
    assigned properties and [updatedAt]. *)
Definition result_update (id : string) (data : Reconcile.Updates)
    (updatedAt : Z) : M unit :=
  call ResultModel ;;;
  fun w =>
    if existsb (fun r => String.eqb (Result.id r) id) (results w) then
      match updateRow id data updatedAt (results w) with
      | Some rows => (inr tt, set_results rows w)
      | None => (inl validation_error, w)
      end
    else (inl not_found_error, w).

Fixpoint updateScan (id : string) (data : Scan.UpdateInput) (now : Z)
    (rows : list Scan.t) : option (Scan.t * list Scan.t) :=
  match rows with
  | [] => None
  | s :: rest =>
      if String.eqb (Scan.id s) id then
        Some (Scan.update data now s, Scan.update data now s :: rest)
      else
        match updateScan id data now rest with
        | Some (s', rest') => Some (s', s :: rest')
        | None => None
        end
  end.

(** [scan.update({ where: { id }, data })]; [@updatedAt] takes the
    time of the call. *)
Definition scan_update (id : string) (data : Scan.UpdateInput) : M Scan.t :=
  call ScanModel ;;;
  now <- new_Date ;;
  fun w =>
    match updateScan id data now (scans w) with
    | Some (s, rows) => (inr s, set_scans rows w)
    | None => (inl not_found_error, w)
    end.

(** [scan.create({ data })]. *)
Definition scan_create (data : Scan.CreateInput) : M Scan.t :=
  call ScanModel ;;;
  newId <- cuid ;;
  now <- new_Date ;;
  fun w =>
    let s := Scan.create data newId now in
    (inr s, set_scans (scans w ++ [s])%list w).

(** [orderBy: { createdAt: 'desc' }]; rows of equal time keep the
    order of the table. *)
Definition newest_first (rows : list Scan.t) : list Scan.t :=
  JS.sort (fun a b => (Scan.createdAt b - Scan.createdAt a)%Z) rows.

(** [$transaction(async tx => body)]: the writes of a body that throws,
    or whose commit fails, are rolled back and the error is rethrown. *)
Definition transaction {A : Type} (body : M A) : M A :=
  fun w =>
    match (call Transaction ;;; a <- body ;; call Transaction ;;; ret a) w with
    | (inr a, w') => (inr a, w')
    | (inl e, w') => (inl e, rollback w w')
    end.

End Prisma.

(* ================================================================== *)
(** ** [src/app/api/scans/route.ts] *)
(* ================================================================== *)

Record Summary : Type := mkSummary {
  critical : Z;
  serious : Z;
  moderate : Z;
  minor : Z;
  total : Z
}.

(** What an analysis strategy resolves with. *)
Record AnalysisResult : Type := mkAnalysis {
  analysis_results : list AccessibilityResult.t;
  summary : Summary
}.

(** [{ ...complianceOptions, captureScreenshots }]. *)
Record PlaywrightOptions : Type := mkPlaywright {
  compliance : ComplianceOptions;
  captureScreenshots : bool
}.

(** An HTTP answer: [NextResponse.json(body, { status })]. *)
Record Response (B : Type) : Type := mkResponse {
  status : nat;
  body : B
}.
Arguments mkResponse {B} status body.
Arguments status {B} r.
Arguments body {B} r.

Definition defaultOptions : ComplianceOptions := mkOptions "aa" false true false.

Module ScansRoute.
Import Prisma.
Local Open Scope prisma_scope.

(** The [data] of one created row (lines 132-144 and 274-286). *)
Definition createData (scanId : string) (result : AccessibilityResult.t)
  : ResultCreateInput.t :=
  ResultCreateInput.mk scanId
    (AccessibilityResult.url result)
    (AccessibilityResult.message result)
    (AccessibilityResult.element result)
    (AccessibilityResult.severity result)
    (AccessibilityResult.impact result)
    (AccessibilityResult.help result)
    (AccessibilityResult.tags result)
    (AccessibilityResult.elementPath result)
    (Some (JS.or_empty_object (AccessibilityResult.details result)))
    (AccessibilityResult.createdAt result).

(** The body of the [$transaction] callback. *)
Definition applyDiff (scanId : string) (d : Reconcile.Diff) : M unit :=
  when (Nat.ltb 0 (length (Reconcile.toRemove d)))
       (result_deleteMany (Reconcile.toRemove d)) ;;;
  when (Nat.ltb 0 (length (Reconcile.toAdd d)))
       (result_createMany (map (createData scanId) (Reconcile.toAdd d))) ;;;
  forEach (Reconcile.toUpdate d)
          (fun update =>
             result_update (Reconcile.patch_id update)
                           (Reconcile.updates update)
                           (Reconcile.updatedAt update)).

Definition handleRescanDiff (scanId : string)
    (newResults : list AccessibilityResult.t) : M unit :=
  try_catch
    (existingResults <- result_findMany scanId ;;
     now <- new_Date ;;
     transaction
       (applyDiff scanId (Reconcile.computeDiff existingResults newResults now)))
    (fun error => throw error).

Definition completedData (now : Z) (s : Summary) (analysisMethod : string)
  : Scan.UpdateInput :=
  Scan.mkUpdate (Some "completed") None None (Some (Some now)) None
    (Some (Some (total s))) (Some (Some (critical s)))
    (Some (Some (serious s))) (Some (Some (moderate s)))
    (Some (Some (minor s))) (Some (Some analysisMethod)).

Definition failedData (now : Z) (e : exn) : Scan.UpdateInput :=
  Scan.mkUpdate (Some "failed") None None (Some (Some now))
    (Some (Some (message_of e))) None None None None None None.

Definition resetData (url : string) (now : Z) : Scan.UpdateInput :=
  Scan.mkUpdate (Some "in_progress") (Some url) (Some (Some now))
    (Some None) (Some None) (Some None) (Some None) (Some None)
    (Some None) (Some None) (Some None).

Section Strategies.
(** The three analysis strategies: each resolves with a result or
    rejects with a thrown value. *)
Variable simpleAnalyze : string -> ComplianceOptions -> exn + AnalysisResult.
Variable playwrightAnalyze : string -> PlaywrightOptions -> exn + AnalysisResult.
Variable htmlAnalyze : string -> ComplianceOptions -> exn + AnalysisResult.

(** The nested [try]/[catch] of lines 90-122: the result and the
    value of [analysisMethod]. *)
Definition analyze (url : string) (complianceOptions : ComplianceOptions)
  : exn + (AnalysisResult * string) :=
  match simpleAnalyze url complianceOptions with
  | inr analysisResult => inr (analysisResult, "simple")
  | inl simpleError =>
      match playwrightAnalyze url (mkPlaywright complianceOptions false) with
      | inr analysisResult => inr (analysisResult, "playwright")
      | inl playwrightError =>
          match htmlAnalyze url complianceOptions with
          | inr analysisResult => inr (analysisResult, "html-validator")
          | inl htmlError =>
              inl (new_Error
                     ("All analysis methods failed: Simple: "
                        ++ to_string simpleError ++ ", Playwright: "
                        ++ to_string playwrightError ++ ", HTML: "
                        ++ to_string htmlError))
          end
      end
  end.

Definition lift {A : Type} (r : exn + A) : M A :=
  match r with
  | inr a => ret a
  | inl e => throw e
  end.

Definition processScan (scanId url : string)
    (complianceOptions : ComplianceOptions) (isRescan : bool) : M unit :=
  try_catch
    (found <- lift (analyze url complianceOptions) ;;
     let analysisResult := fst found in
     let analysisMethod := snd found in
     (if isRescan then
        handleRescanDiff scanId (analysis_results analysisResult)
      else
        when (Nat.ltb 0 (length (analysis_results analysisResult)))
             (result_createMany
                (map (createData scanId) (analysis_results analysisResult)))) ;;;
     now <- new_Date ;;
     scan_update scanId
       (completedData now (summary analysisResult) analysisMethod) ;;;
     ret tt)
    (fun error =>
       now <- new_Date ;;
       scan_update scanId (failedData now error) ;;;
       throw error).

(** The request body of [POST /api/scans]. *)
Record ScanRequest : Type := mkRequest {
  req_projectId : option string;
  req_url : option string;
  req_complianceOptions : option ComplianceOptions;
  req_scanId : option string
}.

(** Truthiness of an optional string property. *)
Definition given (s : option string) : bool :=
  match s with
  | Some x => negb (String.eqb x "")
  | None => false
  end.

Definition text (s : option string) : string :=
  match s with
  | Some x => x
  | None => ""
  end.

Inductive ScanBody : Type :=
| ScanJson (scan : Scan.t)
| ErrorJson (error : string).

(** The detached call of lines 55-71, not awaited by the handler. *)
Record Task : Type := mkTask {
  task_scanId : string;
  task_url : string;
  task_options : ComplianceOptions;
  task_isRescan : bool
}.

(** [processScan(...).catch(error => prisma.scan.update(...).catch(console.error))]. *)
Definition background (t : Task) : M unit :=
  try_catch
    (processScan (task_scanId t) (task_url t) (task_options t) (task_isRescan t))
    (fun error =>
       try_catch
         (now <- new_Date ;;
          scan_update (task_scanId t) (failedData now error) ;;;
          ret tt)
         (fun _ => ret tt)).

(** [POST]: the answer, and the background task it leaves running. *)
Definition POST (req : ScanRequest) : M (Response ScanBody * option Task) :=
  try_catch
    (if negb (given (req_projectId req)) || negb (given (req_url req)) then
       ret (mkResponse 400 (ErrorJson "Project ID and URL are required"), None)
     else
       let projectId := text (req_projectId req) in
       let url := text (req_url req) in
       scan <- (if given (req_scanId req) then
                  now <- new_Date ;;
                  scan_update (text (req_scanId req)) (resetData url now)
                else
                  now <- new_Date ;;
                  scan_create
                    (Scan.mkCreate projectId url (Some "in_progress") (Some now))) ;;
       ret (mkResponse 200 (ScanJson scan),
            Some (mkTask (Scan.id scan) url
                    (match req_complianceOptions req with
                     | Some o => o
                     | None => defaultOptions
                     end)
                    (given (req_scanId req)))))
    (fun _ => ret (mkResponse 500 (ErrorJson "Failed to create scan"), None)).
End Strategies.

End ScansRoute.

(* ================================================================== *)
(** ** What a committed reconciliation leaves

    The rows of [Result] after the three operation sets of a diff,
    as a function of the rows before; used to state what a committed
    transaction has done. *)
(* ================================================================== *)

Module Committed.
Import Prisma.

(** The rows [createMany] inserts, the generator standing at
    [counter]. *)
Fixpoint buildRows (counter : nat) (now : Z) (data : list ResultCreateInput.t)
  : option (list Result.t) :=
  match data with
  | [] => Some []
  | d :: rest =>
      match newRow (cuid_of counter) now d with
      | Some r => option_map (cons r) (buildRows (S counter) now rest)
      | None => None
      end
  end.

(** The patches applied in order; [None] when one of them is rejected
    or finds no row. *)
Fixpoint applyPatches (ps : list Reconcile.Patch) (rows : list Result.t)
  : option (list Result.t) :=
  match ps with
  | [] => Some rows
  | p :: rest =>
      if existsb (fun r => String.eqb (Result.id r) (Reconcile.patch_id p)) rows
      then match updateRow (Reconcile.patch_id p) (Reconcile.updates p)
                   (Reconcile.updatedAt p) rows with
           | Some rows' => applyPatches rest rows'
           | None => None
           end
      else None
  end.

(** Deletions, then insertions, then patches. *)
Definition commit (scanId : string) (d : Reconcile.Diff) (counter : nat)
    (now : Z) (rows : list Result.t) : option (list Result.t) :=
  match buildRows counter now
          (map (ScansRoute.createData scanId) (Reconcile.toAdd d)) with
  | Some added =>
      applyPatches (Reconcile.toUpdate d)
        (filter (fun r => negb (id_in (Reconcile.toRemove d) r)) rows ++ added)%list
  | None => None
  end.

(** The columns a reconciliation must leave alone on a row it keeps. *)
Definition sameIdentity (e e' : Result.t) : Prop :=
  Result.id e' = Result.id e
  /\ Result.scanId e' = Result.scanId e
  /\ Result.url e' = Result.url e
  /\ Result.message e' = Result.message e
  /\ Result.element e' = Result.element e
  /\ Result.severity e' = Result.severity e
  /\ Result.createdAt e' = Result.createdAt e.

(** The tables of a world. *)
Definition tables (w : World)
  : list Project.t * list Url.t * list Scan.t * list Result.t :=
  (projects w, urls w, scans w, results w).

(** What the calls on [Result] and the transaction never touch. *)
Definition scanSide (w : World)
  : list Project.t * list Url.t * list Scan.t * Z * list (option exn)
    * list (option exn) :=
  (projects w, urls w, scans w, clock w, scanFaults w, projectFaults w).

(** A computation that leaves [f] of the world as it was, whatever its
    outcome. *)
Definition preserves {A X : Type} (f : World -> X) (c : M A) : Prop :=
  forall w, f (snd (c w)) = f w.

(** The scan with the given id, if any. *)
Definition scanOf (id : string) (w : World) : option Scan.t :=
  find (fun s => String.eqb (Scan.id s) id) (scans w).

(** [e'] is the row [e] after a reconciliation against the fresh
    result [n]: the identity columns are those of [e], and a rewritable
    property either is as it was or differed and has the fresh value. *)
Definition framed (e : Result.t) (n : AccessibilityResult.t) (e' : Result.t)
  : Prop :=
  sameIdentity e e'
  /\ forall f, Result.get e' f = Result.get e f
               \/ (Result.get e f <> AccessibilityResult.get n f
                   /\ Result.get e' f = AccessibilityResult.get n f).

(** The row [e] is still the first of its id in [rows], framed. *)
Definition tracked (e : Result.t) (n : AccessibilityResult.t)
    (rows : list Result.t) : Prop :=
  exists pre e' post,
    rows = (pre ++ e' :: post)%list
    /\ (forall x, In x pre -> Result.id x <> Result.id e)
    /\ framed e n e'.

(** The stored rows of one scan, as [findMany] returns them. *)
Definition rowsOf (scanId : string) (rows : list Result.t) : list Result.t :=
  filter (fun r => String.eqb (Result.scanId r) scanId) rows.

(** The row after the patches addressed to it, in order. *)
Fixpoint patchRow (ps : list Reconcile.Patch) (r : Result.t)
  : option Result.t :=
  match ps with
  | [] => Some r
  | p :: rest =>
      if String.eqb (Result.id r) (Reconcile.patch_id p) then
        match assignFields (Reconcile.updates p) r with
        | Some r' => patchRow rest (touch (Reconcile.updatedAt p) r')
        | None => None
        end
      else patchRow rest r
  end.



(** The next call on [Scan] goes through. *)
Definition writable (w : World) : Prop :=
  match scanFaults w with
  | Some _ :: _ => False
  | _ => True
  end.

(** Of the next two calls on [Scan], one at least goes through. *)
Definition writableTwice (w : World) : Prop :=
  match scanFaults w with
  | Some _ :: Some _ :: _ => False
  | _ => True
  end.

(** The scan is recorded as completed or failed. *)
Definition terminal (id : string) (w : World) : Prop :=
  exists s, scanOf id w = Some s
            /\ (Scan.status s = "completed" \/ Scan.status s = "failed").

End Committed.

(* ================================================================== *)
(** ** [src/app/api/projects/[id]/rescan/route.ts] *)
(* ================================================================== *)

Module RescanRoute.
Import Prisma.
Local Open Scope prisma_scope.

(** [project.findUnique({ where: { id }, include: { urls: true,
    scans: { orderBy: { createdAt: 'desc' } } } })]. *)
Record ProjectWithRelations : Type := mkProject {
  project : Project.t;
  project_urls : list Url.t;
  project_scans : list Scan.t
}.

Definition project_findUnique (id : string) : M (option ProjectWithRelations) :=
  call ProjectModel ;;;
  fun w =>
    (inr (match find (fun p => String.eqb (Project.id p) id) (projects w) with
          | Some p =>
              Some (mkProject p
                      (filter (fun u => String.eqb (Url.projectId u) id) (urls w))
                      (newest_first
                         (filter (fun s => String.eqb (Scan.projectId s) id)
                                 (scans w))))
          | None => None
          end), w).

(** One element of the [scans] array of the answer. *)
Record ScanEntry : Type := mkEntry {
  entry_id : string;
  entry_url : string;
  entry_status : string
}.

Inductive RescanBody : Type :=
| Started (message : string) (scans : list ScanEntry)
| ErrorJson (error : string).

Definition isPending (scan : Scan.t) : bool :=
  String.eqb (Scan.status scan) "pending"
  || String.eqb (Scan.status scan) "in_progress".

(** The callback of [project.urls.map]: its entry of the answer and the
    body that the timer will post to [/api/scans]. *)
Definition rescanUrl (p : ProjectWithRelations) (urlRecord : Url.t)
  : M (ScanEntry * ScansRoute.ScanRequest) :=
  let existingScan :=
    find (fun scan => String.eqb (Scan.url scan) (Url.url urlRecord))
         (project_scans p) in
  scanId <- match existingScan with
            | Some scan => ret (Scan.id scan)
            | None =>
                newScan <- scan_create
                             (Scan.mkCreate (Project.id (project p))
                                (Url.url urlRecord) (Some "pending") None) ;;
                ret (Scan.id newScan)
            end ;;
  ret (mkEntry scanId (Url.url urlRecord)
         (match existingScan with
          | Some _ => "rescanning"
          | None => "pending"
          end),
       ScansRoute.mkRequest
         (Some (Project.id (project p)))
         (Some (Url.url urlRecord))
         (Some (match Project.complianceOptions (project p) with
                | Some o => o
                | None => defaultOptions
                end))
         (match existingScan with
          | Some _ => Some scanId
          | None => None
          end)).

(** Every callback is started; one that rejects does not stop the
    others. *)
Fixpoint mapAll {A B : Type} (f : A -> M B) (l : list A) : M (list (exn + B)) :=
  match l with
  | [] => ret []
  | x :: rest =>
      r <- try_catch (y <- f x ;; ret (inr y)) (fun e => ret (inl e)) ;;
      rs <- mapAll f rest ;;
      ret (r :: rs)
  end.

(** [Promise.all]: the values, or the first rejection. *)
Fixpoint all {B : Type} (l : list (exn + B)) : exn + list B :=
  match l with
  | [] => inr []
  | inl e :: _ => inl e
  | inr b :: rest =>
      match all rest with
      | inr bs => inr (b :: bs)
      | inl e => inl e
      end
  end.

Fixpoint fulfilled {B : Type} (l : list (exn + B)) : list B :=
  match l with
  | [] => []
  | inl _ :: rest => fulfilled rest
  | inr b :: rest => b :: fulfilled rest
  end.

(** [POST]: the answer and the bodies posted to [/api/scans] by the
    timers it has set. *)
Definition POST (id : string)
  : M (Response RescanBody * list ScansRoute.ScanRequest) :=
  try_catch
    (found <- project_findUnique id ;;
     match found with
     | None => ret (mkResponse 404 (ErrorJson "Project not found"), [])
     | Some p =>
         if Nat.eqb (length (project_urls p)) 0 then
           ret (mkResponse 400 (ErrorJson "Project has no URLs to scan"), [])
         else
           let pendingScans := filter isPending (project_scans p) in
           if Nat.ltb 0 (length pendingScans) then
             ret (mkResponse 409
                    (ErrorJson "Cannot rescan while there are pending or in-progress scans. Please wait for them to complete."),
                  [])
           else
             settled <- mapAll (rescanUrl p) (project_urls p) ;;
             let triggers := map snd (fulfilled settled) in
             match all settled with
             | inr done =>
                 let scans := map fst done in
                 ret (mkResponse 200
                        (Started
                           ("Started rescanning "
                              ++ JS.string_of_Z (Z.of_nat (length scans))
                              ++ " URLs")
                           scans),
                      triggers)
             | inl _ =>
                 ret (mkResponse 500 (ErrorJson "Failed to rescan project"),
                      triggers)
             end
     end)
    (fun _ => ret (mkResponse 500 (ErrorJson "Failed to rescan project"), [])).

End RescanRoute.

Module RescanSpec.
Import Prisma ScansRoute RescanRoute.

(** What the route owes to one Url of the project: its entry of the
    answer and the body posted to [/api/scans] name the newest scan of
    that url when there is one, and otherwise a scan created pending
    for it. *)
Definition handled (p : ProjectWithRelations) (w' : World)
    (urlRecord : Url.t) (outcome : ScanEntry * ScanRequest) : Prop :=
  entry_url (fst outcome) = Url.url urlRecord
  /\ req_projectId (snd outcome) = Some (Project.id (project p))
  /\ req_url (snd outcome) = Some (Url.url urlRecord)
  /\ match find (fun scan => String.eqb (Scan.url scan) (Url.url urlRecord))
                (project_scans p) with
     | Some scan =>
         entry_id (fst outcome) = Scan.id scan
         /\ entry_status (fst outcome) = "rescanning"
         /\ req_scanId (snd outcome) = Some (Scan.id scan)
     | None =>
         entry_status (fst outcome) = "pending"
         /\ req_scanId (snd outcome) = None
         /\ exists created,
              In created (scans w')
              /\ Scan.id created = entry_id (fst outcome)
              /\ Scan.projectId created = Project.id (project p)
              /\ Scan.url created = Url.url urlRecord
              /\ Scan.status created = "pending"
     end.

End RescanSpec.

(* ================================================================== *)
(** ** [src/app/api/projects/[id]/results/route.ts] *)
(* ================================================================== *)

Module ResultsRoute.
Import Prisma.
Local Open Scope prisma_scope.

(** A scan with [include: { results: true }]. *)
Record ScanWithResults : Type := mkScan {
  scan : Scan.t;
  scan_results : list Result.t
}.

(** [scan.findMany({ where: { projectId, status: 'completed' },
    include: { results: true }, orderBy: { createdAt: 'desc' } })]. *)
Definition scan_findMany_completed (projectId : string)
  : M (list ScanWithResults) :=
  call ScanModel ;;;
  fun w =>
    (inr (map (fun s =>
                 mkScan s (filter (fun r => String.eqb (Result.scanId r) (Scan.id s))
                                  (results w)))
              (newest_first
                 (filter (fun s => String.eqb (Scan.projectId s) projectId
                                   && String.eqb (Scan.status s) "completed")
                         (scans w)))), w).

(** [s.includes(sub)]. *)
Fixpoint includes (s sub : string) : bool :=
  String.prefix sub s
  || match s with
     | EmptyString => false
     | String _ rest => includes rest sub
     end.

(** [s.split(",")]. *)
Fixpoint split_comma (s : string) : list string :=
  match s with
  | EmptyString => [EmptyString]
  | String c rest =>
      if Ascii.eqb c ","%char then EmptyString :: split_comma rest
      else match split_comma rest with
           | [] => [String c EmptyString]
           | first :: more => String c first :: more
           end
  end.

(** The query string after [parseInt] of [page] and [pageSize]; the
    other parameters as [searchParams.get] returns them. *)
Record Query : Type := mkQuery {
  page : Z;
  pageSize : Z;
  q_sortBy : option string;
  q_search : option string;
  q_severityFilters : option string;
  q_complianceFilters : option string
}.

(** [searchParams.get(name) || fallback]. *)
Definition or_default (v : option string) (fallback : string) : string :=
  match v with
  | Some s => if String.eqb s "" then fallback else s
  | None => fallback
  end.

(** [searchParams.get(name)?.split(",") || []]. *)
Definition filters (v : option string) : list string :=
  match v with
  | Some s => split_comma s
  | None => []
  end.

(** [severityOrder[severity] || 0]. *)
Definition severityOrder (severity : string) : Z :=
  if String.eqb severity "critical" then 4
  else if String.eqb severity "serious" then 3
  else if String.eqb severity "moderate" then 2
  else if String.eqb severity "minor" then 1
  else 0.

Record ResultsSummary : Type := mkSummary {
  critical : nat;
  serious : nat;
  moderate : nat;
  minor : nat;
  total : nat
}.

(** [{ id, createdAt, project: { id } }] of the scan a result is
    listed under. *)
Record ScanInfo : Type := mkInfo {
  info_id : string;
  info_createdAt : Z;
  info_project : string
}.

Record ResultsBody : Type := mkBody {
  body_results : list (Result.t * option ScanInfo);
  body_summary : ResultsSummary;
  body_total : nat;
  body_page : Z;
  body_pageSize : Z;
  (** [null] in the JSON answer when the quotient is not finite. *)
  body_totalPages : option Z
}.

Inductive ResultsAnswer : Type :=
| ResultsJson (b : ResultsBody)
| ErrorJson (error : string).

(** The key of the deduplication map: the same string as [createKey]. *)
Definition dedupKey (result : Result.t) : string :=
  Result.url result ++ "|" ++ Result.message result ++ "|"
    ++ JS.or_empty_string (JS.of_nullable (Result.element result)) ++ "|"
    ++ Result.severity result.

(** The body of [allResults.forEach]. *)
Definition dedupStep (m : JS.Map Result.t) (result : Result.t) : JS.Map Result.t :=
  let key := dedupKey result in
  if negb (JS.has key m)
     || match JS.get key m with
        | Some kept => (Result.createdAt result >? Result.createdAt kept)%Z
        | None => false
        end
  then JS.set key result m
  else m.

Definition deduplicate (allResults : list Result.t) : list Result.t :=
  JS.values (fold_left dedupStep allResults []).

(** [Math.ceil(a / b)] as it is serialised. *)
Definition ceil_div (a b : Z) : option Z :=
  if (b =? 0)%Z then None else Some (- ((- a) / b))%Z.

Definition count_severity (severity : string) (l : list Result.t) : nat :=
  length (filter (fun r => String.eqb (Result.severity r) severity) l).

Section Locale.
(** [String.prototype.toLowerCase] and [String.prototype.localeCompare]
    of the runtime. *)
Variable toLowerCase : string -> string.
Variable localeCompare : string -> string -> Z.

Definition matchesSearch (searchLower : string) (result : Result.t) : bool :=
  includes (toLowerCase (Result.message result)) searchLower
  || includes (toLowerCase (Result.url result)) searchLower
  || match Result.element result with
     | Some e => negb (String.eqb e "") && includes (toLowerCase e) searchLower
     | None => false
     end
  || match Result.help result with
     | Some h => negb (String.eqb h "") && includes (toLowerCase h) searchLower
     | None => false
     end.

Definition applyFilters (search : string)
    (severityFilters complianceFilters : list string)
    (uniqueResults : list Result.t) : list Result.t :=
  let l1 :=
    if negb (String.eqb search "")
    then filter (matchesSearch (toLowerCase search)) uniqueResults
    else uniqueResults in
  let l2 :=
    if Nat.ltb 0 (length severityFilters)
    then filter (fun r => existsb (String.eqb (Result.severity r)) severityFilters) l1
    else l1 in
  if Nat.ltb 0 (length complianceFilters)
  then filter (fun r =>
                 existsb (fun tag => existsb (String.eqb tag) complianceFilters)
                         (Result.tags r)) l2
  else l2.

Definition byRecency (a b : Result.t) : Z :=
  (Result.createdAt b - Result.createdAt a)%Z.

(** The comparator given to [uniqueResults.sort]. *)
Definition comparator (sortBy : string) (a b : Result.t) : Z :=
  if String.eqb sortBy "severity" then
    let aSeverity := severityOrder (Result.severity a) in
    let bSeverity := severityOrder (Result.severity b) in
    if negb (aSeverity =? bSeverity)%Z then (bSeverity - aSeverity)%Z
    else byRecency a b
  else if String.eqb sortBy "url" then
    localeCompare (Result.url a) (Result.url b)
  else byRecency a b.

Definition scanInfo (scans : list ScanWithResults) (result : Result.t)
  : option ScanInfo :=
  match find (fun s => existsb (fun r => String.eqb (Result.id r) (Result.id result))
                               (scan_results s)) scans with
  | Some s => Some (mkInfo (Scan.id (scan s)) (Scan.createdAt (scan s))
                           (Scan.projectId (scan s)))
  | None => None
  end.

(** Lines 43-139: the answer computed from the completed scans. *)
Definition answer (q : Query) (scans : list ScanWithResults) : ResultsBody :=
  let sortBy := or_default (q_sortBy q) "severity" in
  let search := or_default (q_search q) "" in
  let severityFilters := filters (q_severityFilters q) in
  let complianceFilters := filters (q_complianceFilters q) in
  let allResults := flat_map scan_results scans in
  let uniqueResults :=
    JS.sort (comparator sortBy)
      (applyFilters search severityFilters complianceFilters
         (deduplicate allResults)) in
  let totalResults := length uniqueResults in
  let startIndex := ((page q - 1) * pageSize q)%Z in
  let endIndex := (startIndex + pageSize q)%Z in
  let paginatedResults := JS.slice startIndex endIndex uniqueResults in
  mkBody (map (fun r => (r, scanInfo scans r)) paginatedResults)
         (mkSummary (count_severity "critical" uniqueResults)
                    (count_severity "serious" uniqueResults)
                    (count_severity "moderate" uniqueResults)
                    (count_severity "minor" uniqueResults)
                    totalResults)
         totalResults (page q) (pageSize q)
         (ceil_div (Z.of_nat totalResults) (pageSize q)).

Definition GET (id : string) (q : Query) : M (Response ResultsAnswer) :=
  try_catch
    (scans <- scan_findMany_completed id ;;
     if Nat.eqb (length scans) 0 then
       ret (mkResponse 200
              (ResultsJson
                 (mkBody [] (mkSummary 0 0 0 0 0) 0 (page q) (pageSize q)
                         (Some 0%Z))))
     else ret (mkResponse 200 (ResultsJson (answer q scans))))
    (fun _ => ret (mkResponse 500 (ErrorJson "Failed to get project results"))).
End Locale.

End ResultsRoute.

Module ResultsSpec.
Import Prisma ResultsRoute.

(** A row of a completed scan of the project. *)
Definition collected (id : string) (w : World) (r : Result.t) : Prop :=
  exists s, In s (scans w)
            /\ Scan.projectId s = id
            /\ Scan.status s = "completed"
            /\ In r (results w)
            /\ Result.scanId r = Scan.id s.



Section Locale.
Variable toLowerCase : string -> string.
Variable localeCompare : string -> string -> Z.



End Locale.
End ResultsSpec.

(* ================================================================== *)
(** ** What the handlers leave behind

    Vocabulary for the outcomes of the handlers: the rows a task
    stores, the scans it rewrites, what a rescan has done for a url. *)
(* ================================================================== *)

Module Outcomes.
Import Prisma Committed ScansRoute RescanRoute RescanSpec.

(** One scan rewritten in place: the others, the order and the ids
    are as before. *)
Definition rewritten (id : string) (before after : list Scan.t) : Prop :=
  Forall2 (fun s s' => Scan.id s' = Scan.id s
                       /\ (Scan.id s <> id -> s' = s)) before after.

(** What a column of [Result] holds of a property of a fresh finding:
    nothing when the property is [undefined]. *)
Definition stringColumnOf (v : JS.value) (c : option string) : Prop :=
  match v with
  | None => c = None
  | Some j => string_column j = Some c
  end.

Definition listColumnOf (v : JS.value) (c : list string) : Prop :=
  match v with
  | None => c = []
  | Some j => string_list_column j = Some c
  end.

(** The row that an insertion builds from the fresh finding [n]. *)
Definition storedAs (scanId : string) (n : AccessibilityResult.t)
    (row : Result.t) : Prop :=
  Result.scanId row = scanId
  /\ Result.url row = AccessibilityResult.url n
  /\ Result.message row = AccessibilityResult.message n
  /\ Result.element row = element_column (AccessibilityResult.element n)
  /\ Result.severity row = AccessibilityResult.severity n
  /\ Result.createdAt row = AccessibilityResult.createdAt n
  /\ stringColumnOf (AccessibilityResult.impact n) (Result.impact row)
  /\ stringColumnOf (AccessibilityResult.help n) (Result.help row)
  /\ listColumnOf (AccessibilityResult.tags n) (Result.tags row)
  /\ stringColumnOf (AccessibilityResult.elementPath n) (Result.elementPath row)
  /\ Result.details row = JS.or_empty_object (AccessibilityResult.details n).

(** The stored rows of the other scans. *)
Definition rowsOfOthers (scanId : string) (rows : list Result.t) : list Result.t :=
  filter (fun r => negb (String.eqb (Result.scanId r) scanId)) rows.

(** What the route has done for one Url when its callback settled:
    handled it, or failed to create its scan. *)
Definition settledFor (p : ProjectWithRelations) (w' : World)
    (urlRecord : Url.t) (outcome : exn + ScanEntry * ScanRequest) : Prop :=
  match outcome with
  | inr o => handled p w' urlRecord o
  | inl _ =>
      find (fun scan => String.eqb (Scan.url scan) (Url.url urlRecord))
           (project_scans p) = None
  end.

(** A scan as the rescan route creates one for the project. *)
Definition createdPending (projectId : string) (s : Scan.t) : Prop :=
  Scan.projectId s = projectId /\ Scan.status s = "pending".
End Outcomes.

(* ================================================================== *)
(** ** [GET /api/projects], the second handler of
    [src/app/api/projects/[id]/rescan/route.ts] *)
(* ================================================================== *)

Module ProjectsRoute.
Import Prisma RescanRoute.
Local Open Scope prisma_scope.

(** [project.findMany({ include: { urls: true,
    scans: { orderBy: { createdAt: 'desc' }, take: 1 } } })]. *)
Definition project_findMany : M (list ProjectWithRelations) :=
  call ProjectModel ;;;
  fun w =>
    (inr (map (fun p =>
                 mkProject p
                   (filter (fun u => String.eqb (Url.projectId u) (Project.id p))
                           (urls w))
                   (firstn 1
                      (newest_first
                         (filter (fun s => String.eqb (Scan.projectId s)
                                                      (Project.id p))
                                 (scans w)))))
              (projects w)), w).

Inductive ProjectsAnswer : Type :=
| ProjectsJson (projects : list ProjectWithRelations)
| ErrorJson (error : string).

Definition GET : M (Response ProjectsAnswer) :=
  try_catch
    (projects <- project_findMany ;;
     ret (mkResponse 200 (ProjectsJson projects)))
    (fun _ => ret (mkResponse 500 (ErrorJson "Failed to fetch projects"))).
End ProjectsRoute.

(* ================================================================== *)
(** ** [src/components/project-results.tsx]: the caller of the listing *)
(* ================================================================== *)

Module ProjectResults.
Import ResultsRoute.

(** [l.join(",")]. *)
Fixpoint join_comma (l : list string) : string :=
  match l with
  | [] => EmptyString
  | [x] => x
  | x :: rest => x ++ "," ++ join_comma rest
  end.

(** The search parameters [fetchResults] builds, as the route reads
    them back: [page] and [pageSize] through [toString] and
    [parseInt], the two filter lists joined when they are not empty
    and left out otherwise. *)
Definition fetchParams (page pageSize : Z) (sortBy searchQuery : string)
    (severityFilters complianceFilters : list string) : Query :=
  mkQuery page pageSize (Some sortBy) (Some searchQuery)
    (if Nat.ltb 0 (length severityFilters)
     then Some (join_comma severityFilters) else None)
    (if Nat.ltb 0 (length complianceFilters)
     then Some (join_comma complianceFilters) else None).

(** No comma in the string. *)
Fixpoint commaFree (s : string) : bool :=
  match s with
  | EmptyString => true
  | String c rest => negb (Ascii.eqb c ","%char) && commaFree rest
  end.
End ProjectResults.

(** ** The pages of a listing *)

Module Pages.
Import ResultsRoute.

Section Locale.
Variable toLowerCase : string -> string.
Variable localeCompare : string -> string -> Z.

(** The rows of all the pages of a query: deduplicated, filtered and
    sorted. *)
Definition listing (q : Query) (scans : list ScanWithResults) : list Result.t :=
  JS.sort (comparator localeCompare (or_default (q_sortBy q) "severity"))
    (applyFilters toLowerCase (or_default (q_search q) "")
       (filters (q_severityFilters q)) (filters (q_complianceFilters q))
       (deduplicate (flat_map scan_results scans))).

(** The same query for page [k]. *)
Definition onPage (q : Query) (k : Z) : Query :=
  mkQuery k (pageSize q) (q_sortBy q) (q_search q) (q_severityFilters q)
          (q_complianceFilters q).

(** The rows the answer lists on page [k]. *)
Definition pageRows (q : Query) (scans : list ScanWithResults) (k : Z)
  : list Result.t :=
  map fst (body_results (answer toLowerCase localeCompare (onPage q k) scans)).
End Locale.
End Pages.

(* ================================================================== *)
(** ** [NewProjectForm] of [src/components/project-results.tsx]: a
    caller of [POST /api/scans] *)
(* ================================================================== *)

Module NewProjectForm.
Import ScansRoute.

(** The fields of the form after the schema's defaults. *)
Record ProjectFormData : Type := mkForm {
  form_name : string;
  form_sitemapUrl : option string;
  form_urls : option string;
  form_wcagLevel : string;
  form_section508 : bool;
  form_bestPractices : bool;
  form_experimental : bool
}.

(** [s.split("\n")]. *)
Fixpoint split_lines (s : string) : list string :=
  match s with
  | EmptyString => [EmptyString]
  | String c rest =>
      if Ascii.eqb c "010"%char then EmptyString :: split_lines rest
      else match split_lines rest with
           | [] => [String c EmptyString]
           | first :: more => String c first :: more
           end
  end.

(** [s.startsWith(prefix)]. *)
Definition startsWith (s prefix : string) : bool := String.prefix prefix s.

Definition MAX_URLS : nat := 10.

Section Runtime.
(** [String.prototype.trim], and whether [new URL(s)] returns. *)
Variable trim : string -> string.
Variable parses : string -> bool.

(** The body of the loop over [rawUrls]: the url pushed, if any. *)
Definition formatted (rawUrl : string) : list string :=
  let formattedUrl :=
    if negb (startsWith rawUrl "http://") && negb (startsWith rawUrl "https://")
    then "https://" ++ rawUrl
    else rawUrl in
  if parses formattedUrl then [formattedUrl] else [].

(** [urls] before the limit. *)
Definition enteredUrls (data : ProjectFormData) : list string :=
  match form_urls data with
  | Some text =>
      if String.eqb text "" then []
      else
        let rawUrls :=
          filter (fun url => Nat.ltb 0 (String.length url))
                 (map trim (split_lines text)) in
        flat_map formatted rawUrls
  | None => []
  end.

(** [urls] as sent. *)
Definition submittedUrls (data : ProjectFormData) : list string :=
  let urls := enteredUrls data in
  if Nat.ltb MAX_URLS (length urls)
  then JS.slice 0 (Z.of_nat MAX_URLS) urls
  else urls.

(** [urls.length === 0 && !data.sitemapUrl]: the submission stops
    with "At least one valid URL is required". *)
Definition refused (data : ProjectFormData) : bool :=
  Nat.eqb (length (submittedUrls data)) 0
  && negb (given (form_sitemapUrl data)).

(** The bodies posted to [/api/scans], [projectId] being the [id] of
    the answer of [POST /api/projects]. *)
Definition scanRequests (data : ProjectFormData) (projectId : option string)
  : list ScanRequest :=
  map (fun url =>
         mkRequest projectId (Some url)
           (Some (mkOptions (form_wcagLevel data) (form_section508 data)
                            (form_bestPractices data) (form_experimental data)))
           None)
      (submittedUrls data).
End Runtime.
End NewProjectForm.

(* ================================================================== *)
(** ** Sample data

    The example of section 8 of the specification, and the worlds the
    properties below are exercised on. *)
(* ================================================================== *)

Module Samples.
Import Prisma.

Definition project1 : Project.t := Project.mk "p1" "Site" None.
Definition url1 : Url.t := Url.mk "u1" "https://a.com" "p1".

(** The scan of [https://a.com], as [POST] leaves it. *)
Definition scan1 : Scan.t :=
  Scan.mk "s1" "p1" "https://a.com" "in_progress" (Some 90%Z) None None
          None None None None None None 50%Z 90%Z.

Definition scanDone : Scan.t :=
  Scan.mk "s1" "p1" "https://a.com" "completed" (Some 90%Z) (Some 95%Z) None
          (Some 2%Z) (Some 1%Z) (Some 1%Z) (Some 0%Z) (Some 0%Z)
          (Some "simple") 50%Z 95%Z.


(** Stored findings. *)
Definition missingAlt : Result.t :=
  Result.mk "r1" "s1" "https://a.com" "Missing alt" (Some "<img>") "critical"
            None (Some "old") [] None JS.Null 60%Z 60%Z.

Definition emptyLink : Result.t :=
  Result.mk "r2" "s1" "https://a.com" "Empty link" (Some "<a>") "serious"
            None None [] None JS.Null 61%Z 61%Z.

(** Two stored findings of different identity whose keys are the same
    string. *)
Definition barInMessage : Result.t :=
  Result.mk "r3" "s1" "https://a.com" "x|y" (Some "z") "minor"
            None None [] None JS.Null 62%Z 62%Z.

Definition barInElement : Result.t :=
  Result.mk "r4" "s1" "https://a.com" "x" (Some "y|z") "minor"
            None None [] None JS.Null 63%Z 63%Z.

(** Fresh findings: the rewritable properties that the example leaves
    out are [undefined]. *)
Definition missingAltNew : AccessibilityResult.t :=
  AccessibilityResult.mk "https://a.com" "Missing alt" (JS.defined "<img>")
    "critical" None (Some (JS.Str "new")) None None None 95%Z.

Definition lowContrast : AccessibilityResult.t :=
  AccessibilityResult.mk "https://a.com" "Low contrast" (JS.defined "<p>")
    "moderate" None None None None None 95%Z.

(** The same finding reported a second time, with another help text. *)
Definition lowContrastAgain : AccessibilityResult.t :=
  AccessibilityResult.mk "https://a.com" "Low contrast" (JS.defined "<p>")
    "moderate" None (Some (JS.Str "Raise the contrast")) None None None 95%Z.

(** A fresh finding with every rewritable property given but
    [details]. *)
Definition noDetails : AccessibilityResult.t :=
  AccessibilityResult.mk "https://a.com" "Low contrast" (JS.defined "<p>")
    "moderate" (Some (JS.Str "serious")) (Some (JS.Str "Raise the contrast"))
    (Some (JS.Arr [JS.Str "wcag2aa"])) (Some (JS.Str "body > p")) None 95%Z.

Definition fresh : list AccessibilityResult.t := [missingAltNew; lowContrast].




Definition dbDown : exn :=
  Error "PrismaClientInitializationError" "Can't reach database server".

(** A world with one project, its url and its scan. *)
Definition world (scan : Scan.t) (rows : list Result.t)
    (scanOutcomes resultOutcomes : list (option exn)) : World :=
  mkWorld [project1] [url1] [scan] rows 100%Z 0 [] scanOutcomes resultOutcomes [].


Definition freshAnalysis : AnalysisResult :=
  mkAnalysis fresh (mkSummary 1 0 1 0 2).

Definition succeeds (url : string) (o : ComplianceOptions)
  : exn + AnalysisResult :=
  inr freshAnalysis.


Definition fails (reason : string) (url : string) (o : ComplianceOptions)
  : exn + AnalysisResult :=
  inl (new_Error reason).


Definition playwrightFails (reason : string) (url : string) (o : PlaywrightOptions)
  : exn + AnalysisResult :=
  inl (new_Error reason).

Definition rescanTask : ScansRoute.Task :=
  ScansRoute.mkTask "s1" "https://a.com" defaultOptions true.

(** A lower-casing of the ASCII letters and a comparison by bytes, to
    stand for those of the runtime. *)
Definition lowerChar (c : ascii) : ascii :=
  let n := nat_of_ascii c in
  if Nat.leb 65 n && Nat.leb n 90 then ascii_of_nat (n + 32) else c.

Fixpoint asciiLower (s : string) : string :=
  match s with
  | EmptyString => EmptyString
  | String c rest => String (lowerChar c) (asciiLower rest)
  end.

Definition byteCompare (x y : string) : Z :=
  match String.compare x y with
  | Lt => (-1)%Z
  | Eq => 0%Z
  | Gt => 1%Z
  end.

Definition firstPage : ResultsRoute.Query :=
  ResultsRoute.mkQuery 1 10 None None None None.


(** A stored finding of another scan. *)
Definition elsewhere : Result.t :=
  Result.mk "r9" "s2" "https://b.com" "Missing alt" (Some "<img>") "critical"
            None None [] None JS.Null 40%Z 40%Z.

(** An earlier completed scan of [https://a.com]. *)
Definition scanEarlier : Scan.t :=
  Scan.mk "s0" "p1" "https://a.com" "completed" (Some 10%Z) (Some 15%Z) None
          (Some 0%Z) (Some 0%Z) (Some 0%Z) (Some 0%Z) (Some 0%Z)
          (Some "simple") 5%Z 15%Z.

(** The project before any scan of its url. *)
Definition worldUnscanned : World :=
  mkWorld [project1] [url1] [] [] 100%Z 0 [] [] [] [].

(** A project with a second url and no scan, the second write to
    [Scan] being rejected. *)
Definition url2 : Url.t := Url.mk "u2" "https://a.com/about" "p1".

Definition worldTwoUrls : World :=
  mkWorld [project1] [url1; url2] [] [] 100%Z 0 [] [None; Some dbDown] [] [].

(** The project with two completed scans of its url. *)
Definition worldScannedTwice : World :=
  mkWorld [project1] [url1] [scanEarlier; scanDone] [] 100%Z 0 [] [] [] [].

(** The body a rescan posts for a url without a scan, and the task
    that [POST /api/scans] leaves for it. *)
Definition firstScanRequest : ScansRoute.ScanRequest :=
  ScansRoute.mkRequest (Some "p1") (Some "https://a.com") (Some defaultOptions)
                       None.

Definition firstScanTask : ScansRoute.Task :=
  ScansRoute.mkTask "c1" "https://a.com" defaultOptions false.


(** A form with two lines, the first without a protocol; a [trim]
    that has nothing to remove and a parser that accepts both. *)
Definition sampleForm : NewProjectForm.ProjectFormData :=
  NewProjectForm.mkForm "Site" None
    (Some ("a.com" ++ String "010"%char "https://b.com"))
    "aa" false true false.

Definition asEntered (s : string) : string := s.
Definition accepts (s : string) : bool := true.

End Samples.

(* ================================================================== *)
(** * Properties *)
(* ================================================================== *)

Import JS JSONText Reconcile ReconcileSpec.

(** ** [JSON.stringify] is injective *)

Lemma append_assoc (a b c : string) : (a ++ b) ++ c = a ++ (b ++ c).
Proof. induction a as [|x a IH]; simpl; [reflexivity | now rewrite IH]. Qed.

Lemma unescape_escape (c : ascii) (x : string) :
  unescape (escape_char c ++ x) = Some (c, x).
Proof. destruct c as [[] [] [] [] [] [] [] []]; reflexivity. Qed.

Lemma escape_head (c : ascii) (x r : string) :
  escape_char c ++ x <> String dquote r.
Proof. destruct c as [[] [] [] [] [] [] [] []]; discriminate. Qed.

Lemma quote_body_inj (s s' r r' : string) :
  quote_body s ++ String dquote r = quote_body s' ++ String dquote r' ->
  s = s' /\ r = r'.
Proof.
  revert s'. induction s as [|c s IH]; intros [|c' s']; simpl.
  - intros [= ->]. now split.
  - intros E. rewrite append_assoc in E. symmetry in E. now apply escape_head in E.
  - intros E. rewrite append_assoc in E. now apply escape_head in E.
  - rewrite !append_assoc. intros E.
    pose proof (f_equal unescape E) as U. rewrite !unescape_escape in U.
    injection U as -> U. destruct (IH _ U) as [-> ->]. now split.
Qed.

Lemma quote_inj (s s' r r' : string) :
  quote s ++ r = quote s' ++ r' -> s = s' /\ r = r'.
Proof.
  unfold quote. simpl. rewrite !append_assoc. simpl. intros [= E].
  now apply quote_body_inj.
Qed.

Lemma uint_chars (d : uint) : all_chars numchar (NilEmpty.string_of_uint d) = true.
Proof. induction d; simpl; auto. Qed.

Lemma string_of_Z_chars (n : Z) : all_chars numchar (string_of_Z n) = true.
Proof.
  unfold string_of_Z. destruct (Z.to_int n) as [d|d]; simpl.
  - destruct d; try reflexivity; apply (uint_chars (_ _)).
  - destruct d; try reflexivity; apply (uint_chars (_ _)).
Qed.

Lemma string_of_Z_head (n : Z) :
  exists c t, string_of_Z n = String c t /\ kind_of_char c = Some 2.
Proof.
  pose proof (string_of_Z_chars n) as H.
  assert (N : string_of_Z n <> EmptyString).
  { unfold string_of_Z. destruct (Z.to_int n) as [d|d]; simpl; [|discriminate].
    destruct d; discriminate. }
  destruct (string_of_Z n) as [|c t]; [congruence|].
  exists c, t. split; [reflexivity|]. simpl in H.
  apply andb_true_iff in H as [H _]. unfold numchar in H.
  destruct (kind_of_char c) as [[|[|[|k]]]|]; try discriminate. reflexivity.
Qed.

Lemma int_roundtrip (d : int) :
  exists d', NilZero.int_of_string (NilZero.string_of_int d) = Some d'
             /\ Z.of_int d' = Z.of_int d.
Proof.
  destruct d as [u|u]; destruct u;
    try (eexists; split; [apply NilZero.isi; discriminate | reflexivity]).
  - exists (Pos Decimal.zero). split; reflexivity.
  - exists (Neg (D0 Nil)). split; reflexivity.
Qed.

Lemma string_of_Z_inj (n m : Z) : string_of_Z n = string_of_Z m -> n = m.
Proof.
  unfold string_of_Z. intros E.
  destruct (int_roundtrip (Z.to_int n)) as (dn & Hn & Zn).
  destruct (int_roundtrip (Z.to_int m)) as (dm & Hm & Zm).
  rewrite E, Hm in Hn. injection Hn as <-.
  rewrite <- (DecimalZ.of_to n), <- (DecimalZ.of_to m). congruence.
Qed.

Lemma run_unique (p : ascii -> bool) (s1 s2 r1 r2 : string) :
  all_chars p s1 = true -> all_chars p s2 = true ->
  match r1 with EmptyString => True | String c _ => p c = false end ->
  match r2 with EmptyString => True | String c _ => p c = false end ->
  s1 ++ r1 = s2 ++ r2 -> s1 = s2 /\ r1 = r2.
Proof.
  revert s2. induction s1 as [|c s1 IH]; intros [|c' s2]; simpl; intros A1 A2 S1 S2 E.
  - now split.
  - subst r1. apply andb_true_iff in A2 as [A2 _]. congruence.
  - subst r2. apply andb_true_iff in A1 as [A1 _]. congruence.
  - injection E as -> E.
    apply andb_true_iff in A1 as [_ A1]. apply andb_true_iff in A2 as [_ A2].
    destruct (IH _ A1 A2 S1 S2 E) as [-> ->]. now split.
Qed.

Lemma closes_stops (r : string) :
  closes r -> match r with EmptyString => True | String c _ => numchar c = false end.
Proof. destruct r as [|c r]; simpl; [trivial|]. unfold numchar. now intros ->. Qed.

Lemma stringify_head (j : json) :
  exists c t, stringify j = String c t /\ kind_of_char c = Some (kind j).
Proof.
  destruct j as [|[]|n|s|l|ps]; simpl; try (eexists; eexists; split; reflexivity).
  apply string_of_Z_head.
Qed.

Lemma head_mismatch (a b : json) (r1 r2 : string) :
  kind a <> kind b -> stringify a ++ r1 <> stringify b ++ r2.
Proof.
  intros K E.
  destruct (stringify_head a) as (ca & ta & Ha & Ka).
  destruct (stringify_head b) as (cb & tb & Hb & Kb).
  rewrite Ha, Hb in E. simpl in E. injection E as -> _. congruence.
Qed.

Lemma head_not_closing (a : json) (r1 : string) (c : ascii) (r2 : string) :
  kind_of_char c = None -> stringify a ++ r1 <> String c r2.
Proof.
  intros K E. destruct (stringify_head a) as (ca & ta & Ha & Ka).
  rewrite Ha in E. simpl in E. injection E as -> _. congruence.
Qed.

Lemma concat_cons (x : string) (xs : list string) (r : string) :
  String.concat "," (x :: xs) ++ r
  = x ++ match xs with [] => r | _ => "," ++ String.concat "," xs ++ r end.
Proof.
  destruct xs as [|y ys]; [reflexivity|].
  change (String.concat "," (x :: y :: ys)) with (x ++ "," ++ String.concat "," (y :: ys)).
  now rewrite !append_assoc.
Qed.

Lemma items_inj (l : list json) :
  Forall unique_text l ->
  forall l' r r', items_text l ++ "]" ++ r = items_text l' ++ "]" ++ r' ->
                  l = l' /\ r = r'.
Proof.
  unfold items_text.
  induction 1 as [|x t Hx Ht IH]; intros [|x' t'] r r' E.
  - simpl in E. injection E as ->. now split.
  - simpl map in E. rewrite concat_cons in E. simpl in E. symmetry in E.
    now apply head_not_closing in E.
  - simpl map in E. rewrite concat_cons in E. simpl in E.
    now apply head_not_closing in E.
  - simpl map in E. rewrite !concat_cons in E.
    apply Hx in E.
    + destruct E as [-> E].
      destruct t as [|y t]; destruct t' as [|y' t']; cbn [map append] in E.
      * injection E as ->. now split.
      * discriminate E.
      * discriminate E.
      * injection E as E. apply (IH (y' :: t')) in E. destruct E as [-> ->]. now split.
    + destruct t; reflexivity.
    + destruct t'; reflexivity.
Qed.

Lemma props_inj (l : list (string * json)) :
  Forall (fun p => unique_text (snd p)) l ->
  forall l' r r', props_text l ++ "}" ++ r = props_text l' ++ "}" ++ r' ->
                  l = l' /\ r = r'.
Proof.
  unfold props_text.
  induction 1 as [|[k v] t Hx Ht IH]; intros [|[k' v'] t'] r r' E.
  - simpl in E. injection E as ->. now split.
  - simpl map in E. rewrite concat_cons in E. discriminate E.
  - simpl map in E. rewrite concat_cons in E. discriminate E.
  - simpl map in E. rewrite !concat_cons in E. unfold prop_text in E. simpl fst in E.
    simpl snd in E.
    rewrite (append_assoc (quote k)), (append_assoc (quote k')) in E.
    apply quote_inj in E. destruct E as [-> E].
    simpl in E. injection E as E. simpl in Hx.
    apply Hx in E.
    + destruct E as [-> E].
      destruct t as [|y t]; destruct t' as [|y' t']; cbn [map append] in E.
      * injection E as ->. now split.
      * discriminate E.
      * discriminate E.
      * injection E as E. apply (IH (y' :: t')) in E. destruct E as [E ->]. now rewrite E.
    + destruct t; reflexivity.
    + destruct t'; reflexivity.
Qed.

Lemma stringify_unique (a : json) : unique_text a.
Proof.
  induction a as [| b | n | s | items IH | props IH] using json_induction;
    intros b' r1 r2 C1 C2 E;
    destruct b' as [| b' | n' | s' | items' | props'];
    try (exfalso; revert E; apply head_mismatch; simpl; discriminate).
  - simpl in E. injection E as ->. now split.
  - destruct b, b'; simpl in E; try discriminate E; injection E as ->; now split.
  - simpl in E.
    destruct (run_unique numchar _ _ _ _ (string_of_Z_chars n)
                (string_of_Z_chars n') (closes_stops _ C1) (closes_stops _ C2) E)
      as [E' ->].
    apply string_of_Z_inj in E'. now subst.
  - simpl in E. apply quote_inj in E. destruct E as [-> ->]. now split.
  - simpl in E. injection E as E. rewrite !append_assoc in E.
    apply (items_inj _ IH) in E. destruct E as [-> ->]. now split.
  - simpl in E. injection E as E. rewrite !append_assoc in E.
    apply (props_inj _ IH) in E. destruct E as [-> ->]. now split.
Qed.

Lemma append_empty (s : string) : s ++ "" = s.
Proof. induction s as [|c s IH]; simpl; [reflexivity | now rewrite IH]. Qed.

Theorem stringify_inj (a b : json) : stringify a = stringify b -> a = b.
Proof.
  intros E. destruct (stringify_unique a b "" "") as [H _]; simpl; auto.
  now rewrite !append_empty.
Qed.

(** ** Equality of values *)

Section ListEqbFacts.
Context {A : Type} (eqb : A -> A -> bool).

Lemma list_eqb_eq (l : list A) :
  Forall (fun x => forall y, eqb x y = true <-> x = y) l ->
  forall l', list_eqb eqb l l' = true <-> l = l'.
Proof.
  induction 1 as [|x t Hx _ IH]; intros [|y t']; simpl;
    try (split; [discriminate | discriminate]).
  - tauto.
  - rewrite andb_true_iff, Hx, IH. split; [intros [-> ->]; reflexivity |].
    intros [= -> ->]. now split.
Qed.
End ListEqbFacts.

Lemma json_eqb_eq (a b : json) : json_eqb a b = true <-> a = b.
Proof.
  revert b.
  induction a as [| x | x | x | items IH | props IH] using json_induction;
    intros [| y | y | y | items' | props']; simpl;
    try (split; [discriminate | discriminate]); try tauto.
  - rewrite Bool.eqb_true_iff. split; [now intros -> | now intros [= ->]].
  - rewrite Z.eqb_eq. split; [now intros -> | now intros [= ->]].
  - rewrite String.eqb_eq. split; [now intros -> | now intros [= ->]].
  - rewrite (list_eqb_eq _ _ IH). split; [now intros -> | now intros [= ->]].
  - rewrite list_eqb_eq; [split; [now intros -> | now intros [= ->]]|].
    clear -IH. induction IH as [|[k v] t Hv _ IHt]; constructor; auto.
    intros [k' v']. simpl in *. rewrite andb_true_iff, String.eqb_eq, Hv.
    split; [intros [-> ->]; reflexivity | intros [= -> ->]; now split].
Qed.

Lemma value_eqb_eq (a b : value) : value_eqb a b = true <-> a = b.
Proof.
  destruct a as [x|], b as [y|]; simpl; try (split; [discriminate|discriminate]).
  - rewrite json_eqb_eq. split; [now intros -> | now intros [= ->]].
  - tauto.
Qed.

(** [JSON.stringify(a) !== JSON.stringify(b)] decides whether the
    values differ. *)
Lemma strict_neq_stringify (a b : value) :
  strict_neq (JSON_stringify a) (JSON_stringify b) = negb (value_eqb a b).
Proof.
  unfold strict_neq. f_equal.
  destruct (value_eqb a b) eqn:E.
  - apply value_eqb_eq in E. subst b. destruct a; simpl; auto using String.eqb_refl.
  - destruct a as [x|], b as [y|]; simpl in *; try reflexivity; try discriminate.
    destruct (String.eqb_spec (stringify x) (stringify y)) as [S|]; [|reflexivity].
    apply stringify_inj in S. subst y.
    assert (json_eqb x x = true) by now apply json_eqb_eq. congruence.
Qed.

Section MapFacts.
Context {V : Type}.
Implicit Types (m : Map V) (k : string) (v : V).

Lemma get_set k k' v m :
  get k' (set k v m) = if String.eqb k' k then Some v else get k' m.
Proof.
  induction m as [|[k0 v0] m IH]; simpl.
  - reflexivity.
  - destruct (String.eqb_spec k k0) as [->|N]; simpl.
    + destruct (String.eqb k' k0); reflexivity.
    + rewrite IH. destruct (String.eqb_spec k' k0) as [->|]; [|reflexivity].
      destruct (String.eqb_spec k0 k); congruence.
Qed.

Lemma has_set k k' v m :
  has k' (set k v m) = String.eqb k' k || has k' m.
Proof. unfold has. rewrite get_set. now destruct (String.eqb k' k). Qed.

Lemma has_keys k m : has k m = true <-> In k (keys m).
Proof.
  unfold has, keys. induction m as [|[k0 v0] m IH]; simpl.
  - split; [discriminate | tauto].
  - destruct (String.eqb_spec k k0) as [->|N].
    + split; auto.
    + rewrite IH. split; [auto | intros [E|E]; congruence].
Qed.

Lemma set_absent k v m : has k m = false -> set k v m = (m ++ [(k, v)])%list.
Proof.
  unfold has. induction m as [|[k0 v0] m IH]; simpl; [reflexivity|].
  destruct (String.eqb k k0); [discriminate|]. intros E. now rewrite IH.
Qed.

Lemma keys_set k v m :
  keys (set k v m) = if has k m then keys m else (keys m ++ [k])%list.
Proof.
  unfold has, keys. induction m as [|[k0 v0] m IH]; simpl; [reflexivity|].
  destruct (String.eqb_spec k k0) as [->|N]; simpl; [reflexivity|].
  rewrite IH. now destruct (get k m).
Qed.

Lemma NoDup_keys_set k v m : NoDup (keys m) -> NoDup (keys (set k v m)).
Proof.
  intros N. rewrite keys_set. destruct (has k m) eqn:E; [assumption|].
  apply NoDup_rev in N. rewrite <- (rev_involutive (keys m ++ [k])).
  apply NoDup_rev. rewrite rev_app_distr. simpl. constructor; [|assumption].
  rewrite <- in_rev. intros I. apply has_keys in I. congruence.
Qed.

Lemma get_in k v m : get k m = Some v -> In (k, v) m.
Proof.
  induction m as [|[k0 v0] m IH]; simpl; [discriminate|].
  destruct (String.eqb_spec k k0) as [->|N]; [intros [= ->]; now left | auto].
Qed.

Lemma in_get k v m : NoDup (keys m) -> In (k, v) m -> get k m = Some v.
Proof.
  unfold keys. induction m as [|[k0 v0] m IH]; simpl; [tauto|].
  intros N [E|I].
  - injection E as -> ->. now rewrite String.eqb_refl.
  - inversion N as [|? ? N1 N2]; subst.
    destruct (String.eqb_spec k k0) as [->|]; [|auto].
    exfalso. apply N1. apply (in_map fst) in I. exact I.
Qed.
End MapFacts.


Section BuildFacts.
Context {A : Type} `{Finding A}.
Implicit Types (l : list A) (r : A) (k : string).

Local Abbreviation entry := (fun r : A => (createKey r, r)).

Lemma buildMap_snoc l r :
  buildMap (l ++ [r]) = set (createKey r) r (buildMap l).
Proof. unfold buildMap. now rewrite fold_left_app. Qed.

Lemma buildMap_keys l : NoDup (keys (buildMap l)).
Proof.
  induction l as [|r l IH] using rev_ind; [constructor|].
  rewrite buildMap_snoc. now apply NoDup_keys_set.
Qed.

Lemma buildMap_has l k :
  has k (buildMap l) = existsb (fun r => String.eqb k (createKey r)) l.
Proof.
  induction l as [|r l IH] using rev_ind; [reflexivity|].
  rewrite buildMap_snoc, has_set, existsb_app, IH. simpl.
  rewrite orb_false_r. apply orb_comm.
Qed.

Lemma buildMap_get l k r :
  get k (buildMap l) = Some r <-> createKey r = k /\ lastOccurrence r l.
Proof.
  split.
  - revert r. induction l as [|x l IH] using rev_ind; intros r; [discriminate|].
    rewrite buildMap_snoc, get_set.
    destruct (String.eqb_spec k (createKey x)) as [->|N].
    + intros [= ->]. split; [reflexivity|]. exists l, []. split; [reflexivity|].
      intros ? [].
    + intros G. destruct (IH _ G) as (K & before & after & -> & L).
      split; [assumption|]. exists before, (after ++ [x])%list.
      split; [now rewrite <- app_assoc|].
      intros y I. apply in_app_or in I as [I|[<-|[]]]; [now apply L | congruence].
  - intros (K & before & after & -> & L). subst k.
    induction after as [|x after IH] using rev_ind.
    + rewrite buildMap_snoc, get_set. now rewrite String.eqb_refl.
    + change (before ++ r :: after ++ [x])%list
        with (before ++ (r :: after) ++ [x])%list.
      rewrite app_assoc, buildMap_snoc, get_set.
      destruct (String.eqb_spec (createKey r) (createKey x)) as [E|N].
      * exfalso. apply (L x); [apply in_or_app; right; now left | now symmetry].
      * apply IH. intros y I. apply L. apply in_or_app. now left.
Qed.

Lemma buildMap_entry l k r : In (k, r) (buildMap l) -> k = createKey r.
Proof.
  intros I. apply in_get in I; [|apply buildMap_keys].
  apply buildMap_get in I. now destruct I.
Qed.

Lemma entries_values (m : Map A) :
  (forall k r, In (k, r) m -> k = createKey r) -> map entry (values m) = m.
Proof.
  unfold values. induction m as [|[k r] m IH]; simpl; [reflexivity|].
  intros K. rewrite IH by auto. now rewrite <- (K k r) by auto.
Qed.

Lemma values_entries l : values (map entry l) = l.
Proof. unfold values. rewrite map_map. simpl. apply map_id. Qed.

Lemma keys_entries l : keys (map entry l) = map createKey l.
Proof. unfold keys. now rewrite map_map. Qed.

Lemma buildMap_distinct l : distinctKeys l -> buildMap l = map entry l.
Proof.
  unfold distinctKeys.
  induction l as [|r l IH] using rev_ind; [reflexivity|].
  rewrite map_app. simpl. intros N.
  apply NoDup_remove in N as [N I]. rewrite app_nil_r in N, I.
  rewrite buildMap_snoc, set_absent.
  { rewrite IH by assumption. now rewrite map_app. }
  rewrite buildMap_has. apply not_true_is_false. intros E.
  apply existsb_exists in E as (x & Ix & E). apply String.eqb_eq in E.
  apply I. rewrite E. now apply in_map.
Qed.

Lemma lastOnly_iff l r : In r (lastOnly l) <-> lastOccurrence r l.
Proof.
  unfold lastOnly, values. split.
  - intros I. apply in_map_iff in I as ([k r'] & E & I). simpl in E. subst r'.
    apply in_get in I; [|apply buildMap_keys].
    apply buildMap_get in I. now destruct I.
  - intros L. apply (in_map snd _ (createKey r, r)).
    apply get_in. apply buildMap_get. now split.
Qed.

Lemma lastOnly_distinct l : distinctKeys (lastOnly l).
Proof.
  unfold distinctKeys, lastOnly.
  rewrite <- keys_entries, entries_values by apply buildMap_entry.
  apply buildMap_keys.
Qed.

Lemma buildMap_lastOnly l : buildMap (lastOnly l) = buildMap l.
Proof.
  rewrite buildMap_distinct by apply lastOnly_distinct.
  apply entries_values, buildMap_entry.
Qed.

Lemma lastOnly_fixed l : distinctKeys l -> lastOnly l = l.
Proof.
  intros D. unfold lastOnly. rewrite buildMap_distinct by assumption.
  apply values_entries.
Qed.

Lemma get_entries l k :
  get k (map entry l) = find (fun r => String.eqb k (createKey r)) l.
Proof.
  induction l as [|r l IH]; simpl; [reflexivity|].
  now destruct (String.eqb k (createKey r)).
Qed.

Lemma flat_map_entries {B : Type} (f : string -> A -> list B) l :
  flat_map (fun en => f (fst en) (snd en)) (map entry l)
  = flat_map (fun r => f (createKey r) r) l.
Proof. induction l as [|r l IH]; simpl; [reflexivity | now rewrite IH]. Qed.
End BuildFacts.

Lemma flat_map_if {A B : Type} (c : A -> bool) (g : A -> B) (l : list A) :
  flat_map (fun r => if c r then [g r] else []) l = map g (filter c l).
Proof.
  induction l as [|r l IH]; simpl; [reflexivity|].
  rewrite IH. now destruct (c r).
Qed.

Lemma checkFields_spec (e : Result.t) (n : AccessibilityResult.t) :
  checkFields e n
  = (patchFields e n,
     match patchFields e n with [] => false | _ :: _ => true end).
Proof.
  unfold checkFields, patchFields, fieldsToCheck. cbn [fold_left filter].
  unfold checkField. rewrite !strict_neq_stringify. fold (differs e n Field.help).
  fold (differs e n Field.impact). fold (differs e n Field.tags).
  fold (differs e n Field.elementPath). fold (differs e n Field.details).
  destruct (differs e n Field.help), (differs e n Field.impact),
    (differs e n Field.tags), (differs e n Field.elementPath),
    (differs e n Field.details); reflexivity.
Qed.

Lemma computeDiff_distinct (R1 : list Result.t) (R2 : list AccessibilityResult.t)
    (now : Z) :
  distinctKeys R1 -> distinctKeys R2 ->
  computeDiff R1 R2 now = diff_keyed R1 R2 now.
Proof.
  intros D1 D2. unfold computeDiff, diff_keyed. f_equal.
  - unfold computeToAdd, newMap, existingMap, toAdd_keyed.
    rewrite (buildMap_distinct R2) by assumption.
    rewrite (flat_map_entries
               (fun k r => if negb (has k (buildMap R1)) then [r] else [])).
    rewrite (flat_map_if _ (fun r => r)), map_id.
    apply filter_ext. intros n. now rewrite buildMap_has.
  - unfold computeToRemove, newMap, existingMap, toRemove_keyed.
    rewrite (buildMap_distinct R1) by assumption.
    rewrite (flat_map_entries
               (fun k r => if negb (has k (buildMap R2)) then [Result.id r] else [])).
    rewrite flat_map_if. f_equal.
    apply filter_ext. intros e. now rewrite buildMap_has.
  - unfold computeToUpdate, newMap, existingMap, toUpdate_keyed.
    rewrite (buildMap_distinct R1), (buildMap_distinct R2) by assumption.
    rewrite (flat_map_entries
               (fun k r =>
                  if has k (map (fun r0 => (createKey r0, r0)) R2)
                  then match get k (map (fun r0 => (createKey r0, r0)) R2) with
                       | Some newResult =>
                           if snd (checkFields r newResult)
                           then [mkPatch (Result.id r) (fst (checkFields r newResult)) now]
                           else []
                       | None => []
                       end
                  else [])).
    apply flat_map_ext. intros e. unfold has. rewrite get_entries.
    fold (sameKey (B:=AccessibilityResult.t) e).
    destruct (find (sameKey e) R2) as [n|]; [|reflexivity].
    rewrite checkFields_spec. unfold patchOf. simpl.
    now destruct (patchFields e n).
Qed.

Lemma computeDiff_lastOnly (R1 : list Result.t) (R2 : list AccessibilityResult.t)
    (now : Z) :
  computeDiff R1 R2 now = diff_keyed (lastOnly R1) (lastOnly R2) now.
Proof.
  rewrite <- computeDiff_distinct by apply lastOnly_distinct.
  unfold computeDiff, computeToAdd, computeToRemove, computeToUpdate,
    existingMap, newMap.
  now rewrite !buildMap_lastOnly.
Qed.

Lemma keyMatched_lastOnly {A B : Type} `{Finding A} `{Finding B} (a : A) (l : list B) :
  keyMatched a (lastOnly l) = keyMatched a l.
Proof.
  unfold keyMatched, sameKey.
  rewrite <- (buildMap_has (lastOnly l) (createKey a)).
  rewrite <- (buildMap_has l (createKey a)).
  now rewrite buildMap_lastOnly.
Qed.

Import Prisma Committed ScansRoute.
Local Open Scope prisma_scope.

(** ** The key and the identity tuple *)

Lemma createKey_identity {A B : Type} `{Finding A} `{Finding B} (a : A) (b : B) :
  identity a = identity b -> createKey a = createKey b.
Proof. unfold identity, createKey. now intros [= -> -> -> ->]. Qed.

Lemma split_at_bar (a a' b b' : string) :
  noBar a = true -> noBar a' = true ->
  a ++ "|" ++ b = a' ++ "|" ++ b' -> a = a' /\ b = b'.
Proof.
  unfold noBar. revert a'.
  induction a as [|c a IH]; intros [|c' a']; simpl; intros Na Na' E.
  - injection E as ->. now split.
  - injection E as <- _. discriminate Na'.
  - injection E as -> _. discriminate Na.
  - injection E as -> E.
    apply andb_true_iff in Na as [_ Na]. apply andb_true_iff in Na' as [_ Na'].
    destruct (IH _ Na Na' E) as [-> ->]. now split.
Qed.

Lemma createKey_barFree {A B : Type} `{Finding A} `{Finding B} (a : A) (b : B) :
  barFree a -> barFree b -> createKey a = createKey b -> identity a = identity b.
Proof.
  unfold barFree, createKey, identity. intros (U & M & E) (U' & M' & E') K.
  apply split_at_bar in K as [-> K]; [|assumption|assumption].
  apply split_at_bar in K as [-> K]; [|assumption|assumption].
  apply split_at_bar in K as [-> ->]; [|assumption|assumption].
  reflexivity.
Qed.

Lemma tuple_eqb_eq (x y : string * string * string * string) :
  tuple_eqb x y = true <-> x = y.
Proof.
  destruct x as [[[u m] e] s], y as [[[u' m'] e'] s']. simpl.
  rewrite !andb_true_iff, !String.eqb_eq. split.
  - now intros [[[-> ->] ->] ->].
  - intros [= -> -> -> ->]. auto.
Qed.

Section KeyFacts.
Context {A B : Type} `{Finding A} `{Finding B}.

Lemma sameFinding_iff (a : A) (b : B) :
  sameFinding a b = true <-> identity a = identity b.
Proof. apply tuple_eqb_eq. Qed.

Lemma sameKey_iff (a : A) (b : B) :
  sameKey a b = true <-> createKey a = createKey b.
Proof. apply String.eqb_eq. Qed.

Lemma sameFinding_sameKey (a : A) (b : B) :
  sameFinding a b = true -> sameKey a b = true.
Proof. rewrite sameFinding_iff, sameKey_iff. apply createKey_identity. Qed.

Lemma matched_keyMatched (a : A) (l : list B) :
  matched a l = true -> keyMatched a l = true.
Proof.
  unfold matched, keyMatched. rewrite !existsb_exists.
  intros (b & I & S). exists b. auto using sameFinding_sameKey.
Qed.

Lemma faithful_same (l : list A) (l' : list B) (a : A) (b : B) :
  faithful l l' -> In a l -> In b l' -> sameKey a b = sameFinding a b.
Proof.
  intros F Ia Ib. apply eq_true_iff_eq.
  rewrite sameKey_iff, sameFinding_iff. split.
  - now apply F.
  - apply createKey_identity.
Qed.

Lemma faithful_sym (l : list A) (l' : list B) : faithful l l' -> faithful l' l.
Proof. intros F b a Ib Ia E. symmetry. apply F; auto. Qed.

Lemma barFree_faithful (l : list A) (l' : list B) :
  (forall a, In a l -> barFree a) -> (forall b, In b l' -> barFree b) ->
  faithful l l'.
Proof. intros Fa Fb a b Ia Ib. apply createKey_barFree; auto. Qed.
End KeyFacts.

Lemma barFree_faithfulKeys (R1 : list Result.t) (R2 : list AccessibilityResult.t) :
  (forall e, In e R1 -> barFree e) -> (forall n, In n R2 -> barFree n) ->
  faithfulKeys R1 R2.
Proof. intros F1 F2. repeat split; apply barFree_faithful; assumption. Qed.

Lemma distinct_through {R K L : Type} (key : R -> K) (tuple : R -> L)
    (rows : list R) :
  (forall a b, tuple a = tuple b -> key a = key b) ->
  NoDup (map key rows) -> NoDup (map tuple rows).
Proof.
  intros Fn. induction rows as [|x rows IH]; simpl; intros D; [constructor|].
  apply NoDup_cons_iff in D as [Fresh D]. apply NoDup_cons; [|auto].
  intros I. apply Fresh. apply in_map_iff in I as (y & E & I).
  rewrite <- (Fn _ _ E). now apply in_map.
Qed.

Lemma distinct_faithful {A : Type} `{Finding A} (l : list A) :
  faithful l l -> distinctFindings l -> distinctKeys l.
Proof.
  unfold distinctFindings, distinctKeys.
  induction l as [|x l IH]; simpl; intros F D; [constructor|].
  apply NoDup_cons_iff in D as [Fresh D]. apply NoDup_cons.
  - intros I. apply Fresh. apply in_map_iff in I as (y & E & I).
    rewrite <- (F y x); [now apply in_map | now right | now left | exact E].
  - apply IH; [|exact D]. intros a b Ia Ib. apply F; now right.
Qed.

Lemma existsb_ext_in {X : Type} (f g : X -> bool) (l : list X) :
  (forall x, In x l -> f x = g x) -> existsb f l = existsb g l.
Proof.
  induction l as [|x l IH]; simpl; intros E; [reflexivity|].
  rewrite (E x) by now left. f_equal. apply IH. intros y I. apply E. now right.
Qed.

Lemma find_ext_in {X : Type} (f g : X -> bool) (l : list X) :
  (forall x, In x l -> f x = g x) -> find f l = find g l.
Proof.
  induction l as [|x l IH]; simpl; intros E; [reflexivity|].
  rewrite (E x) by now left. destruct (g x); [reflexivity|].
  apply IH. intros y I. apply E. now right.
Qed.

Lemma flat_map_agree {X Y : Type} (f g : X -> list Y) (l : list X) :
  (forall x, In x l -> f x = g x) -> flat_map f l = flat_map g l.
Proof.
  induction l as [|x l IH]; simpl; intros E; [reflexivity|].
  rewrite (E x) by now left. f_equal. apply IH. intros y I. apply E. now right.
Qed.

(** Where the key is faithful, matching by key string is matching by
    identity. *)
Lemma diff_keyed_spec (R1 : list Result.t) (R2 : list AccessibilityResult.t)
    (now : Z) :
  faithful R1 R2 -> diff_keyed R1 R2 now = diff_spec R1 R2 now.
Proof.
  intros F. unfold diff_keyed, diff_spec. f_equal.
  - unfold toAdd_keyed, toAdd_spec. apply filter_ext_in. intros n I. f_equal.
    apply existsb_ext_in. intros e Ie.
    apply (faithful_same R2 R1); auto using faithful_sym.
  - unfold toRemove_keyed, toRemove_spec. f_equal.
    apply filter_ext_in. intros e I. f_equal.
    apply existsb_ext_in. intros n In_. now apply (faithful_same R1 R2).
  - unfold toUpdate_keyed, toUpdate_spec. apply flat_map_agree. intros e I.
    rewrite (find_ext_in (sameKey e) (sameFinding e)); [reflexivity|].
    intros n In_. now apply (faithful_same R1 R2).
Qed.

(** ** The reconciliation diff *)

Lemma patchFields_in (e : Result.t) (n : AccessibilityResult.t)
    (f : Field.t) (v : value) :
  In (f, v) (patchFields e n)
  <-> Result.get e f <> AccessibilityResult.get n f
      /\ v = AccessibilityResult.get n f.
Proof.
  unfold patchFields. rewrite in_map_iff. split.
  - intros (f' & [= -> <-] & I). apply filter_In in I as [_ D].
    split; [|reflexivity]. unfold differs in D. intros E.
    apply value_eqb_eq in E. rewrite E in D. discriminate.
  - intros [D ->]. exists f. split; [reflexivity|]. apply filter_In. split.
    + destruct f; simpl; tauto.
    + unfold differs. destruct (value_eqb _ _) eqn:E; [|reflexivity].
      apply value_eqb_eq in E. contradiction.
Qed.

Lemma patchFields_nil (e : Result.t) (n : AccessibilityResult.t) :
  patchFields e n = []
  <-> forall f, Result.get e f = AccessibilityResult.get n f.
Proof.
  split.
  - intros E f.
    destruct (value_eqb (Result.get e f) (AccessibilityResult.get n f)) eqn:V;
      [now apply value_eqb_eq|].
    exfalso. assert (I : In (f, AccessibilityResult.get n f) (patchFields e n)).
    { apply patchFields_in. split; [|reflexivity]. intros Q.
      apply value_eqb_eq in Q. congruence. }
    rewrite E in I. destruct I.
  - intros E. destruct (patchFields e n) as [|[f v] l] eqn:P; [reflexivity|].
    assert (I : In (f, v) (patchFields e n)) by (rewrite P; now left).
    apply patchFields_in in I as [D _]. now specialize (E f).
Qed.

Lemma distinct_after_filter {K R : Type} (key : R -> K) (keep : R -> bool)
    (rows : list R) :
  NoDup (map key rows) -> NoDup (map key (filter keep rows)).
Proof.
  intros D. induction rows as [|x rows IH]; simpl in *; [exact D|].
  apply NoDup_cons_iff in D as [Fresh D].
  destruct (keep x); simpl; [|auto]. apply NoDup_cons; [|auto].
  intros I. apply Fresh. apply in_map_iff in I as (y & E & I).
  apply filter_In in I as [I _]. rewrite <- E. now apply in_map.
Qed.

Lemma patchOf_cases (e : Result.t) (n : AccessibilityResult.t) (now : Z) :
  (patchFields e n = [] /\ patchOf e n now = [])
  \/ (patchFields e n <> []
      /\ patchOf e n now = [mkPatch (Result.id e) (patchFields e n) now]).
Proof.
  unfold patchOf. destruct (patchFields e n); [now left | now right].
Qed.

(** C1 (amended): when no two stored rows are the same finding, no
    two fresh results are, and findings of different identity have
    different key strings (as they do when no url, message or element
    holds a bar), the reconciliation computes the diff of the
    specification: [toAdd] is the fresh results that match no stored
    row, [toRemove] the ids of the stored rows that match no fresh
    result, and [toUpdate] has, for each stored row that matches a
    fresh result and whose rewritable properties are not all equal,
    one patch listing exactly the properties whose values differ, each
    with the fresh value.  Findings match when their identity tuples
    (url, message, element-or-empty, severity) agree.  Values are
    compared as JavaScript values: tags in order, details by structure
    with the properties of an object in order, and [undefined] apart
    from [null]. *)
Theorem reconciliation_computes_the_diff
    (R1 : list Result.t) (R2 : list AccessibilityResult.t) (now : Z) :
  distinctFindings R1 -> distinctFindings R2 -> faithfulKeys R1 R2 ->
  let d := computeDiff R1 R2 now in
  d = diff_spec R1 R2 now
  /\ toAdd d = filter (fun n => negb (matched n R1)) R2
  /\ toRemove d = map Result.id (filter (fun e => negb (matched e R2)) R1)
  /\ toUpdate d
     = flat_map (fun e =>
                   match find (sameFinding e) R2 with
                   | Some n =>
                       match patchFields e n with
                       | [] => []
                       | fields => [mkPatch (Result.id e) fields now]
                       end
                   | None => []
                   end) R1
  /\ (forall (e : Result.t) (n : AccessibilityResult.t),
        sameFinding e n = true <-> identity e = identity n)
  /\ (forall e n f v,
        In (f, v) (patchFields e n)
        <-> Result.get e f <> AccessibilityResult.get n f
            /\ v = AccessibilityResult.get n f)
  /\ (forall e n,
        patchFields e n = []
        <-> forall f, Result.get e f = AccessibilityResult.get n f).
Proof.
  intros D1 D2 (F1 & F2 & F12) d. subst d.
  rewrite computeDiff_distinct by (apply distinct_faithful; assumption).
  rewrite diff_keyed_spec by assumption.
  split; [reflexivity|]. split; [reflexivity|]. split; [reflexivity|].
  split; [reflexivity|]. split; [intros; apply sameFinding_iff|].
  split; [intros; apply patchFields_in | intros; apply patchFields_nil].
Qed.

(** C10: findings of one identity tuple have one key, and the diff is
    that of the two lists in which, for each key, only the last
    occurrence is kept; so at most one fresh result per key (hence per
    identity tuple) is inserted, each inserted result and the source
    of each patch is the last fresh result of its key, and only the
    last stored row of a key is removed or patched. *)
Theorem duplicate_keys_keep_the_last
    (R1 : list Result.t) (R2 : list AccessibilityResult.t) (now : Z) :
  let d := computeDiff R1 R2 now in
  (forall a b : AccessibilityResult.t,
     identity a = identity b -> createKey a = createKey b)
  /\ (forall a b : Result.t,
        identity a = identity b -> createKey a = createKey b)
  /\ d = computeDiff (lastOnly R1) (lastOnly R2) now
  /\ (forall n, In n (lastOnly R2) <-> lastOccurrence n R2)
  /\ (forall e, In e (lastOnly R1) <-> lastOccurrence e R1)
  /\ distinctKeys (lastOnly R2)
  /\ distinctKeys (lastOnly R1)
  /\ toAdd d = filter (fun n => negb (keyMatched n R1)) (lastOnly R2)
  /\ distinctKeys (toAdd d)
  /\ distinctFindings (toAdd d)
  /\ (forall n, In n (toAdd d) -> lastOccurrence n R2)
  /\ (forall i, In i (toRemove d) ->
        exists e, lastOccurrence e R1 /\ i = Result.id e)
  /\ (forall p, In p (toUpdate d) ->
        exists e n, lastOccurrence e R1 /\ lastOccurrence n R2
                    /\ createKey e = createKey n
                    /\ patch_id p = Result.id e
                    /\ updates p = patchFields e n).
Proof.
  intros d. subst d.
  split; [intros a b; apply createKey_identity|].
  split; [intros a b; apply createKey_identity|].
  split.
  { rewrite (computeDiff_distinct (lastOnly R1) (lastOnly R2))
      by apply lastOnly_distinct.
    apply computeDiff_lastOnly. }
  rewrite computeDiff_lastOnly.
  split; [apply lastOnly_iff|]. split; [apply lastOnly_iff|].
  split; [apply lastOnly_distinct|]. split; [apply lastOnly_distinct|].
  simpl. unfold toAdd_keyed, toRemove_keyed, toUpdate_keyed.
  split.
  { apply filter_ext. intros n. now rewrite keyMatched_lastOnly. }
  split; [apply distinct_after_filter, lastOnly_distinct|].
  split.
  { apply (distinct_through createKey); [intros a b; apply createKey_identity|].
    apply distinct_after_filter, lastOnly_distinct. }
  split.
  { intros n I. apply filter_In in I as [I _]. now apply lastOnly_iff. }
  split.
  { intros i I. apply in_map_iff in I as (e & <- & I).
    apply filter_In in I as [I _]. exists e. split; [now apply lastOnly_iff | reflexivity]. }
  intros p I. apply in_flat_map in I as (e & Ie & I).
  destruct (find (sameKey e) (lastOnly R2)) as [n|] eqn:F; [|destruct I].
  apply find_some in F as [In_ K]. apply sameKey_iff in K.
  exists e, n. rewrite <- !lastOnly_iff.
  destruct (patchOf_cases e n now) as [[_ P]|[_ P]]; rewrite P in I; [destruct I|].
  destruct I as [<-|[]]. simpl. auto.
Qed.

(** ** Running computations *)

Lemma bind_inr {A B : Type} (c : M A) (k : A -> M B) w b w' :
  bind c k w = (inr b, w') ->
  exists a w1, c w = (inr a, w1) /\ k a w1 = (inr b, w').
Proof.
  unfold bind. destruct (c w) as [[e|a] w1]; [discriminate|]. eauto.
Qed.

Lemma bind_inl {A B : Type} (c : M A) (k : A -> M B) w e w' :
  bind c k w = (inl e, w') ->
  c w = (inl e, w') \/ exists a w1, c w = (inr a, w1) /\ k a w1 = (inl e, w').
Proof.
  unfold bind. destruct (c w) as [[e1|a] w1]; [intros [= -> ->]; now left|].
  right. eauto.
Qed.

Section Preserves.
Context {X : Type} (f : World -> X).

Lemma preserves_ret {A : Type} (a : A) : preserves f (ret a).
Proof. now intros w. Qed.

Lemma preserves_throw {A : Type} (e : exn) : preserves f (@throw A e).
Proof. now intros w. Qed.

Lemma preserves_bind {A B : Type} (c : M A) (k : A -> M B) :
  preserves f c -> (forall a, preserves f (k a)) -> preserves f (bind c k).
Proof.
  intros Hc Hk w. unfold bind. specialize (Hc w).
  destruct (c w) as [[e|a] w1]; simpl in *; [assumption|].
  now rewrite Hk.
Qed.

Lemma preserves_try_catch {A : Type} (c : M A) (h : exn -> M A) :
  preserves f c -> (forall e, preserves f (h e)) -> preserves f (try_catch c h).
Proof.
  intros Hc Hh w. unfold try_catch. specialize (Hc w).
  destruct (c w) as [[e|a] w1]; simpl in *; [|assumption].
  now rewrite Hh.
Qed.

Lemma preserves_when (b : bool) (c : M unit) :
  preserves f c -> preserves f (when b c).
Proof. destruct b; simpl; [trivial | intros _; apply preserves_ret]. Qed.

Lemma preserves_forEach {A : Type} (l : list A) (body : A -> M unit) :
  (forall x, preserves f (body x)) -> preserves f (forEach l body).
Proof.
  intros Hb. induction l as [|x l IH]; simpl; [apply preserves_ret|].
  apply preserves_bind; auto.
Qed.

Lemma preserves_lift {A : Type} (r : exn + A) : preserves f (lift r).
Proof. destruct r; [apply preserves_throw | apply preserves_ret]. Qed.
End Preserves.

(** A call changes nothing but the coming outcomes of its model. *)
Lemma call_static (m : Model) (w : World) :
  tables (snd (call m w)) = tables w
  /\ clock (snd (call m w)) = clock w
  /\ counter (snd (call m w)) = counter w.
Proof.
  unfold call. destruct (faults m w) as [|[e|] rest]; destruct m; simpl; auto.
Qed.

Lemma call_inr (m : Model) (w w' : World) (u : unit) :
  call m w = (inr u, w') ->
  results w' = results w /\ scans w' = scans w
  /\ clock w' = clock w /\ counter w' = counter w.
Proof.
  intros E. destruct (call_static m w) as (T & C & N). rewrite E in *. simpl in *.
  unfold tables in T. injection T as _ _ S R. auto.
Qed.

Lemma call_scanSide (m : Model) :
  m = ResultModel \/ m = Transaction -> preserves scanSide (call m).
Proof.
  intros [-> | ->] w; unfold call, scanSide; simpl;
    [destruct (resultFaults w) as [|[e|] rest]
    | destruct (transactionFaults w) as [|[e|] rest]]; reflexivity.
Qed.

Lemma new_Date_preserves {X : Type} (f : World -> X) : preserves f new_Date.
Proof. now intros w. Qed.

Lemma cuid_scanSide : preserves scanSide cuid.
Proof. now intros w. Qed.

Lemma newRows_scanSide (data : list ResultCreateInput.t) :
  preserves scanSide (newRows data).
Proof.
  induction data as [|d data IH]; simpl; [apply preserves_ret|].
  apply preserves_bind; [apply cuid_scanSide|]. intros newId.
  apply preserves_bind; [apply new_Date_preserves|]. intros now.
  destruct (newRow newId now d); [|apply preserves_throw].
  apply preserves_bind; [assumption|]. intros rows. apply preserves_ret.
Qed.

Lemma result_findMany_scanSide scanId : preserves scanSide (result_findMany scanId).
Proof.
  apply preserves_bind; [apply call_scanSide; now left|]. now intros _ w.
Qed.

Lemma result_deleteMany_scanSide ids : preserves scanSide (result_deleteMany ids).
Proof.
  apply preserves_bind; [apply call_scanSide; now left|]. now intros _ w.
Qed.

Lemma result_createMany_scanSide data : preserves scanSide (result_createMany data).
Proof.
  apply preserves_bind; [apply call_scanSide; now left|]. intros _.
  apply preserves_bind; [apply newRows_scanSide|]. now intros rows w.
Qed.

Lemma result_update_scanSide id data t : preserves scanSide (result_update id data t).
Proof.
  apply preserves_bind; [apply call_scanSide; now left|]. intros _ w.
  destruct (existsb _ (results w)); [|reflexivity].
  destruct (updateRow id data t (results w)); reflexivity.
Qed.

Lemma applyDiff_scanSide scanId d : preserves scanSide (applyDiff scanId d).
Proof.
  unfold applyDiff.
  apply preserves_bind; [apply preserves_when, result_deleteMany_scanSide|]. intros _.
  apply preserves_bind; [apply preserves_when, result_createMany_scanSide|]. intros _.
  apply preserves_forEach. intros u. apply result_update_scanSide.
Qed.

Lemma transaction_scanSide {A : Type} (body : M A) :
  preserves scanSide body -> preserves scanSide (transaction body).
Proof.
  intros Hb w. unfold transaction.
  assert (P : preserves scanSide (call Transaction ;;; a <- body ;; call Transaction ;;; ret a)).
  { apply preserves_bind; [apply call_scanSide; now right|]. intros _.
    apply preserves_bind; [assumption|]. intros a.
    apply preserves_bind; [apply call_scanSide; now right|]. intros _.
    apply preserves_ret. }
  specialize (P w).
  destruct ((call Transaction ;;; a <- body ;; call Transaction ;;; ret a) w)
    as [[e|a] w1]; simpl in *; [|assumption].
  unfold scanSide in *. simpl. injection P as _ _ _ C S Pf. congruence.
Qed.

Lemma handleRescanDiff_scanSide scanId newResults :
  preserves scanSide (handleRescanDiff scanId newResults).
Proof.
  unfold handleRescanDiff.
  apply preserves_try_catch; [|intros e; apply preserves_throw].
  apply preserves_bind; [apply result_findMany_scanSide|]. intros existing.
  apply preserves_bind; [apply new_Date_preserves|]. intros now.
  apply transaction_scanSide, applyDiff_scanSide.
Qed.

(** ** What the calls on [Result] return *)

Lemma newRows_run (data : list ResultCreateInput.t) (w w' : World) rows :
  newRows data w = (inr rows, w') ->
  buildRows (counter w) (clock w) data = Some rows
  /\ results w' = results w /\ clock w' = clock w.
Proof.
  revert w w' rows. induction data as [|d data IH]; intros w w' rows; simpl.
  - intros [= <- <-]. auto.
  - unfold bind at 1. simpl. unfold bind at 1. simpl.
    destruct (newRow (cuid_of (counter w)) (clock w) d) as [r|]; [|discriminate].
    intros E. apply bind_inr in E as (rows' & w1 & E & R).
    injection R as <- <-. apply IH in E as (B & R & C). simpl in *.
    rewrite B. auto.
Qed.

Lemma result_createMany_run data (w w' : World) u :
  result_createMany data w = (inr u, w') ->
  exists rows, buildRows (counter w) (clock w) data = Some rows
               /\ results w' = (results w ++ rows)%list /\ clock w' = clock w.
Proof.
  intros E. apply bind_inr in E as (u1 & w1 & C & E).
  apply call_inr in C as (R1 & _ & C1 & N1).
  apply bind_inr in E as (rows & w2 & E & F).
  apply newRows_run in E as (B & R2 & C2). injection F as _ <-.
  exists rows. simpl. rewrite R2, R1, C2, C1. rewrite N1, C1 in B. auto.
Qed.

Lemma result_deleteMany_run ids (w w' : World) u :
  result_deleteMany ids w = (inr u, w') ->
  results w' = filter (fun r => negb (id_in ids r)) (results w)
  /\ clock w' = clock w /\ counter w' = counter w.
Proof.
  intros E. apply bind_inr in E as (u1 & w1 & C & E).
  apply call_inr in C as (R1 & _ & C1 & N1). injection E as _ <-. simpl.
  rewrite R1. auto.
Qed.

Lemma result_update_run id data t (w w' : World) u :
  result_update id data t w = (inr u, w') ->
  existsb (fun r => String.eqb (Result.id r) id) (results w) = true
  /\ updateRow id data t (results w) = Some (results w').
Proof.
  intros E. apply bind_inr in E as (u1 & w1 & C & E).
  apply call_inr in C as (R1 & _). rewrite <- R1.
  destruct (existsb _ (results w1)); [|discriminate].
  destruct (updateRow id data t (results w1)) as [rows|]; [|discriminate].
  injection E as _ <-. auto.
Qed.

Lemma forEach_update_run (ps : list Patch) (w w' : World) u :
  forEach ps (fun p => result_update (patch_id p) (updates p) (updatedAt p)) w
  = (inr u, w') ->
  applyPatches ps (results w) = Some (results w').
Proof.
  revert w. induction ps as [|p ps IH]; intros w; simpl.
  - now intros [= _ <-].
  - intros E. apply bind_inr in E as (u1 & w1 & U & E).
    apply result_update_run in U as (X & U). rewrite X, U. now apply IH.
Qed.

Lemma filter_none_removed (rows : list Result.t) :
  filter (fun r => negb (id_in [] r)) rows = rows.
Proof.
  induction rows as [|r rows IH]; [reflexivity|].
  change (r :: filter (fun r => negb (id_in [] r)) rows = r :: rows).
  now rewrite IH.
Qed.

Lemma applyDiff_run scanId (d : Diff) (w w' : World) u :
  applyDiff scanId d w = (inr u, w') ->
  commit scanId d (counter w) (clock w) (results w) = Some (results w').
Proof.
  unfold applyDiff, commit. intros E.
  apply bind_inr in E as (u1 & w1 & D & E).
  apply bind_inr in E as (u2 & w2 & C & E).
  apply forEach_update_run in E.
  assert (D' : results w1 = filter (fun r => negb (id_in (toRemove d) r)) (results w)
               /\ clock w1 = clock w /\ counter w1 = counter w).
  { destruct (toRemove d) as [|i ids]; simpl in D.
    - injection D as _ <-. now rewrite filter_none_removed.
    - now apply result_deleteMany_run in D. }
  destruct D' as (R1 & C1 & N1).
  assert (C' : exists rows,
             buildRows (counter w) (clock w) (map (createData scanId) (toAdd d)) = Some rows
             /\ results w2 = (results w1 ++ rows)%list).
  { destruct (toAdd d) as [|a l]; simpl in C.
    - injection C as _ <-. exists []. now rewrite app_nil_r.
    - apply result_createMany_run in C as (rows & B & R & _).
      exists rows. rewrite <- N1, <- C1. auto. }
  destruct C' as (rows & B & R2). rewrite B, <- R1, <- R2. exact E.
Qed.

Lemma transaction_run {A : Type} (body : M A) (w w' : World) r :
  transaction body w = (r, w') ->
  match r with
  | inl _ => tables w' = tables w
  | inr a =>
      exists w1 w2, body w1 = (inr a, w2)
                    /\ results w1 = results w /\ clock w1 = clock w
                    /\ counter w1 = counter w /\ results w' = results w2
  end.
Proof.
  unfold transaction.
  destruct ((call Transaction ;;; a <- body ;; call Transaction ;;; ret a) w)
    as [[e|a] w3] eqn:E; intros [= <- <-]; [reflexivity|].
  apply bind_inr in E as (u1 & w1 & C1 & E).
  apply bind_inr in E as (a' & w2 & B & E).
  apply bind_inr in E as (u2 & w4 & C2 & E). injection E as <- <-.
  apply call_inr in C1 as (R1 & _ & K1 & N1).
  apply call_inr in C2 as (R2 & _).
  exists w1, w2. auto.
Qed.

Lemma handleRescanDiff_run scanId newResults (w w' : World) r :
  handleRescanDiff scanId newResults w = (r, w') ->
  match r with
  | inl _ => tables w' = tables w
  | inr _ =>
      commit scanId
        (computeDiff (filter (fun x => String.eqb (Result.scanId x) scanId) (results w))
                     newResults (clock w))
        (counter w) (clock w) (results w) = Some (results w')
  end.
Proof.
  unfold handleRescanDiff, try_catch.
  destruct ((existingResults <- result_findMany scanId ;;
             now <- new_Date ;;
             transaction (applyDiff scanId (computeDiff existingResults newResults now))) w)
    as [[e|u] w1] eqn:E.
  - unfold throw. intros [= <- <-].
    apply bind_inl in E as [E | (existing & w2 & F & E)].
    + unfold result_findMany in E.
      apply bind_inl in E as [E | (u & w2 & _ & E)]; [|discriminate].
      destruct (call_static ResultModel w) as (T & _). now rewrite E in T.
    + apply bind_inr in F as (u & w3 & C & F). injection F as <- <-.
      destruct (call_static ResultModel w) as (T & _). rewrite C in T. simpl in T.
      unfold bind in E. simpl in E.
      apply transaction_run in E. congruence.
  - intros [= <- <-].
    apply bind_inr in E as (existing & w2 & F & E).
    apply bind_inr in F as (u' & w3 & C & F). injection F as <- <-.
    apply call_inr in C as (R & _ & K & N).
    unfold bind in E. simpl in E.
    apply transaction_run in E as (w4 & w5 & B & R4 & K4 & N4 & R5).
    apply applyDiff_run in B. rewrite R4, K4, N4, R, K, N in B.
    rewrite R5. exact B.
Qed.

(** ** Rows under assignment *)

Lemma string_items_map (items : list json) (l : list string) :
  string_items items = Some l -> map Str l = items.
Proof.
  revert l. induction items as [|j items IH]; intros l; simpl.
  - now intros [= <-].
  - destruct j; try discriminate. destruct (string_items items) as [l'|]; [|discriminate].
    intros [= <-]. simpl. now rewrite IH.
Qed.

Lemma sameIdentity_refl (e : Result.t) : sameIdentity e e.
Proof. unfold sameIdentity. tauto. Qed.

Lemma sameIdentity_trans (a b c : Result.t) :
  sameIdentity a b -> sameIdentity b c -> sameIdentity a c.
Proof. unfold sameIdentity. intuition congruence. Qed.

Lemma assignField_spec (f : Field.t) (v : value) (r r' : Result.t) :
  assignField f v r = Some r' ->
  sameIdentity r r'
  /\ (forall g, g <> f -> Result.get r' g = Result.get r g)
  /\ match v with
     | None => r' = r
     | Some j => Result.get r' f = Some j
     end.
Proof.
  destruct v as [j|]; simpl; [|intros [= <-]; auto using sameIdentity_refl].
  destruct f; simpl.
  - destruct j; simpl; try discriminate; intros [= <-];
      (split; [unfold sameIdentity; simpl; tauto|]); (split; [|reflexivity]);
      intros [] N; try reflexivity; congruence.
  - destruct j; simpl; try discriminate; intros [= <-];
      (split; [unfold sameIdentity; simpl; tauto|]); (split; [|reflexivity]);
      intros [] N; try reflexivity; congruence.
  - destruct j; simpl; try discriminate.
    destruct (string_items items) as [l|] eqn:S; simpl; [|discriminate].
    intros [= <-]. split; [unfold sameIdentity; simpl; tauto|]. split.
    + intros [] N; try reflexivity; congruence.
    + simpl. now rewrite (string_items_map _ _ S).
  - destruct j; simpl; try discriminate; intros [= <-];
      (split; [unfold sameIdentity; simpl; tauto|]); (split; [|reflexivity]);
      intros [] N; try reflexivity; congruence.
  - intros [= <-]. split; [unfold sameIdentity; simpl; tauto|]. split; [|reflexivity].
    intros [] N; try reflexivity; congruence.
Qed.

Lemma assignFields_spec (us : Updates) (r r' : Result.t) :
  assignFields us r = Some r' ->
  sameIdentity r r'
  /\ forall g, Result.get r' g = Result.get r g
               \/ exists j, In (g, Some j) us /\ Result.get r' g = Some j.
Proof.
  revert r. induction us as [|[f v] us IH]; intros r; simpl.
  - intros [= <-]. split; [apply sameIdentity_refl | now left].
  - destruct (assignField f v r) as [r1|] eqn:A; [|discriminate].
    intros E. apply IH in E as (I2 & G2).
    apply assignField_spec in A as (I1 & G1 & V).
    split; [eapply sameIdentity_trans; eassumption|].
    intros g. destruct (G2 g) as [E|(j & I & E)].
    + destruct (Field.eqb g f) eqn:Q.
      * assert (g = f) by (destruct g, f; simpl in Q; congruence). subst g.
        destruct v as [j|]; [|subst r1; now left].
        right. exists j. split; [now left | congruence].
      * left. rewrite E. apply G1. intros ->. destruct f; discriminate.
    + right. exists j. split; [now right | assumption].
Qed.

Lemma touch_spec (t : Z) (r : Result.t) :
  sameIdentity r (touch t r) /\ forall g, Result.get (touch t r) g = Result.get r g.
Proof. split; [unfold sameIdentity; simpl; tauto | intros []; reflexivity]. Qed.

Lemma updateRow_split (i : string) (data : Updates) (t : Z)
    (rows rows' : list Result.t) :
  updateRow i data t rows = Some rows' ->
  forall pre e post,
    rows = (pre ++ e :: post)%list ->
    (forall x, In x pre -> Result.id x <> Result.id e) ->
    exists pre' e' post',
      rows' = (pre' ++ e' :: post')%list
      /\ map Result.id pre' = map Result.id pre
      /\ if String.eqb (Result.id e) i
         then exists e0, assignFields data e = Some e0 /\ e' = touch t e0
         else e' = e.
Proof.
  revert rows'. induction rows as [|r rest IH]; intros rows' U pre e post S N.
  - destruct pre; discriminate.
  - simpl in U. destruct (String.eqb_spec (Result.id r) i) as [Q|Q].
    + destruct (assignFields data r) as [r0|] eqn:A; [|discriminate].
      injection U as <-. destruct pre as [|x pre]; simpl in S; injection S as -> ->.
      * exists [], (touch t r0), post. rewrite Q, String.eqb_refl. eauto.
      * exists (touch t r0 :: pre), e, post. split; [reflexivity|]. split.
        -- simpl. f_equal. apply assignFields_spec in A as ((I & _) & _).
           exact I.
        -- destruct (String.eqb_spec (Result.id e) i) as [Q'|]; [|reflexivity].
           exfalso. apply (N x); [now left | congruence].
    + destruct (updateRow i data t rest) as [rest'|] eqn:R; [|discriminate].
      injection U as <-. destruct pre as [|x pre]; simpl in S; injection S as -> ->.
      * exists [], e, rest'. split; [reflexivity|]. split; [reflexivity|].
        destruct (String.eqb_spec (Result.id e) i); [contradiction | reflexivity].
      * destruct (IH _ eq_refl pre e post eq_refl) as (pre' & e' & post' & -> & M & C).
        { intros y I. apply N. now right. }
        exists (x :: pre'), e', post'. split; [reflexivity|]. split; [|exact C].
        simpl. now rewrite M.
Qed.

Lemma ids_differ (pre pre' : list Result.t) (e : Result.t) :
  map Result.id pre' = map Result.id pre ->
  (forall x, In x pre -> Result.id x <> Result.id e) ->
  forall x, In x pre' -> Result.id x <> Result.id e.
Proof.
  intros M N x I E. apply (in_map Result.id) in I. rewrite M in I.
  apply in_map_iff in I as (y & Ey & Iy). apply (N y Iy). congruence.
Qed.

Lemma applyPatches_tracked (ps : list Patch) (e : Result.t)
    (n : AccessibilityResult.t) :
  (forall p, In p ps -> patch_id p = Result.id e -> updates p = patchFields e n) ->
  forall rows rows',
    applyPatches ps rows = Some rows' -> tracked e n rows -> tracked e n rows'.
Proof.
  induction ps as [|p ps IH]; intros P rows rows'; simpl.
  - now intros [= <-].
  - destruct (existsb _ rows); [|discriminate].
    destruct (updateRow (patch_id p) (updates p) (updatedAt p) rows) as [rows1|] eqn:U;
      [|discriminate].
    intros A (pre & e' & post & -> & N & (I & G)).
    apply (IH (fun q Iq => P q (or_intror Iq)) _ _ A).
    destruct (updateRow_split _ _ _ _ _ U pre e' post eq_refl) as (pre' & e'' & post' & -> & M & C).
    { intros x Ix. destruct I as (I & _). rewrite I. now apply N. }
    exists pre', e'', post'. split; [reflexivity|].
    split; [eapply ids_differ; eassumption|].
    destruct (String.eqb_spec (Result.id e') (patch_id p)) as [Q|Q];
      [|subst e''; now split].
    destruct C as (e0 & A0 & ->).
    assert (Up : updates p = patchFields e n).
    { apply P; [now left|]. destruct I as (I & _). congruence. }
    rewrite Up in A0. apply assignFields_spec in A0 as (I0 & G0).
    destruct (touch_spec (updatedAt p) e0) as (I1 & G1).
    split.
    + eapply sameIdentity_trans; [exact I|]. eapply sameIdentity_trans; eassumption.
    + intros f. rewrite G1. destruct (G0 f) as [E|(j & Ij & E)].
      * rewrite E. apply G.
      * right. apply patchFields_in in Ij as (D & V). split; [assumption | congruence].
Qed.

Lemma lastOnly_incl {A : Type} `{Finding A} (l : list A) (r : A) :
  In r (lastOnly l) -> In r l.
Proof.
  intros I. apply lastOnly_iff in I as (before & after & -> & _).
  apply in_or_app. right. now left.
Qed.

Lemma NoDup_map_eq {A B : Type} (f : A -> B) (l : list A) (a b : A) :
  NoDup (map f l) -> In a l -> In b l -> f a = f b -> a = b.
Proof.
  induction l as [|x l IH]; simpl; [tauto|].
  intros N Ia Ib E. inversion N as [|? ? N1 N2]; subst.
  destruct Ia as [->|Ia], Ib as [->|Ib]; auto.
  - exfalso. apply N1. rewrite E. now apply in_map.
  - exfalso. apply N1. rewrite <- E. now apply in_map.
Qed.

Lemma existsb_find {A : Type} (p : A -> bool) (l : list A) :
  existsb p l = true -> exists x, find p l = Some x.
Proof.
  induction l as [|a l IH]; simpl; [discriminate|].
  destruct (p a); [eauto | exact IH].
Qed.

Lemma tracked_start (rows : list Result.t) (e : Result.t)
    (n : AccessibilityResult.t) (ids : list string) (added : list Result.t) :
  NoDup (map Result.id rows) -> In e rows -> id_in ids e = false ->
  tracked e n (filter (fun r => negb (id_in ids r)) rows ++ added).
Proof.
  intros N I Q. apply in_split in I as (pre & post & ->).
  exists (filter (fun r => negb (id_in ids r)) pre), e,
    (filter (fun r => negb (id_in ids r)) post ++ added)%list.
  split.
  - rewrite filter_app. simpl. rewrite Q. simpl. now rewrite <- app_assoc.
  - split.
    + intros x Ix E. apply filter_In in Ix as [Ix _].
      rewrite map_app in N. simpl in N. apply NoDup_remove_2 in N.
      apply N. apply in_or_app. left. rewrite <- E. now apply in_map.
    + split; [apply sameIdentity_refl | now left].
Qed.

(** C6: ids being unique, a stored row of the scan that matches a
    fresh result (the identity tuples agree) is still stored after the
    reconciliation, committed or rolled back, with its id, scan, url,
    message, element, severity and creation time; each of help, impact,
    tags, elementPath and details is as it was, or differed from the
    value of the fresh result of its key and now has that value. *)
Theorem rescan_keeps_matched_rows (scanId : string)
    (newResults : list AccessibilityResult.t) (w w' : World)
    (r : exn + unit) (e : Result.t) :
  NoDup (map Result.id (results w)) ->
  handleRescanDiff scanId newResults w = (r, w') ->
  In e (results w) -> Result.scanId e = scanId -> matched e newResults = true ->
  exists n e',
    In n newResults /\ createKey e = createKey n /\ In e' (results w')
    /\ Result.id e' = Result.id e
    /\ Result.createdAt e' = Result.createdAt e
    /\ Result.scanId e' = Result.scanId e
    /\ Result.url e' = Result.url e
    /\ Result.message e' = Result.message e
    /\ Result.element e' = Result.element e
    /\ Result.severity e' = Result.severity e
    /\ forall f, Result.get e' f = Result.get e f
                 \/ (Result.get e f <> AccessibilityResult.get n f
                     /\ Result.get e' f = AccessibilityResult.get n f).
Proof.
  intros N H Ie S Mt. apply matched_keyMatched in Mt.
  rewrite <- keyMatched_lastOnly in Mt.
  apply existsb_find in Mt as (n & F).
  pose proof (find_some _ _ F) as (In_ & K).
  exists n.
  assert (T : tracked e n (results w')).
  { apply handleRescanDiff_run in H. destruct r as [err|u].
    - unfold tables in H. injection H as _ _ _ ->.
      apply in_split in Ie as (pre & post & E). rewrite E in *.
      exists pre, e, post. split; [reflexivity|]. split.
      + intros x Ix Q. rewrite map_app in N. simpl in N. apply NoDup_remove_2 in N.
        apply N. apply in_or_app. left. rewrite <- Q. now apply in_map.
      + split; [apply sameIdentity_refl | now left].
    - rewrite computeDiff_lastOnly in H. unfold commit in H. simpl in H.
      set (existing := filter (fun x => String.eqb (Result.scanId x) scanId) (results w)) in *.
      assert (Ex : In e existing).
      { apply filter_In. split; [assumption|]. now apply String.eqb_eq. }
      assert (Sub : forall x, In x (lastOnly existing) -> In x (results w)).
      { intros x Ix. apply lastOnly_incl in Ix. now apply filter_In in Ix as [Ix _]. }
      destruct (buildRows _ _ _) as [added|]; [|discriminate].
      eapply applyPatches_tracked; [|exact H|].
      + intros p Ip Q. unfold toUpdate_keyed in Ip.
        apply in_flat_map in Ip as (e2 & I2 & Ip).
        destruct (find (sameKey e2) (lastOnly newResults)) as [n2|] eqn:F2; [|destruct Ip].
        destruct (patchOf_cases e2 n2 (clock w)) as [[_ P2]|[_ P2]];
          rewrite P2 in Ip; [destruct Ip|].
        destruct Ip as [<-|[]]. simpl in *.
        assert (e2 = e) by (eapply NoDup_map_eq; eauto). subst e2.
        rewrite F in F2. injection F2 as <-. now symmetry.
      + apply tracked_start; [assumption | assumption |].
        apply not_true_is_false. intros Q. unfold id_in in Q.
        apply existsb_exists in Q as (i & Ii & Q). apply String.eqb_eq in Q.
        unfold toRemove_keyed in Ii. apply in_map_iff in Ii as (e2 & E2 & I2).
        apply filter_In in I2 as (I2 & M2).
        assert (e2 = e) by (eapply NoDup_map_eq; eauto; congruence). subst e2.
        unfold keyMatched in M2. rewrite (proj2 (existsb_exists _ _)) in M2; [discriminate|].
        exists n. split; assumption. }
  destruct T as (pre & e' & post & E & _ & (I & G)).
  exists e'. split; [now apply lastOnly_incl|].
  split; [now apply sameKey_iff|].
  split; [rewrite E; apply in_or_app; right; now left|].
  unfold sameIdentity in I. intuition.
Qed.

(** ** Reconciling twice *)








Lemma buildRows_rows (c : nat) (t : Z) (s : string)
    (adds : list AccessibilityResult.t) (added : list Result.t) :
  buildRows c t (map (createData s) adds) = Some added ->
  Forall2 (fun n row => exists i, newRow i t (createData s n) = Some row)
          adds added.
Proof.
  revert c added. induction adds as [|n adds IH]; intros c added; simpl.
  - intros [= <-]. constructor.
  - destruct (newRow (cuid_of c) t (createData s n)) as [row|] eqn:R; [|discriminate].
    destruct (buildRows (S c) t (map (createData s) adds)) as [rest|] eqn:B;
      [|discriminate].
    intros [= <-]. constructor; [eauto | eapply IH; eassumption].
Qed.

Lemma Forall2_left {X Y : Type} (R : X -> Y -> Prop) (l : list X) (l' : list Y)
    (x : X) :
  Forall2 R l l' -> In x l -> exists y, In y l' /\ R x y.
Proof.
  induction 1 as [|a b l l' Rab _ IH]; simpl; [tauto|].
  intros [<-|I]; [eauto|]. destruct (IH I) as (y & Iy & Rxy). eauto.
Qed.

Lemma Forall2_right {X Y : Type} (R : X -> Y -> Prop) (l : list X) (l' : list Y)
    (y : Y) :
  Forall2 R l l' -> In y l' -> exists x, In x l /\ R x y.
Proof.
  induction 1 as [|a b l l' Rab _ IH]; simpl; [tauto|].
  intros [<-|I]; [eauto|]. destruct (IH I) as (x & Ix & Rxy). eauto.
Qed.

Lemma Forall2_diag {X : Type} (R : X -> X -> Prop) (l : list X) :
  (forall x, In x l -> R x x) -> Forall2 R l l.
Proof.
  induction l as [|a l IH]; intros H; constructor.
  - apply H. now left.
  - apply IH. intros x I. apply H. now right.
Qed.

Lemma Forall2_chain {X Y Z : Type} (R : X -> Y -> Prop) (S : Y -> Z -> Prop)
    (T : X -> Z -> Prop) (l1 : list X) (l2 : list Y) (l3 : list Z) :
  (forall x y z, R x y -> S y z -> T x z) ->
  Forall2 R l1 l2 -> Forall2 S l2 l3 -> Forall2 T l1 l3.
Proof.
  intros H F. revert l3. induction F as [|a b l1 l2 Rab _ IH]; intros l3 G.
  - inversion G. constructor.
  - inversion G as [|b' c' l2' l3' Sbc G']; subst. constructor; eauto.
Qed.

(** *** One row under the patches *)

Lemma patchRow_identity (ps : list Patch) (r r' : Result.t) :
  patchRow ps r = Some r' -> sameIdentity r r'.
Proof.
  revert r. induction ps as [|p ps IH]; intros r; simpl.
  - intros [= <-]. apply sameIdentity_refl.
  - destruct (String.eqb (Result.id r) (patch_id p)); [|apply IH].
    destruct (assignFields (updates p) r) as [r0|] eqn:A; [|discriminate].
    intros E. apply IH in E. apply assignFields_spec in A as (I0 & _).
    destruct (touch_spec (updatedAt p) r0) as (I1 & _).
    eapply sameIdentity_trans; [exact I0|]. eapply sameIdentity_trans; eassumption.
Qed.


Lemma patchRow_skip (ps : list Patch) (r : Result.t) :
  (forall p, In p ps -> patch_id p <> Result.id r) -> patchRow ps r = Some r.
Proof.
  induction ps as [|p ps IH]; intros H; simpl; [reflexivity|].
  destruct (String.eqb_spec (Result.id r) (patch_id p)) as [Q|_].
  - exfalso. apply (H p); [now left | now symmetry].
  - apply IH. intros q I. apply H. now right.
Qed.

Lemma updateRow_ids (i : string) (d : Updates) (t : Z)
    (rows rows' : list Result.t) :
  updateRow i d t rows = Some rows' -> map Result.id rows' = map Result.id rows.
Proof.
  revert rows'. induction rows as [|r rows IH]; intros rows'; simpl.
  - now intros [= <-].
  - destruct (String.eqb (Result.id r) i).
    + destruct (assignFields d r) as [r0|] eqn:A; [|discriminate].
      intros [= <-]. simpl. f_equal.
      apply assignFields_spec in A as ((I & _) & _). exact I.
    + destruct (updateRow i d t rows) as [rest|]; [|discriminate].
      intros [= <-]. simpl. f_equal. now apply IH.
Qed.

Lemma existsb_ids (i : string) (l l' : list Result.t) :
  map Result.id l = map Result.id l' ->
  existsb (fun r => String.eqb (Result.id r) i) l
  = existsb (fun r => String.eqb (Result.id r) i) l'.
Proof.
  revert l'. induction l as [|a l IH]; intros [|b l']; simpl; try discriminate.
  - reflexivity.
  - intros [= -> E]. f_equal. now apply IH.
Qed.

Lemma updateRow_app (i : string) (d : Updates) (t : Z) (l1 l2 : list Result.t) :
  existsb (fun r => String.eqb (Result.id r) i) l1 = true ->
  updateRow i d t (l1 ++ l2)%list
  = option_map (fun l => (l ++ l2)%list) (updateRow i d t l1).
Proof.
  induction l1 as [|r l1 IH]; simpl; [discriminate|].
  destruct (String.eqb (Result.id r) i); simpl.
  - intros _. now destruct (assignFields d r).
  - intros X. rewrite (IH X). now destruct (updateRow i d t l1).
Qed.

Lemma applyPatches_app (ps : list Patch) (l1 l2 rows' : list Result.t) :
  (forall p, In p ps ->
     existsb (fun r => String.eqb (Result.id r) (patch_id p)) l1 = true) ->
  applyPatches ps (l1 ++ l2)%list = Some rows' ->
  exists l1', applyPatches ps l1 = Some l1' /\ rows' = (l1' ++ l2)%list.
Proof.
  revert l1. induction ps as [|p ps IH]; intros l1 Addr; simpl.
  - intros [= <-]. eauto.
  - rewrite (Addr p) by now left.
    destruct (existsb _ (l1 ++ l2)%list); [|discriminate].
    rewrite updateRow_app by (apply Addr; now left).
    destruct (updateRow (patch_id p) (updates p) (updatedAt p) l1) as [l1a|] eqn:U;
      [|discriminate].
    simpl. apply IH. intros q I.
    rewrite (existsb_ids _ l1a l1) by (eapply updateRow_ids; eassumption).
    apply Addr. now right.
Qed.

Lemma updateRow_each (p : Patch) (rows rows' : list Result.t) :
  NoDup (map Result.id rows) ->
  updateRow (patch_id p) (updates p) (updatedAt p) rows = Some rows' ->
  Forall2 (fun r r' => patchRow [p] r = Some r') rows rows'.
Proof.
  revert rows'. induction rows as [|r rows IH]; intros rows' N; cbn [updateRow].
  - intros [= <-]. constructor.
  - simpl in N. apply NoDup_cons_iff in N as [Fresh N].
    destruct (String.eqb_spec (Result.id r) (patch_id p)) as [Q|Q].
    + destruct (assignFields (updates p) r) as [r0|] eqn:A; [|discriminate].
      intros [= <-]. constructor.
      { simpl. rewrite (proj2 (String.eqb_eq _ _) Q), A. reflexivity. }
      apply Forall2_diag. intros x I. apply patchRow_skip.
      intros q [<-|[]] E. apply Fresh. rewrite Q, E. now apply in_map.
    + destruct (updateRow _ _ _ rows) as [rest|]; [|discriminate].
      intros [= <-]. constructor; [|now apply IH].
      simpl. now rewrite (proj2 (String.eqb_neq _ _) Q).
Qed.

(** The rows after the patches, ids being unique: each row under the
    patches addressed to it. *)
Lemma applyPatches_each (ps : list Patch) (rows rows' : list Result.t) :
  NoDup (map Result.id rows) -> applyPatches ps rows = Some rows' ->
  Forall2 (fun r r' => patchRow ps r = Some r') rows rows'.
Proof.
  revert rows. induction ps as [|p ps IH]; intros rows N; simpl.
  - intros [= <-]. now apply Forall2_diag.
  - destruct (existsb _ rows); [|discriminate].
    destruct (updateRow (patch_id p) (updates p) (updatedAt p) rows) as [rows1|] eqn:U;
      [|discriminate].
    intros A. pose proof (updateRow_ids _ _ _ _ _ U) as Ids.
    apply IH in A; [|now rewrite Ids].
    apply updateRow_each in U; [|exact N].
    refine (Forall2_chain _ _ _ _ _ _ _ U A).
    intros x y z. simpl.
    destruct (String.eqb (Result.id x) (patch_id p)).
    + destruct (assignFields (updates p) x); [|discriminate]. now intros [= <-].
    + now intros [= <-].
Qed.

Lemma patch_ids (R1 : list Result.t) (L2 : list AccessibilityResult.t) (t : Z)
    (p : Patch) :
  In p (toUpdate_keyed R1 L2 t) ->
  exists e n, In e R1 /\ find (sameKey e) L2 = Some n
              /\ p = mkPatch (Result.id e) (patchFields e n) t.
Proof.
  intros I. apply in_flat_map in I as (e & Ie & I).
  destruct (find (sameKey e) L2) as [n|] eqn:F; [|destruct I].
  destruct (patchOf_cases e n t) as [[_ P]|[_ P]]; rewrite P in I; [destruct I|].
  destruct I as [<-|[]]. eauto.
Qed.


Lemma filter_none {X : Type} (f : X -> bool) (l : list X) :
  (forall x, In x l -> f x = false) -> filter f l = [].
Proof.
  induction l as [|x l IH]; intros H; simpl; [reflexivity|].
  rewrite (H x) by now left. apply IH. intros y I. apply H. now right.
Qed.

Lemma flat_map_none {X Y : Type} (f : X -> list Y) (l : list X) :
  (forall x, In x l -> f x = []) -> flat_map f l = [].
Proof.
  induction l as [|x l IH]; intros H; simpl; [reflexivity|].
  rewrite (H x) by now left. apply IH. intros y I. apply H. now right.
Qed.

(** *** The committed rows against the same fresh list *)




(** ** Writing the scan row *)

Lemma updateScan_found (id : string) (data : Scan.UpdateInput) (now : Z)
    (rows : list Scan.t) (s : Scan.t) :
  find (fun x => String.eqb (Scan.id x) id) rows = Some s ->
  exists rows',
    updateScan id data now rows = Some (Scan.update data now s, rows')
    /\ find (fun x => String.eqb (Scan.id x) id) rows' = Some (Scan.update data now s).
Proof.
  induction rows as [|x rows IH]; simpl; [discriminate|].
  destruct (String.eqb (Scan.id x) id) eqn:Q.
  - intros [= ->]. eexists. split; [reflexivity|]. simpl. now rewrite Q.
  - intros F. destruct (IH F) as (rows' & U & F'). rewrite U.
    eexists. split; [reflexivity|]. simpl. now rewrite Q.
Qed.

Lemma scan_update_cases (id : string) (data : Scan.UpdateInput) (w : World)
    (s : Scan.t) :
  scanOf id w = Some s ->
  (exists w', scan_update id data w = (inr (Scan.update data (clock w) s), w')
              /\ scanOf id w' = Some (Scan.update data (clock w) s)
              /\ results w' = results w /\ clock w' = clock w
              /\ scanFaults w' = tl (scanFaults w) /\ writable w)
  \/ (exists e w', scan_update id data w = (inl e, w')
                   /\ scans w' = scans w /\ results w' = results w
                   /\ clock w' = clock w
                   /\ scanFaults w = Some e :: scanFaults w').
Proof.
  unfold scanOf, scan_update, writable. intros F.
  unfold bind, call, new_Date. simpl.
  destruct (scanFaults w) as [|[e|] rest] eqn:Q; simpl.
  - left. destruct (updateScan_found id data (clock w) _ _ F) as (rows' & U & F').
    rewrite U. eexists. split; [reflexivity|]. simpl. rewrite Q. auto.
  - right. exists e. eexists. split; [reflexivity|]. simpl. auto.
  - left. destruct (updateScan_found id data (clock w) _ _ F) as (rows' & U & F').
    rewrite U. eexists. split; [reflexivity|]. simpl. auto.
Qed.

Lemma scan_update_writable (id : string) (data : Scan.UpdateInput) (w : World)
    (s : Scan.t) :
  scanOf id w = Some s -> writable w ->
  exists w', scan_update id data w = (inr (Scan.update data (clock w) s), w')
             /\ scanOf id w' = Some (Scan.update data (clock w) s)
             /\ results w' = results w /\ clock w' = clock w.
Proof.
  intros F W. destruct (scan_update_cases id data w s F)
    as [(w' & U & F' & R & C & _) | (e & w' & _ & _ & _ & _ & Q)]; [eauto|].
  unfold writable in W. now rewrite Q in W.
Qed.

(** ** The background task *)

Section Orchestrator.
Variable simpleAnalyze : string -> ComplianceOptions -> exn + AnalysisResult.
Variable playwrightAnalyze : string -> PlaywrightOptions -> exn + AnalysisResult.
Variable htmlAnalyze : string -> ComplianceOptions -> exn + AnalysisResult.

Local Abbreviation analyze' := (analyze simpleAnalyze playwrightAnalyze htmlAnalyze).
Local Abbreviation processScan' :=
  (processScan simpleAnalyze playwrightAnalyze htmlAnalyze).
Local Abbreviation background' :=
  (background simpleAnalyze playwrightAnalyze htmlAnalyze).

(** The [if (isRescan)] of lines 124-150. *)
Local Abbreviation persist scanId isRescan ar :=
  (if isRescan : bool then handleRescanDiff scanId (analysis_results ar)
   else when (Nat.ltb 0 (length (analysis_results ar)))
             (result_createMany (map (createData scanId) (analysis_results ar)))).

(** The [catch] block of [processScan]. *)
Local Abbreviation onError scanId :=
  (fun error : exn =>
     now <- new_Date ;;
     scan_update scanId (failedData now error) ;;; (throw error : M unit)).

(** The [.catch] of the caller. *)
Local Abbreviation lastResort scanId :=
  (fun error : exn =>
     try_catch (now <- new_Date ;;
                scan_update scanId (failedData now error) ;;; ret tt)
               (fun _ => ret tt)).

Lemma processScan_steps scanId url opts isRescan (w : World) :
  processScan' scanId url opts isRescan w
  = match analyze' url opts with
    | inl e => onError scanId e w
    | inr found =>
        match persist scanId isRescan (fst found) w with
        | (inl e, w1) => onError scanId e w1
        | (inr _, w1) =>
            match scan_update scanId
                    (completedData (clock w1) (summary (fst found)) (snd found)) w1 with
            | (inl e, w2) => onError scanId e w2
            | (inr _, w2) => (inr tt, w2)
            end
        end
    end.
Proof.
  unfold processScan, try_catch. unfold bind at 1.
  destruct (analyze' url opts) as [e|found]; simpl; [reflexivity|].
  unfold bind at 1.
  destruct (persist scanId isRescan (fst found) w) as [[e|u] w1]; [reflexivity|].
  unfold bind at 1. unfold new_Date at 1. unfold bind at 1.
  destruct (scan_update scanId _ w1) as [[e|s] w2]; reflexivity.
Qed.

Lemma persist_scanSide scanId isRescan ar :
  preserves scanSide (persist scanId isRescan ar).
Proof.
  destruct isRescan; [apply handleRescanDiff_scanSide|].
  apply preserves_when, result_createMany_scanSide.
Qed.

Lemma persist_keeps scanId isRescan ar (w w1 : World) r :
  persist scanId isRescan ar w = (r, w1) ->
  scans w1 = scans w /\ scanFaults w1 = scanFaults w /\ clock w1 = clock w.
Proof.
  intros E. pose proof (persist_scanSide scanId isRescan ar w) as P.
  rewrite E in P. unfold scanSide in P. simpl in P.
  injection P as _ _ S C F _. auto.
Qed.

Lemma onError_cases scanId (e : exn) (w : World) (s : Scan.t) :
  scanOf scanId w = Some s ->
  (writable w
   /\ exists w', onError scanId e w = (inl e, w')
                 /\ scanOf scanId w'
                    = Some (Scan.update (failedData (clock w) e) (clock w) s)
                 /\ results w' = results w
                 /\ scanFaults w' = tl (scanFaults w))
  \/ (exists e' w', onError scanId e w = (inl e', w')
                    /\ scans w' = scans w /\ results w' = results w
                    /\ scanFaults w = Some e' :: scanFaults w').
Proof.
  intros F.
  destruct (scan_update_cases scanId (failedData (clock w) e) w s F)
    as [(w' & U & F' & R & C & Q & W) | (e' & w' & U & S & R & C & Q)].
  - left. split; [assumption|]. exists w'.
    unfold bind, new_Date, throw. simpl. rewrite U. auto.
  - right. exists e', w'.
    unfold bind, new_Date, throw. simpl. rewrite U. auto.
Qed.

Lemma lastResort_cases scanId (e : exn) (w : World) (s : Scan.t) :
  scanOf scanId w = Some s ->
  exists w', lastResort scanId e w = (inr tt, w')
             /\ results w' = results w
             /\ ((writable w
                  /\ scanOf scanId w'
                     = Some (Scan.update (failedData (clock w) e) (clock w) s))
                 \/ (scans w' = scans w /\ ~ writable w)).
Proof.
  intros F.
  destruct (scan_update_cases scanId (failedData (clock w) e) w s F)
    as [(w' & U & F' & R & C & Q & W) | (e' & w' & U & S & R & C & Q)];
    exists w'; unfold try_catch, bind, new_Date, ret; simpl; rewrite U;
    (split; [reflexivity|]); (split; [assumption|]); [now left | right].
  split; [assumption|]. unfold writable. now rewrite Q.
Qed.

Lemma status_failed (now : Z) (e : exn) (s : Scan.t) :
  Scan.status (Scan.update (failedData now e) now s) = "failed"
  /\ Scan.error (Scan.update (failedData now e) now s) = Some (message_of e).
Proof. split; reflexivity. Qed.

Lemma terminal_kept scanId (w w' : World) :
  scans w' = scans w -> terminal scanId w -> terminal scanId w'.
Proof. unfold terminal, scanOf. now intros ->. Qed.

(** The [catch] block, then the caller's [.catch], leave the scan
    failed as soon as one of their two writes goes through. *)
Lemma recover scanId (e : exn) (w : World) (s : Scan.t) :
  scanOf scanId w = Some s -> writableTwice w ->
  exists e1 w1 w2,
    onError scanId e w = (inl e1, w1)
    /\ lastResort scanId e1 w1 = (inr tt, w2)
    /\ terminal scanId w2.
Proof.
  intros F W.
  destruct (onError_cases scanId e w s F)
    as [(_ & w1 & O & F1 & _) | (e' & w1 & O & S & _ & Q)].
  - destruct (lastResort_cases scanId e w1 _ F1) as (w2 & L & _ & [(_ & F2) | (S2 & _)]).
    + exists e, w1, w2. repeat split; try assumption.
      eexists. split; [exact F2|]. right. reflexivity.
    + exists e, w1, w2. repeat split; try assumption.
      apply (terminal_kept _ w1); [assumption|].
      eexists. split; [exact F1|]. right. reflexivity.
  - assert (F1 : scanOf scanId w1 = Some s) by (unfold scanOf in *; now rewrite S).
    assert (W1 : writable w1).
    { unfold writableTwice in W. unfold writable. rewrite Q in W.
      destruct (scanFaults w1) as [|[x|] l]; auto. }
    destruct (lastResort_cases scanId e' w1 _ F1) as (w2 & L & _ & [(_ & F2) | (_ & N)]);
      [|contradiction].
    exists e', w1, w2. repeat split; try assumption.
    eexists. split; [exact F2|]. right. reflexivity.
Qed.

Lemma onError_inl scanId (e : exn) (w w' : World) (r : exn + unit) :
  onError scanId e w = (r, w') -> exists e', r = inl e'.
Proof.
  unfold bind, new_Date, throw. simpl.
  destruct (scan_update scanId (failedData (clock w) e) w) as [[e'|s] w1];
    intros [= <- _]; eauto.
Qed.


Lemma persist_fresh_run scanId ar (w w1 : World) u :
  persist scanId false ar w = (inr u, w1) ->
  exists rows,
    buildRows (counter w) (clock w) (map (createData scanId) (analysis_results ar))
    = Some rows
    /\ results w1 = (results w ++ rows)%list.
Proof.
  destruct (analysis_results ar) as [|a l]; simpl.
  - intros [= _ <-]. exists []. now rewrite app_nil_r.
  - intros E. apply result_createMany_run in E as (rows & B & R & _). eauto.
Qed.

(** C3 (amended): when the Scan row exists and, of the next two
    writes to it, at least one goes through, the background task
    finishes and leaves the status completed or failed, on every path:
    strategies failing, results or diff not persisted, the completion
    write rejected. *)
Theorem scan_reaches_terminal_status (t : Task) (w : World) (s : Scan.t) :
  scanOf (task_scanId t) w = Some s -> writableTwice w ->
  exists w', background' t w = (inr tt, w') /\ terminal (task_scanId t) w'.
Proof.
  intros F W. unfold background. unfold try_catch at 1.
  rewrite processScan_steps.
  destruct (analyze' (task_url t) (task_options t)) as [e|found].
  { destruct (recover _ e w s F W) as (e1 & w1 & w2 & O & L & T).
    rewrite O. eauto. }
  destruct (persist (task_scanId t) (task_isRescan t) (fst found) w)
    as [[e|u] w1] eqn:P;
    apply persist_keeps in P as (S1 & Q1 & C1);
    assert (F1 : scanOf (task_scanId t) w1 = Some s)
      by (unfold scanOf in *; now rewrite S1);
    assert (W1 : writableTwice w1)
      by (unfold writableTwice in *; now rewrite Q1).
  { destruct (recover _ e w1 s F1 W1) as (e1 & w2 & w3 & O & L & T).
    rewrite O. eauto. }
  destruct (scan_update_cases (task_scanId t)
              (completedData (clock w1) (summary (fst found)) (snd found)) w1 s F1)
    as [(w2 & U & F2 & _) | (e & w2 & U & S2 & _ & _ & Q2)]; rewrite U.
  - exists w2. split; [reflexivity|]. eexists. split; [exact F2|]. now left.
  - assert (F2 : scanOf (task_scanId t) w2 = Some s)
      by (unfold scanOf in *; now rewrite S2).
    assert (W2 : writableTwice w2).
    { unfold writableTwice in *. rewrite Q2 in W1.
      destruct (scanFaults w2) as [|[x|] [|[y|] l]]; auto. }
    destruct (recover _ e w2 s F2 W2) as (e1 & w3 & w4 & O & L & T).
    rewrite O. eauto.
Qed.


End Orchestrator.

(** ** [POST /api/scans] *)

Lemma scanOf_id (id : string) (w : World) (s : Scan.t) :
  scanOf id w = Some s -> Scan.id s = id.
Proof.
  unfold scanOf. intros F. apply find_some in F as [_ E]. now apply String.eqb_eq.
Qed.

Lemma scan_create_writable (data : Scan.CreateInput) (w : World) :
  writable w ->
  exists w',
    scan_create data w = (inr (Scan.create data (cuid_of (counter w)) (clock w)), w')
    /\ scans w' = (scans w ++ [Scan.create data (cuid_of (counter w)) (clock w)])%list
    /\ results w' = results w
    /\ scanFaults w' = tl (scanFaults w)
    /\ projects w' = projects w /\ urls w' = urls w.
Proof.
  unfold writable, scan_create, bind, call, cuid, new_Date. simpl.
  destruct (scanFaults w) as [|[e|] rest] eqn:Q; simpl; [| tauto |];
    intros _; eexists; (split; [reflexivity|]); simpl; rewrite ?Q; auto.
Qed.

(** C8: for a request with a project id and a url, the write to
    [Scan] going through.  With the id of an existing scan, that scan
    is rewritten in place: in progress, started now, the url of the
    request, no completion time, error, counters or method; its id,
    project and creation time stay.  Without, a new scan is appended,
    in progress and started now.  Either way the answer is 200 with
    the scan in progress, the analysis is left as a task for later,
    and no Result has been touched yet. *)
Theorem post_scans_resets_or_creates (req : ScanRequest) (w : World) :
  given (req_projectId req) = true -> given (req_url req) = true ->
  writable w ->
  let url := text (req_url req) in
  let opts := match req_complianceOptions req with
              | Some o => o
              | None => defaultOptions
              end in
  (given (req_scanId req) = true ->
   forall s, scanOf (text (req_scanId req)) w = Some s ->
   exists w' s',
     POST req w
     = (inr (mkResponse 200 (ScanJson s'),
             Some (mkTask (text (req_scanId req)) url opts true)), w')
     /\ scanOf (text (req_scanId req)) w' = Some s'
     /\ results w' = results w
     /\ Scan.id s' = Scan.id s
     /\ Scan.projectId s' = Scan.projectId s
     /\ Scan.createdAt s' = Scan.createdAt s
     /\ Scan.status s' = "in_progress"
     /\ Scan.url s' = url
     /\ Scan.startedAt s' = Some (clock w)
     /\ Scan.completedAt s' = None
     /\ Scan.error s' = None
     /\ Scan.totalIssues s' = None
     /\ Scan.criticalIssues s' = None
     /\ Scan.seriousIssues s' = None
     /\ Scan.moderateIssues s' = None
     /\ Scan.minorIssues s' = None
     /\ Scan.analysisMethod s' = None)
  /\ (given (req_scanId req) = false ->
      exists w' s',
        POST req w
        = (inr (mkResponse 200 (ScanJson s'),
                Some (mkTask (Scan.id s') url opts false)), w')
        /\ scans w' = (scans w ++ [s'])%list
        /\ results w' = results w
        /\ Scan.projectId s' = text (req_projectId req)
        /\ Scan.url s' = url
        /\ Scan.status s' = "in_progress"
        /\ Scan.startedAt s' = Some (clock w)
        /\ Scan.completedAt s' = None
        /\ Scan.error s' = None
        /\ Scan.totalIssues s' = None
        /\ Scan.analysisMethod s' = None).
Proof.
  intros P U W url opts. split.
  - intros G s F.
    destruct (scan_update_writable _ (resetData url (clock w)) w s F W)
      as (w' & X & F' & R & _).
    exists w', (Scan.update (resetData url (clock w)) (clock w) s).
    unfold POST, try_catch. rewrite P, U, G. simpl.
    unfold bind at 1. unfold bind at 1. unfold new_Date at 1. fold url.
    rewrite X. unfold ret. simpl.
    rewrite (scanOf_id _ _ _ F).
    split; [reflexivity|]. split; [exact F'|]. split; [exact R|].
    repeat (split; [reflexivity|]). reflexivity.
  - intros G.
    destruct (scan_create_writable
                (Scan.mkCreate (text (req_projectId req)) url (Some "in_progress")
                               (Some (clock w))) w W)
      as (w' & X & S & R & _).
    exists w', (Scan.create
                  (Scan.mkCreate (text (req_projectId req)) url (Some "in_progress")
                                 (Some (clock w)))
                  (cuid_of (counter w)) (clock w)).
    unfold POST, try_catch. rewrite P, U, G. simpl.
    unfold bind at 1. unfold bind at 1. unfold new_Date at 1. fold url.
    rewrite X. unfold ret. simpl.
    split; [reflexivity|]. split; [exact S|]. split; [exact R|].
    repeat (split; [reflexivity|]). reflexivity.
Qed.

(** ** [POST /api/projects/[id]/rescan] *)

Import RescanRoute RescanSpec.

Lemma handled_mono (p : ProjectWithRelations) (w1 w2 : World) u o :
  (forall x, In x (scans w1) -> In x (scans w2)) ->
  handled p w1 u o -> handled p w2 u o.
Proof.
  unfold handled. intros M (A & B & C & D). repeat (split; [assumption|]).
  destruct (find _ (project_scans p)); [assumption|].
  destruct D as (D1 & D2 & created & I & D3). eauto 10.
Qed.




Lemma pending_exists (l : list Scan.t) :
  Nat.ltb 0 (length (filter isPending l)) = existsb isPending l.
Proof.
  induction l as [|s l IH]; simpl; [reflexivity|].
  destruct (isPending s); simpl; [reflexivity | exact IH].
Qed.


(** ** [GET /api/projects/[id]/results] *)

Import ResultsRoute ResultsSpec.

(** ** The stable sort *)

Section SortFacts.
Context {A : Type} (compare : A -> A -> Z).
Local Abbreviation le := (fun a b : A => (compare a b <= 0)%Z).

Lemma insert_perm (x : A) (l : list A) : Permutation (insert compare x l) (x :: l).
Proof.
  induction l as [|y l IH]; simpl; [reflexivity|].
  destruct (compare x y <=? 0)%Z; [reflexivity|].
  rewrite IH. apply perm_swap.
Qed.

Lemma sort_perm (l : list A) : Permutation (sort compare l) l.
Proof.
  induction l as [|x l IH]; simpl; [reflexivity|].
  rewrite insert_perm. now constructor.
Qed.

Hypothesis total : forall x y, (compare x y > 0)%Z -> (compare y x <= 0)%Z.

Lemma insert_sorted (x : A) (l : list A) :
  Sorted le l -> Sorted le (insert compare x l).
Proof.
  induction 1 as [|y l S IH H]; simpl; [repeat constructor|].
  destruct (Z.leb_spec (compare x y) 0) as [L|G].
  - constructor; [now constructor | now constructor].
  - constructor; [assumption|].
    destruct l as [|z l]; simpl.
    + constructor. apply total. lia.
    + destruct (compare x z <=? 0)%Z; constructor.
      * apply total. lia.
      * now inversion H.
Qed.

Lemma sort_sorted (l : list A) : Sorted le (sort compare l).
Proof.
  induction l as [|x l IH]; simpl; [constructor | now apply insert_sorted].
Qed.
End SortFacts.



Lemma Sorted_iff {A : Type} (R S : A -> A -> Prop) (l : list A) :
  (forall a b, R a b <-> S a b) -> Sorted R l -> Sorted S l.
Proof.
  intros E. induction 1 as [|x l H IH Hd]; constructor; [assumption|].
  destruct Hd; constructor. now apply E.
Qed.


(** ** Deduplication *)

Lemma dedup_invariant (l : list Result.t) :
  let m := fold_left dedupStep l [] in
  NoDup (keys m)
  /\ (forall k r, get k m = Some r -> k = dedupKey r /\ In r l)
  /\ (forall x, In x l ->
        exists r, get (dedupKey x) m = Some r
                  /\ (Result.createdAt x <= Result.createdAt r)%Z).
Proof.
  induction l as [|x l (N & E & C)] using rev_ind; simpl.
  - split; [constructor|]. split; [discriminate | intros x []].
  - rewrite fold_left_app. simpl.
    set (m := fold_left dedupStep l []) in *.
    unfold dedupStep. unfold has.
    destruct (get (dedupKey x) m) as [kept|] eqn:G; simpl.
    + destruct (Z.gtb_spec (Result.createdAt x) (Result.createdAt kept)) as [Gt|Le].
      * split; [now apply NoDup_keys_set|]. split.
        -- intros k r. rewrite get_set.
           destruct (String.eqb_spec k (dedupKey x)) as [->|Nk].
           ++ intros [= <-]. split; [reflexivity|]. apply in_or_app. right. now left.
           ++ intros Gk. destruct (E _ _ Gk). split; [assumption|].
              apply in_or_app. now left.
        -- intros y I. rewrite get_set.
           destruct (String.eqb_spec (dedupKey y) (dedupKey x)) as [Q|Nk].
           ++ exists x. split; [reflexivity|].
              apply in_app_or in I as [I|[<-|[]]]; [|lia].
              destruct (C y I) as (r & Gr & Le). rewrite Q, G in Gr.
              injection Gr as <-. lia.
           ++ apply in_app_or in I as [I|[<-|[]]]; [now apply C | congruence].
      * split; [assumption|]. split.
        -- intros k r Gk. destruct (E _ _ Gk). split; [assumption|].
           apply in_or_app. now left.
        -- intros y I. apply in_app_or in I as [I|[<-|[]]]; [now apply C|].
           exists kept. split; [assumption | lia].
    + split; [now apply NoDup_keys_set|]. split.
      * intros k r. rewrite get_set.
        destruct (String.eqb_spec k (dedupKey x)) as [->|Nk].
        -- intros [= <-]. split; [reflexivity|]. apply in_or_app. right. now left.
        -- intros Gk. destruct (E _ _ Gk). split; [assumption|].
           apply in_or_app. now left.
      * intros y I. rewrite get_set.
        destruct (String.eqb_spec (dedupKey y) (dedupKey x)) as [Q|Nk].
        -- exists x. split; [reflexivity|].
           apply in_app_or in I as [I|[<-|[]]]; [|lia].
           destruct (C y I) as (r & Gr & _). rewrite Q, G in Gr. discriminate.
        -- apply in_app_or in I as [I|[<-|[]]]; [now apply C | congruence].
Qed.

Lemma keys_of_values (m : Map Result.t) :
  (forall k r, In (k, r) m -> k = dedupKey r) ->
  map dedupKey (values m) = keys m.
Proof.
  unfold values, keys. induction m as [|[k r] m IH]; simpl; [reflexivity|].
  intros K. rewrite IH by auto. now rewrite <- (K k r) by auto.
Qed.

Lemma deduplicate_spec (l : list Result.t) :
  NoDup (map dedupKey (deduplicate l))
  /\ (forall r, In r (deduplicate l) -> In r l)
  /\ (forall x, In x l ->
        exists r, In r (deduplicate l) /\ dedupKey r = dedupKey x
                  /\ (Result.createdAt x <= Result.createdAt r)%Z).
Proof.
  destruct (dedup_invariant l) as (N & E & C). unfold deduplicate.
  set (m := fold_left dedupStep l []) in *.
  assert (K : forall k r, In (k, r) m -> k = dedupKey r /\ In r l).
  { intros k r I. apply E. now apply in_get. }
  split; [rewrite keys_of_values; [assumption | intros k r I; now apply K]|].
  split.
  - intros r I. unfold values in I. apply in_map_iff in I as ([k r'] & <- & I).
    now apply K in I.
  - intros x I. destruct (C x I) as (r & G & Le). exists r.
    apply get_in in G. split; [apply (in_map snd _ _ G)|].
    split; [|assumption]. symmetry. now apply K in G.
Qed.

(** ** Filters, pages *)

Lemma existsb_eqb_In (s : string) (l : list string) :
  existsb (String.eqb s) l = true <-> In s l.
Proof.
  rewrite existsb_exists. split.
  - intros (x & I & E). apply String.eqb_eq in E. now subst.
  - intros I. exists s. split; [assumption | apply String.eqb_refl].
Qed.

Lemma applyFilters_spec (tl : string -> string) (search : string)
    (sev comp : list string) (l : list Result.t) (r : Result.t) :
  In r (applyFilters tl search sev comp l)
  <-> In r l
      /\ (search = "" \/ matchesSearch tl (tl search) r = true)
      /\ (sev = [] \/ In (Result.severity r) sev)
      /\ (comp = [] \/ exists tag, In tag (Result.tags r) /\ In tag comp).
Proof.
  unfold applyFilters.
  assert (T : forall tags, existsb (fun tag => existsb (String.eqb tag) comp) tags = true
                           <-> exists tag, In tag tags /\ In tag comp).
  { intros tags. rewrite existsb_exists. split; intros (t & I & E); exists t;
      (split; [assumption|]); now apply existsb_eqb_In. }
  destruct (String.eqb_spec search "") as [->|Ns]; simpl;
    destruct sev as [|s0 sev]; destruct comp as [|c0 comp];
    cbn [length Nat.ltb Nat.leb]; rewrite ?filter_In, ?existsb_eqb_In, ?T;
    intuition (try discriminate; try congruence).
Qed.

Lemma slice_page {A : Type} (start size : Z) (l : list A) :
  (0 <= start)%Z -> (0 <= size)%Z ->
  slice start (start + size) l
  = firstn (Z.to_nat size) (skipn (Z.to_nat start) l).
Proof.
  intros S Z0. unfold slice, relative_index.
  destruct (Z.ltb_spec start 0) as [|_]; [lia|].
  destruct (Z.ltb_spec (start + size) 0) as [|_]; [lia|].
  destruct (Z.le_gt_cases (Z.of_nat (length l)) start) as [Ge|Lt].
  - rewrite Z.min_r by lia. rewrite Z.min_r by lia.
    rewrite !skipn_all2 by lia. now rewrite !firstn_nil.
  - rewrite (Z.min_l start) by lia.
    destruct (Z.le_gt_cases (start + size) (Z.of_nat (length l))) as [Le|Gt].
    + rewrite Z.min_l by lia. f_equal. lia.
    + rewrite Z.min_r by lia.
      rewrite !firstn_all2; [reflexivity | |]; rewrite length_skipn; lia.
Qed.

Lemma ceil_div_spec (a b : Z) :
  (0 < b)%Z ->
  exists t, ceil_div a b = Some t /\ ((t - 1) * b < a <= t * b)%Z.
Proof.
  intros B. unfold ceil_div. destruct (Z.eqb_spec b 0) as [|_]; [lia|].
  eexists. split; [reflexivity|].
  pose proof (Z.div_mod (- a) b ltac:(lia)) as D.
  pose proof (Z.mod_pos_bound (- a) b B) as M. nia.
Qed.

(** ** The listing *)





(** ** The properties on the sample data *)
Import Samples.

Lemma sample_findings_distinct :
  distinctFindings [missingAlt; emptyLink] /\ distinctFindings fresh.
Proof.
  unfold distinctFindings. split; vm_compute;
    (apply NoDup_cons; [intros [E|[]]; discriminate E|]);
    (apply NoDup_cons; [intros []|]); apply NoDup_nil.
Defined.

Lemma sample_keys_faithful : faithfulKeys [missingAlt; emptyLink] fresh.
Proof.
  apply barFree_faithfulKeys.
  - intros e [<-|[<-|[]]]; repeat split; reflexivity.
  - intros n [<-|[<-|[]]]; repeat split; reflexivity.
Defined.

(** C1, on the example of the specification with one more stored
    finding. *)
Lemma reconciliation_computes_the_diff_witness :
  distinctFindings [missingAlt; emptyLink] /\ distinctFindings fresh
  /\ faithfulKeys [missingAlt; emptyLink] fresh
  /\ toAdd (computeDiff [missingAlt; emptyLink] fresh 100) = [lowContrast]
  /\ toRemove (computeDiff [missingAlt; emptyLink] fresh 100) = ["r2"].
Proof.
  destruct sample_findings_distinct as [D1 D2].
  split; [exact D1|]. split; [exact D2|]. split; [exact sample_keys_faithful|].
  destruct (reconciliation_computes_the_diff [missingAlt; emptyLink] fresh 100
              D1 D2 sample_keys_faithful)
    as (_ & A & R & _).
  split; [rewrite A | rewrite R]; reflexivity.
Defined.

(** C1 as stated fails: of two fresh results that are the same
    finding, the first matches no stored row and is not added. *)
Lemma reconciliation_drops_earlier_duplicates :
  identity lowContrast = identity lowContrastAgain
  /\ toAdd (computeDiff [] [lowContrast; lowContrastAgain] 100)
     = [lowContrastAgain]
  /\ toAdd (computeDiff [] [lowContrast; lowContrastAgain] 100)
     <> filter (fun n => negb (matched n (@nil Result.t)))
               [lowContrast; lowContrastAgain].
Proof.
  split; [reflexivity|]. split; [reflexivity|]. vm_compute. discriminate.
Qed.

(** The example of section 8: the stored row reads [null] or [[]]
    where the fresh finding leaves a property out, so the patch lists
    those properties too, with the value [undefined]. *)
Lemma specification_example :
  computeDiff [missingAlt] fresh 100
  = mkDiff [lowContrast] []
      [mkPatch "r1"
         [(Field.help, Some (Str "new")); (Field.impact, None);
          (Field.tags, None); (Field.elementPath, None); (Field.details, None)]
         100].
Proof. reflexivity. Qed.




(** Outside the fresh lists of C4: a fresh finding without [details]
    is inserted with [details = {}], so a second reconciliation with
    the same list finds [details] changed and patches the row again,
    as does every later one; likewise a finding that leaves help,
    impact, tags or elementPath out. *)
Lemma second_reconciliation_patches_again :
  let w0 := world scan1 [] [] [] in
  let w1 := snd (handleRescanDiff "s1" [noDetails] w0) in
  let w2 := snd (handleRescanDiff "s1" [lowContrast] w0) in
  fst (handleRescanDiff "s1" [noDetails] w0) = inr tt
  /\ computeDiff (results w1) [noDetails] 100
     = mkDiff [] [] [mkPatch "c0" [(Field.details, None)] 100]
  /\ fst (handleRescanDiff "s1" [lowContrast] w0) = inr tt
  /\ computeDiff (results w2) [lowContrast] 100
     = mkDiff [] []
         [mkPatch "c0"
            [(Field.help, None); (Field.impact, None); (Field.tags, None);
             (Field.elementPath, None); (Field.details, None)] 100].
Proof. vm_compute. repeat split; reflexivity. Qed.


(** C3, the three strategies failing and the first write to the Scan
    row rejected. *)
Lemma scan_reaches_terminal_status_witness :
  let w := world scan1 [] [Some dbDown] [] in
  scanOf "s1" w = Some scan1 /\ writableTwice w
  /\ exists w',
       background (fails "s") (playwrightFails "p") (fails "h") rescanTask w
       = (inr tt, w')
       /\ terminal "s1" w'.
Proof.
  intros w. split; [reflexivity|]. split; [exact I|].
  exact (scan_reaches_terminal_status (fails "s") (playwrightFails "p") (fails "h")
           rescanTask w scan1 eq_refl I).
Defined.

(** C3 as stated fails: when the write of the [catch] block and the
    write of the caller are both rejected, the task finishes and the
    scan is still in progress. *)
Lemma scan_stays_in_progress_when_writes_fail :
  let w := world scan1 [] [Some dbDown; Some dbDown] [] in
  let w' := snd (background (fails "s") (playwrightFails "p") (fails "h")
                   rescanTask w) in
  scanOf "s1" w = Some scan1
  /\ fst (background (fails "s") (playwrightFails "p") (fails "h") rescanTask w)
     = inr tt
  /\ option_map Scan.status (scanOf "s1" w') = Some "in_progress"
  /\ ~ terminal "s1" w'.
Proof.
  intros w w'. split; [reflexivity|]. split; [reflexivity|].
  split; [reflexivity|].
  intros (s & F & [C|C]); vm_compute in F; injection F as <-; discriminate C.
Qed.


(** C6, on the example of the specification. *)
Lemma rescan_keeps_matched_rows_witness :
  let w := world scan1 [missingAlt; emptyLink] [] [] in
  let out := handleRescanDiff "s1" fresh w in
  NoDup (map Result.id (results w))
  /\ In missingAlt (results w)
  /\ matched missingAlt fresh = true
  /\ exists n e',
       In n fresh /\ createKey missingAlt = createKey n
       /\ In e' (results (snd out))
       /\ Result.id e' = "r1" /\ Result.createdAt e' = 60%Z.
Proof.
  intros w out.
  assert (N : NoDup (map Result.id (results w))).
  { simpl. apply NoDup_cons; [intros [E|[]]; discriminate E|].
    apply NoDup_cons; [intros []|]. apply NoDup_nil. }
  assert (I1 : In missingAlt (results w)) by (left; reflexivity).
  assert (M : matched missingAlt fresh = true) by reflexivity.
  split; [exact N|]. split; [exact I1|]. split; [exact M|].
  destruct (rescan_keeps_matched_rows "s1" fresh w (snd out) (fst out) missingAlt N
              (surjective_pairing out) I1 eq_refl M)
    as (n & e' & In_ & K & Ie & Id & Cr & _).
  exists n, e'. auto.
Defined.

(** C8, a rescan of a completed scan. *)
Lemma post_scans_resets_or_creates_witness :
  let w := world scanDone [missingAlt] [] [] in
  let req := mkRequest (Some "p1") (Some "https://a.com") None (Some "s1") in
  given (req_projectId req) = true /\ given (req_url req) = true /\ writable w
  /\ exists w' s',
       ScansRoute.POST req w
       = (inr (mkResponse 200 (ScanJson s'),
               Some (mkTask "s1" "https://a.com" defaultOptions true)), w')
       /\ Scan.status s' = "in_progress"
       /\ Scan.completedAt s' = None
       /\ Scan.analysisMethod s' = None
       /\ results w' = results w.
Proof.
  intros w req. split; [reflexivity|]. split; [reflexivity|]. split; [exact I|].
  destruct (post_scans_resets_or_creates req w eq_refl eq_refl I) as (R & _).
  destruct (R eq_refl scanDone eq_refl)
    as (w' & s' & P & _ & Rs & _ & _ & _ & St & _ & _ & Co & _ & _ & _ & _ & _ & _ & Am).
  exists w', s'. auto.
Defined.





(** C9 (the code against the claim): two collected findings of
    different identity tuples, the bar of the one in its message and
    of the other in its element, have the same key string, and the
    listing keeps the more recent of them only. *)
Lemma results_merge_findings_of_different_identity :
  let w := world scanDone [barInMessage; barInElement] [] [] in
  identity barInMessage <> identity barInElement
  /\ collected "p1" w barInMessage
  /\ collected "p1" w barInElement
  /\ exists body,
       fst (GET asciiLower byteCompare "p1" firstPage w)
       = inr (mkResponse 200 (ResultsJson body))
       /\ map fst (body_results body) = [barInElement]
       /\ body_total body = 1.
Proof.
  intros w. split; [discriminate|].
  split; [exists scanDone; repeat split; simpl; auto|].
  split; [exists scanDone; repeat split; simpl; auto|].
  eexists. split; [reflexivity|]. split; reflexivity.
Qed.

(* ================================================================== *)
(** * Further properties *)
(* ================================================================== *)

Import Outcomes.
Import ScansRoute.

(** ** What a diff never holds *)

Lemma keyMatched_true {A B : Type} `{Finding A} `{Finding B} (a : A) (l : list B) :
  keyMatched a l = true <-> exists b, In b l /\ createKey a = createKey b.
Proof.
  unfold keyMatched. rewrite existsb_exists. split.
  - intros (b & I & K). exists b. split; [assumption | now apply sameKey_iff].
  - intros (b & I & K). exists b. split; [assumption | now apply sameKey_iff].
Qed.

Lemma patch_ids_distinct (R1 : list Result.t) (L2 : list AccessibilityResult.t)
    (t : Z) :
  NoDup (map Result.id R1) -> NoDup (map patch_id (toUpdate_keyed R1 L2 t)).
Proof.
  unfold toUpdate_keyed. induction R1 as [|e R1 IH]; simpl; intros N; [constructor|].
  apply NoDup_cons_iff in N as [Fresh N]. rewrite map_app.
  destruct (find (sameKey e) L2) as [n|]; [|now apply IH].
  destruct (patchOf_cases e n t) as [[_ ->]|[_ ->]]; simpl; [now apply IH|].
  apply NoDup_cons; [|now apply IH].
  intros I. apply in_map_iff in I as (p & E & I).
  apply (patch_ids R1 L2 t) in I as (x & m & Ix & _ & ->). simpl in E.
  apply Fresh. rewrite <- E. now apply in_map.
Qed.

Lemma lastOnly_ids (R1 : list Result.t) :
  NoDup (map Result.id R1) -> NoDup (map Result.id (lastOnly R1)).
Proof.
  intros N.
  assert (Inj : forall x y, In x (lastOnly R1) -> In y (lastOnly R1) ->
                  Result.id x = Result.id y -> x = y).
  { intros x y Ix Iy E.
    apply (NoDup_map_eq Result.id R1 x y N); [| |exact E]; now apply lastOnly_incl. }
  pose proof (lastOnly_distinct R1) as D. unfold distinctKeys in D.
  revert Inj D. generalize (lastOnly R1) as l.
  induction l as [|x l IH]; simpl; intros Inj D; [constructor|].
  apply NoDup_cons_iff in D as [Fresh D]. apply NoDup_cons.
  - intros I. apply in_map_iff in I as (y & E & I).
    assert (x = y) by (apply Inj; auto). subst y.
    apply Fresh. now apply in_map.
  - apply IH; [|assumption]. intros a b Ia Ib. apply Inj; now right.
Qed.

Lemma removed_rows (R1 : list Result.t) (R2 : list AccessibilityResult.t)
    (now : Z) (i : string) :
  In i (toRemove (computeDiff R1 R2 now)) ->
  exists e, In e (lastOnly R1) /\ Result.id e = i /\ keyMatched e R2 = false.
Proof.
  rewrite computeDiff_lastOnly. simpl. intros I.
  apply in_map_iff in I as (e & <- & I).
  apply filter_In in I as [I M]. exists e. split; [assumption|].
  split; [reflexivity|]. rewrite keyMatched_lastOnly in M.
  now apply negb_true_iff in M.
Qed.

Lemma patched_rows (R1 : list Result.t) (R2 : list AccessibilityResult.t)
    (now : Z) (p : Patch) :
  In p (toUpdate (computeDiff R1 R2 now)) ->
  updates p <> [] /\ updatedAt p = now
  /\ exists e, In e (lastOnly R1) /\ Result.id e = patch_id p
               /\ keyMatched e R2 = true.
Proof.
  rewrite computeDiff_lastOnly. simpl. intros I.
  apply in_flat_map in I as (e & Ie & I).
  destruct (find (sameKey e) (lastOnly R2)) as [n|] eqn:F; [|destruct I].
  destruct (patchOf_cases e n now) as [[_ P]|[Ne P]]; rewrite P in I; [destruct I|].
  destruct I as [<-|[]]. simpl. split; [assumption|]. split; [reflexivity|].
  exists e. split; [assumption|]. split; [reflexivity|].
  rewrite <- keyMatched_lastOnly. apply find_some in F as [In_ K].
  apply existsb_exists. eauto.
Qed.

Lemma never_removed_and_patched (R1 : list Result.t)
    (R2 : list AccessibilityResult.t) (now : Z) (p : Patch) :
  NoDup (map Result.id R1) ->
  In p (toUpdate (computeDiff R1 R2 now)) ->
  ~ In (patch_id p) (toRemove (computeDiff R1 R2 now)).
Proof.
  intros N Ip Ir. apply patched_rows in Ip as (_ & _ & e & Ie & E & M).
  apply removed_rows in Ir as (e' & Ie' & E' & M').
  assert (e = e')
    by (apply (NoDup_map_eq Result.id (lastOnly R1) e e' (lastOnly_ids R1 N));
        congruence).
  subst e'. congruence.
Qed.

(** X1: the three operation sets of a diff keep apart: each removed id and
    each patched id is that of a stored row, no id is removed twice or
    patched twice, none is both removed and patched, no patch is empty
    and each carries the time of the run, and no added result has the
    key of a stored row. *)
Theorem diff_sets_keep_apart (R1 : list Result.t)
    (R2 : list AccessibilityResult.t) (now : Z) :
  NoDup (map Result.id R1) ->
  let d := computeDiff R1 R2 now in
  (forall i, In i (toRemove d) ->
     exists e, In e R1 /\ Result.id e = i /\ keyMatched e R2 = false)
  /\ (forall p, In p (toUpdate d) ->
        updates p <> [] /\ updatedAt p = now
        /\ exists e, In e R1 /\ Result.id e = patch_id p
                     /\ keyMatched e R2 = true)
  /\ NoDup (toRemove d)
  /\ NoDup (map patch_id (toUpdate d))
  /\ (forall p, In p (toUpdate d) -> ~ In (patch_id p) (toRemove d))
  /\ (forall n, In n (toAdd d) -> In n R2 /\ keyMatched n R1 = false).
Proof.
  intros N d. subst d. split.
  { intros i I. apply removed_rows in I as (e & Ie & E & M).
    exists e. split; [now apply lastOnly_incl | auto]. }
  split.
  { intros p I. apply patched_rows in I as (U & T & e & Ie & E & M).
    split; [assumption|]. split; [assumption|]. exists e.
    split; [now apply lastOnly_incl | auto]. }
  split.
  { rewrite computeDiff_lastOnly. simpl. unfold toRemove_keyed.
    apply distinct_after_filter. now apply lastOnly_ids. }
  split.
  { rewrite computeDiff_lastOnly. simpl. apply patch_ids_distinct.
    now apply lastOnly_ids. }
  split; [intros p; now apply never_removed_and_patched|].
  rewrite computeDiff_lastOnly. simpl.
  intros n I. apply filter_In in I as [I M]. split; [now apply lastOnly_incl|].
  rewrite keyMatched_lastOnly in M. now apply negb_true_iff in M.
Qed.

(** X2: against no fresh result every stored key is removed, through its
    last row; into an empty scan every fresh key is added, through its
    last result; nothing is patched either way. *)
Theorem diff_with_an_empty_side (R1 : list Result.t)
    (R2 : list AccessibilityResult.t) (now : Z) :
  computeDiff R1 [] now = mkDiff [] (map Result.id (lastOnly R1)) []
  /\ computeDiff [] R2 now = mkDiff (lastOnly R2) [] []
  /\ (distinctKeys R1 -> toRemove (computeDiff R1 [] now) = map Result.id R1)
  /\ (distinctKeys R2 -> toAdd (computeDiff [] R2 now) = R2).
Proof.
  assert (A : computeDiff R1 [] now = mkDiff [] (map Result.id (lastOnly R1)) []).
  { rewrite computeDiff_lastOnly. unfold diff_keyed. f_equal.
    - unfold toRemove_keyed. f_equal.
      rewrite <- (filter_ext (fun _ => true)); [|reflexivity].
      induction (lastOnly R1) as [|x l IH]; simpl; [reflexivity | now rewrite IH].
    - unfold toUpdate_keyed. now apply flat_map_none. }
  assert (B : computeDiff [] R2 now = mkDiff (lastOnly R2) [] []).
  { rewrite computeDiff_lastOnly. unfold diff_keyed. f_equal.
    unfold toAdd_keyed.
    rewrite <- (filter_ext (fun _ => true)); [|reflexivity].
    induction (lastOnly R2) as [|x l IH]; simpl; [reflexivity | now rewrite IH]. }
  split; [exact A|]. split; [exact B|]. split.
  - intros D. rewrite A. simpl. now rewrite lastOnly_fixed.
  - intros D. rewrite B. simpl. now apply lastOnly_fixed.
Qed.

(** ** Every outcome of a write to [Scan] *)

Lemma rewritten_refl (id : string) (l : list Scan.t) : rewritten id l l.
Proof. apply Forall2_diag. auto. Qed.

Lemma rewritten_trans (id : string) (a b c : list Scan.t) :
  rewritten id a b -> rewritten id b c -> rewritten id a c.
Proof.
  apply Forall2_chain. intros x y z (I1 & F1) (I2 & F2). split; [congruence|].
  intros N. rewrite F2 by congruence. now apply F1.
Qed.

Lemma updateScan_rewritten (id : string) (data : Scan.UpdateInput) (now : Z)
    (rows rows' : list Scan.t) (s : Scan.t) :
  updateScan id data now rows = Some (s, rows') ->
  rewritten id rows rows' /\ In s rows'
  /\ exists s0, find (fun x => String.eqb (Scan.id x) id) rows = Some s0
                /\ s = Scan.update data now s0.
Proof.
  revert rows'. induction rows as [|x rows IH]; intros rows'; simpl; [discriminate|].
  destruct (String.eqb_spec (Scan.id x) id) as [Q|Q].
  - intros [= <- <-]. split.
    + constructor; [|apply rewritten_refl]. split; [reflexivity|]. intros N. contradiction.
    + split; [now left | eauto].
  - destruct (updateScan id data now rows) as [[s' rest']|]; [|discriminate].
    intros [= <- <-]. destruct (IH _ eq_refl) as (R & I & F).
    split; [constructor; auto|]. split; [now right | exact F].
Qed.

Lemma scan_update_outcome (id : string) (data : Scan.UpdateInput)
    (w w' : World) (r : exn + Scan.t) :
  scan_update id data w = (r, w') ->
  projects w' = projects w /\ urls w' = urls w /\ results w' = results w
  /\ clock w' = clock w /\ counter w' = counter w
  /\ match r with
     | inl _ => scans w' = scans w
     | inr s =>
         rewritten id (scans w) (scans w') /\ In s (scans w')
         /\ exists s0, scanOf id w = Some s0
                       /\ s = Scan.update data (clock w) s0
     end.
Proof.
  unfold scan_update, bind, call, new_Date, scanOf. simpl.
  destruct (scanFaults w) as [|[e|] rest]; simpl.
  - destruct (updateScan id data (clock w) (scans w)) as [[s rows]|] eqn:U;
      intros [= <- <-]; simpl; repeat (split; [reflexivity|]); [|reflexivity].
    now apply updateScan_rewritten in U.
  - intros [= <- <-]. simpl. tauto.
  - destruct (updateScan id data (clock w) (scans w)) as [[s rows]|] eqn:U;
      intros [= <- <-]; simpl; repeat (split; [reflexivity|]); [|reflexivity].
    now apply updateScan_rewritten in U.
Qed.

Lemma scan_create_outcome (data : Scan.CreateInput) (w w' : World)
    (r : exn + Scan.t) :
  scan_create data w = (r, w') ->
  projects w' = projects w /\ urls w' = urls w /\ results w' = results w
  /\ clock w' = clock w
  /\ match r with
     | inl _ => scans w' = scans w /\ counter w' = counter w
     | inr s =>
         s = Scan.create data (cuid_of (counter w)) (clock w)
         /\ scans w' = (scans w ++ [s])%list
         /\ counter w' = S (counter w)
     end.
Proof.
  unfold scan_create, bind, call, cuid, new_Date. simpl.
  destruct (scanFaults w) as [|[e|] rest]; simpl; intros [= <- <-]; simpl; tauto.
Qed.

(** ** [POST /api/scans]: every answer *)

(** X3: the handler always answers, with 200, 400 or 500: 400 exactly when
    the project id or the url is missing or empty; short of 200 no
    table has changed and no task is left; with 200 the answer is the
    scan in progress, stored, and the task left behind is that of this
    scan, a rescan exactly when the request named a scan. *)
Theorem post_scans_every_answer (req : ScanRequest) (w : World) :
  exists resp task w',
    ScansRoute.POST req w = (inr (resp, task), w')
    /\ (status resp = 200 \/ status resp = 400 \/ status resp = 500)
    /\ (status resp = 400
        <-> given (req_projectId req) = false \/ given (req_url req) = false)
    /\ (status resp <> 200 -> task = None /\ tables w' = tables w)
    /\ (status resp = 200 ->
        exists s t,
          body resp = ScanJson s /\ task = Some t
          /\ In s (scans w') /\ Scan.status s = "in_progress"
          /\ Scan.url s = text (req_url req)
          /\ task_scanId t = Scan.id s
          /\ task_url t = text (req_url req)
          /\ task_isRescan t = given (req_scanId req)
          /\ results w' = results w).
Proof.
  unfold ScansRoute.POST, try_catch.
  destruct (given (req_projectId req)) eqn:P; simpl.
  2:{ do 3 eexists. split; [reflexivity|]. simpl.
      split; [auto|]. split; [tauto|]. split; [auto|]. discriminate. }
  destruct (given (req_url req)) eqn:U; simpl.
  2:{ do 3 eexists. split; [reflexivity|]. simpl.
      split; [auto|]. split; [tauto|]. split; [auto|]. discriminate. }
  unfold bind at 1.
  destruct (given (req_scanId req)) eqn:G.
  - unfold bind at 1, new_Date at 1.
    destruct (scan_update (text (req_scanId req))
                (resetData (text (req_url req)) (clock w)) w) as [[e|s] w1] eqn:E;
      apply scan_update_outcome in E as (Pj & Ur & Rs & _ & _ & O).
    + do 3 eexists. split; [reflexivity|]. simpl.
      split; [auto|]. split; [split; [discriminate | intros [Q|Q]; discriminate]|].
      split; [|discriminate]. intros _. split; [reflexivity|].
      unfold tables. congruence.
    + destruct O as (_ & I & s0 & _ & ->).
      do 3 eexists. split; [reflexivity|]. simpl.
      split; [auto|]. split; [split; [discriminate | intros [Q|Q]; discriminate]|].
      split; [intros N; now destruct N|]. intros _.
      do 2 eexists. repeat (split; [reflexivity || assumption|]). assumption.
  - unfold bind at 1, new_Date at 1.
    destruct (scan_create
                (Scan.mkCreate (text (req_projectId req)) (text (req_url req))
                   (Some "in_progress") (Some (clock w))) w) as [[e|s] w1] eqn:E;
      apply scan_create_outcome in E as (Pj & Ur & Rs & _ & O).
    + destruct O as (Sc & _). do 3 eexists. split; [reflexivity|]. simpl.
      split; [auto|]. split; [split; [discriminate | intros [Q|Q]; discriminate]|].
      split; [|discriminate]. intros _. split; [reflexivity|].
      unfold tables. congruence.
    + destruct O as (-> & Sc & _).
      do 3 eexists. split; [reflexivity|]. simpl.
      split; [auto|]. split; [split; [discriminate | intros [Q|Q]; discriminate]|].
      split; [intros N; now destruct N|]. intros _.
      do 2 eexists. repeat (split; [reflexivity|]).
      split; [rewrite Sc; apply in_or_app; right; now left|].
      repeat (split; [reflexivity|]). assumption.
Qed.

(** ** The rows of a fresh scan *)

Lemma newRow_storedAs (i : string) (t : Z) (s : string)
    (n : AccessibilityResult.t) (row : Result.t) :
  newRow i t (createData s n) = Some row ->
  Result.id row = i /\ Result.updatedAt row = t /\ storedAs s n row.
Proof.
  unfold newRow, createData, storedAs, stringColumnOf, listColumnOf. simpl.
  destruct (AccessibilityResult.impact n) as [j1|]; simpl;
    [destruct (string_column j1) as [c1|]; simpl; [|discriminate]|];
    (destruct (AccessibilityResult.help n) as [j2|]; simpl;
     [destruct (string_column j2) as [c2|]; simpl; [|discriminate]|]);
    (destruct (AccessibilityResult.tags n) as [j3|]; simpl;
     [destruct (string_list_column j3) as [c3|]; simpl; [|discriminate]|]);
    (destruct (AccessibilityResult.elementPath n) as [j4|]; simpl;
     [destruct (string_column j4) as [c4|]; simpl; [|discriminate]|]);
    intros [= <-]; simpl; repeat split; reflexivity.
Qed.

Lemma buildRows_storedAs (c : nat) (t : Z) (s : string)
    (found : list AccessibilityResult.t) (rows : list Result.t) :
  buildRows c t (map (createData s) found) = Some rows ->
  Forall2 (storedAs s) found rows.
Proof.
  intros B. apply buildRows_rows in B.
  refine (Forall2_impl _ _ B). intros n row (i & R).
  now apply newRow_storedAs in R.
Qed.

Lemma newRows_keeps (data : list ResultCreateInput.t) (w : World) :
  results (snd (newRows data w)) = results w.
Proof.
  revert w. induction data as [|d data IH]; intros w; simpl; [reflexivity|].
  unfold bind at 1. simpl. unfold bind at 1. simpl.
  destruct (newRow (cuid_of (counter w)) (clock w) d) as [r|]; [|reflexivity].
  unfold bind. specialize (IH (set_counter (S (counter w)) w)).
  destruct (newRows data (set_counter (S (counter w)) w)) as [[e|rows] w1];
    simpl in *; exact IH.
Qed.

(** [createMany] stores all the rows or none. *)
Lemma result_createMany_rejected (data : list ResultCreateInput.t) (w : World) :
  match result_createMany data w with
  | (inl _, w') => results w' = results w
  | (inr _, _) => True
  end.
Proof.
  unfold result_createMany. unfold bind at 1.
  destruct (call ResultModel w) as [[e|u] w1] eqn:C.
  - destruct (call_static ResultModel w) as (T & _). rewrite C in T.
    unfold tables in T. simpl in T. congruence.
  - apply call_inr in C as (R & _). unfold bind.
    pose proof (newRows_keeps data w1) as K.
    destruct (newRows data w1) as [[e|rows] w2]; simpl in *; [congruence | exact I].
Qed.

Section Tasks.
Variable simpleAnalyze : string -> ComplianceOptions -> exn + AnalysisResult.
Variable playwrightAnalyze : string -> PlaywrightOptions -> exn + AnalysisResult.
Variable htmlAnalyze : string -> ComplianceOptions -> exn + AnalysisResult.

Local Abbreviation analyze' := (analyze simpleAnalyze playwrightAnalyze htmlAnalyze).
Local Abbreviation processScan' :=
  (processScan simpleAnalyze playwrightAnalyze htmlAnalyze).
Local Abbreviation background' :=
  (background simpleAnalyze playwrightAnalyze htmlAnalyze).
Local Abbreviation persist scanId isRescan ar :=
  (if isRescan : bool then handleRescanDiff scanId (analysis_results ar)
   else when (Nat.ltb 0 (length (analysis_results ar)))
             (result_createMany (map (createData scanId) (analysis_results ar)))).
Local Abbreviation onError scanId :=
  (fun error : exn =>
     now <- new_Date ;;
     scan_update scanId (failedData now error) ;;; (throw error : M unit)).
Local Abbreviation lastResort scanId :=
  (fun error : exn =>
     try_catch (now <- new_Date ;;
                scan_update scanId (failedData now error) ;;; ret tt)
               (fun _ => ret tt)).

(** X4: a fresh scan that completes has stored one row per reported
    finding, in the order of the report and with no finding merged
    into another: the row has the scan, url, message, element, severity
    and creation time of its finding, [{}] for a [details] that is
    missing or falsy, [null] for a help, impact or elementPath that is
    missing and no tag when [tags] is missing. *)
Theorem fresh_scan_stores_each_finding (scanId url : string)
    (opts : ComplianceOptions) (w w' : World) :
  processScan' scanId url opts false w = (inr tt, w') ->
  exists ar method rows,
    analyze' url opts = inr (ar, method)
    /\ results w' = (results w ++ rows)%list
    /\ length rows = length (analysis_results ar)
    /\ Forall2 (storedAs scanId) (analysis_results ar) rows.
Proof.
  rewrite processScan_steps.
  destruct (analyze' url opts) as [e|[ar method]] eqn:A.
  { intros H. apply onError_inl in H as (e' & Q). discriminate. }
  cbn [fst snd].
  destruct (persist scanId false ar w) as [[e|u] w1] eqn:P.
  { intros H. apply onError_inl in H as (e' & Q). discriminate. }
  apply persist_fresh_run in P as (rows & B & R1).
  destruct (scan_update scanId _ w1) as [[e|s] w2] eqn:U.
  { intros H. apply onError_inl in H as (e' & Q). discriminate. }
  intros [= <-]. apply scan_update_outcome in U as (_ & _ & R2 & _).
  exists ar, method, rows. split; [reflexivity|]. split; [congruence|].
  apply buildRows_storedAs in B. split; [|exact B].
  symmetry. eapply Forall2_length. exact B.
Qed.

Lemma onError_outcome scanId (e : exn) (w w' : World) (r : exn + unit) :
  onError scanId e w = (r, w') ->
  (exists e', r = inl e')
  /\ projects w' = projects w /\ urls w' = urls w /\ results w' = results w
  /\ rewritten scanId (scans w) (scans w')
  /\ (r = inl e -> writable w -> forall s, scanOf scanId w = Some s ->
      scanOf scanId w' = Some (Scan.update (failedData (clock w) e) (clock w) s)).
Proof.
  intros H. split; [eapply onError_inl; exact H|].
  unfold bind, new_Date, throw in H. simpl in H.
  destruct (scan_update scanId (failedData (clock w) e) w) as [[e'|s] w1] eqn:U.
  - injection H as <- <-.
    pose proof U as U'. apply scan_update_outcome in U as (P & Ur & R & _ & _ & S).
    split; [assumption|]. split; [assumption|]. split; [assumption|].
    split; [rewrite S; apply rewritten_refl|].
    intros _ W s F. destruct (scan_update_cases scanId (failedData (clock w) e) w s F)
      as [(w2 & U2 & _) | (e2 & w2 & _ & _ & _ & _ & Q)].
    + rewrite U2 in U'. discriminate.
    + unfold writable in W. now rewrite Q in W.
  - injection H as <- <-.
    pose proof U as U'. apply scan_update_outcome in U as (P & Ur & R & _ & _ & S & _).
    split; [assumption|]. split; [assumption|]. split; [assumption|].
    split; [assumption|].
    intros _ _ s0 F. destruct (scan_update_cases scanId (failedData (clock w) e) w s0 F)
      as [(w2 & U2 & F2 & _) | (e2 & w2 & U2 & _)]; rewrite U2 in U'.
    + now injection U' as _ <-.
    + discriminate.
Qed.

Lemma lastResort_outcome scanId (e : exn) (w w' : World) (r : exn + unit) :
  lastResort scanId e w = (r, w') ->
  r = inr tt
  /\ projects w' = projects w /\ urls w' = urls w /\ results w' = results w
  /\ rewritten scanId (scans w) (scans w').
Proof.
  unfold try_catch, bind, new_Date, ret. simpl.
  destruct (scan_update scanId (failedData (clock w) e) w) as [[e'|s] w1] eqn:U;
    intros [= <- <-];
    apply scan_update_outcome in U as (P & Ur & R & _ & _ & S);
    (split; [reflexivity|]); (split; [assumption|]); (split; [assumption|]);
    (split; [assumption|]).
  - rewrite S. apply rewritten_refl.
  - now destruct S.
Qed.

Lemma processScan_frame scanId url opts isRescan (w w' : World) (r : exn + unit) :
  processScan' scanId url opts isRescan w = (r, w') ->
  projects w' = projects w /\ urls w' = urls w
  /\ rewritten scanId (scans w) (scans w').
Proof.
  rewrite processScan_steps.
  destruct (analyze' url opts) as [e|found].
  { intros H. apply onError_outcome in H as (_ & P & U & _ & S & _). auto. }
  destruct (persist scanId isRescan (fst found) w) as [[e|u] w1] eqn:Ps;
    pose proof (persist_scanSide scanId isRescan (fst found) w) as K;
    rewrite Ps in K; unfold scanSide in K; simpl in K;
    injection K as P1 U1 S1 _ _ _.
  { intros H. apply onError_outcome in H as (_ & P & U & _ & S & _).
    rewrite <- S1. split; [congruence|]. split; [congruence | assumption]. }
  destruct (scan_update scanId _ w1) as [[e|s] w2] eqn:Up;
    apply scan_update_outcome in Up as (P2 & U2 & _ & _ & _ & S2).
  - intros H. apply onError_outcome in H as (_ & P & U & _ & S & _).
    rewrite <- S1, <- S2. split; [congruence|]. split; [congruence | assumption].
  - intros [= <- <-]. destruct S2 as (S2 & _).
    rewrite <- S1. split; [congruence|]. split; [congruence | assumption].
Qed.

Lemma background_frame (t : Task) (w w' : World) (r : exn + unit) :
  background' t w = (r, w') ->
  projects w' = projects w /\ urls w' = urls w
  /\ rewritten (task_scanId t) (scans w) (scans w').
Proof.
  unfold background. unfold try_catch at 1.
  destruct (processScan' (task_scanId t) (task_url t) (task_options t)
              (task_isRescan t) w) as [[e|u] w1] eqn:P;
    pose proof (processScan_frame _ _ _ _ _ _ _ P) as (Pj & Ur & S).
  - intros H. apply lastResort_outcome in H as (_ & Pj2 & Ur2 & _ & S2).
    split; [congruence|]. split; [congruence|].
    exact (rewritten_trans _ _ _ _ S S2).
  - intros [= <- <-]. auto.
Qed.

(** X5: the background task always finishes without throwing, and touches
    no project, no url and no scan but its own: the [Scan] table has
    the same ids in the same order, and every scan with another id
    than that of the task is as it was. *)
Theorem task_touches_only_its_scan (t : Task) (w w' : World) (r : exn + unit) :
  background' t w = (r, w') ->
  r = inr tt
  /\ projects w' = projects w /\ urls w' = urls w
  /\ map Scan.id (scans w') = map Scan.id (scans w)
  /\ rewritten (task_scanId t) (scans w) (scans w').
Proof.
  unfold background. unfold try_catch at 1.
  destruct (processScan' (task_scanId t) (task_url t) (task_options t)
              (task_isRescan t) w) as [[e|u] w1] eqn:P;
    pose proof (processScan_frame _ _ _ _ _ _ _ P) as (Pj & Ur & S).
  - intros H. apply lastResort_outcome in H as (-> & Pj2 & Ur2 & _ & S2).
    pose proof (rewritten_trans _ _ _ _ S S2) as T.
    split; [reflexivity|]. split; [congruence|]. split; [congruence|].
    split; [|exact T].
    clear - T. induction T as [|a b l l' (I & _) _ IH]; simpl; congruence.
  - intros [= <- <-]. destruct u. split; [reflexivity|].
    split; [assumption|]. split; [assumption|]. split; [|exact S].
    clear - S. induction S as [|a b l l' (I & _) _ IH]; simpl; congruence.
Qed.

(** X6: a fresh scan that fails has stored none of its findings or all of
    them, never a part; it has stored all of them when the insertion
    went through and the write of the completed status did not. *)
Theorem failed_fresh_scan_stores_none_or_all (scanId url : string)
    (opts : ComplianceOptions) (w w' : World) (e : exn) :
  processScan' scanId url opts false w = (inl e, w') ->
  results w' = results w
  \/ exists ar method rows,
       analyze' url opts = inr (ar, method)
       /\ Forall2 (storedAs scanId) (analysis_results ar) rows
       /\ results w' = (results w ++ rows)%list.
Proof.
  rewrite processScan_steps.
  destruct (analyze' url opts) as [e0|[ar method]] eqn:A.
  { intros H. apply onError_outcome in H as (_ & _ & _ & R & _). now left. }
  cbn [fst snd].
  destruct (persist scanId false ar w) as [[e1|u] w1] eqn:P.
  - intros H. apply onError_outcome in H as (_ & _ & _ & R & _). left.
    rewrite R. clear - P.
    destruct (analysis_results ar) as [|a l]; simpl in P.
    + now injection P as _ <-.
    + pose proof (result_createMany_rejected
                    (map (createData scanId) (a :: l)) w) as K.
      simpl in K. rewrite P in K. exact K.
  - apply persist_fresh_run in P as (rows & B & R1).
    destruct (scan_update scanId _ w1) as [[e2|s] w2] eqn:U; [|discriminate].
    intros H. apply onError_outcome in H as (_ & _ & _ & R & _).
    right. exists ar, method, rows. split; [reflexivity|].
    split; [now apply buildRows_storedAs in B|].
    apply scan_update_outcome in U as (_ & _ & R2 & _). congruence.
Qed.
End Tasks.

(** ** The rows a reconciliation leaves alone *)

Lemma filter_Forall2 {X : Type} (p : X -> bool) (R : X -> X -> Prop)
    (l l' : list X) :
  Forall2 R l l' ->
  (forall x y, In x l -> R x y -> p y = p x /\ (p x = true -> y = x)) ->
  filter p l' = filter p l.
Proof.
  intros F. induction F as [|x y l l' Rxy _ IH]; simpl; intros H; [reflexivity|].
  destruct (H x y (or_introl eq_refl) Rxy) as (E & Q). rewrite E.
  assert (T : filter p l' = filter p l)
    by (apply IH; intros a b I; apply H; now right).
  destruct (p x); [|exact T]. now rewrite Q, T.
Qed.

Lemma filter_filter_disjoint {X : Type} (p q : X -> bool) (l : list X) :
  (forall x, In x l -> p x = true -> q x = true) ->
  filter p (filter q l) = filter p l.
Proof.
  induction l as [|x l IH]; simpl; intros H; [reflexivity|].
  destruct (q x) eqn:Q; simpl.
  - destruct (p x); [f_equal|]; apply IH; intros y I; apply H; now right.
  - destruct (p x) eqn:P.
    + rewrite (H x) in Q; [discriminate | now left | assumption].
    + apply IH. intros y I. apply H. now right.
Qed.

(** The rows of a committed diff: the rows kept, each under the patches
    addressed to it, then the rows inserted. *)
Lemma commit_shape (s : string) (R2 : list AccessibilityResult.t)
    (c : nat) (t : Z) (rows rows' : list Result.t) :
  NoDup (map Result.id rows) ->
  commit s (computeDiff (rowsOf s rows) R2 t) c t rows = Some rows' ->
  let d := computeDiff (rowsOf s rows) R2 t in
  exists kept' added,
    rows' = (kept' ++ added)%list
    /\ Forall2 (fun r r' => patchRow (toUpdate d) r = Some r')
               (filter (fun r => negb (id_in (toRemove d) r)) rows) kept'
    /\ Forall2 (storedAs s) (toAdd d) added.
Proof.
  intros N H d. subst d. unfold commit in H.
  destruct (buildRows c t _) as [added|] eqn:B; [|discriminate].
  assert (N1 : NoDup (map Result.id (rowsOf s rows)))
    by now apply distinct_after_filter.
  apply applyPatches_app in H as (kept' & H & ->).
  - exists kept', added. split; [reflexivity|]. split.
    + apply applyPatches_each; [|exact H]. now apply distinct_after_filter.
    + now apply buildRows_storedAs in B.
  - intros p Ip. destruct (patched_rows _ _ _ _ Ip) as (_ & _ & e & Ie & E & M).
    apply existsb_exists. exists e. split; [|now apply String.eqb_eq].
    apply lastOnly_incl in Ie.
    apply filter_In in Ie as (Ie & _). apply filter_In. split; [assumption|].
    apply negb_true_iff, not_true_is_false. intros Q.
    apply (never_removed_and_patched _ _ _ p N1 Ip). unfold id_in in Q.
    apply existsb_exists in Q as (i & Ii & Q). apply String.eqb_eq in Q.
    congruence.
Qed.

(** X7: a reconciliation, committed or rolled back, leaves the rows of
    every other scan as they are, ids being unique; it touches no
    project, url or scan. *)
Theorem rescan_leaves_other_scans (scanId : string)
    (newResults : list AccessibilityResult.t) (w w' : World) (r : exn + unit) :
  NoDup (map Result.id (results w)) ->
  handleRescanDiff scanId newResults w = (r, w') ->
  rowsOfOthers scanId (results w') = rowsOfOthers scanId (results w)
  /\ projects w' = projects w /\ urls w' = urls w /\ scans w' = scans w.
Proof.
  intros N H.
  pose proof (handleRescanDiff_scanSide scanId newResults w) as K.
  rewrite H in K. unfold scanSide in K. simpl in K. injection K as P U S _ _ _.
  split; [|auto].
  apply handleRescanDiff_run in H. destruct r as [e|u].
  { unfold tables in H. injection H as _ _ _ ->. reflexivity. }
  fold (rowsOf scanId (results w)) in H.
  destruct (commit_shape _ _ _ _ _ _ N H) as (kept' & added & -> & Kp & Ad).
  set (d := computeDiff (rowsOf scanId (results w)) newResults (clock w)) in *.
  assert (N1 : NoDup (map Result.id (rowsOf scanId (results w))))
    by now apply distinct_after_filter.
  assert (Own : forall i e, In e (lastOnly (rowsOf scanId (results w))) ->
                  Result.id e = i ->
                  forall x, In x (results w) -> Result.id x = i ->
                    Result.scanId x = scanId).
  { intros i e Ie E x Ix Ex. apply lastOnly_incl in Ie.
    apply filter_In in Ie as (Ie & Q). apply String.eqb_eq in Q.
    assert (x = e) by (apply (NoDup_map_eq Result.id (results w) x e N); congruence).
    now subst x. }
  unfold rowsOfOthers. rewrite filter_app.
  rewrite (filter_none _ added), app_nil_r.
  2:{ intros x Ix. destruct (Forall2_right _ _ _ _ Ad Ix) as (n & _ & Sc & _).
      rewrite Sc, String.eqb_refl. reflexivity. }
  rewrite (filter_Forall2 _ _ _ _ Kp).
  - apply filter_filter_disjoint. intros x Ix Q.
    apply negb_true_iff, not_true_is_false. intros Rm.
    apply existsb_exists in Rm as (i & Ii & E). apply String.eqb_eq in E.
    apply removed_rows in Ii as (e & Ie & Ei & _).
    rewrite (Own i e Ie Ei x Ix E), String.eqb_refl in Q. discriminate.
  - intros x y Ix Pxy. apply filter_In in Ix as (Ix & _).
    pose proof (patchRow_identity _ _ _ Pxy) as (_ & Sc & _).
    split; [now rewrite Sc|]. intros Q.
    rewrite patchRow_skip in Pxy; [now injection Pxy|].
    intros p Ip E. apply patched_rows in Ip as (_ & _ & e & Ie & Ei & _).
    rewrite (Own _ e Ie Ei x Ix (eq_sym E)), String.eqb_refl in Q. discriminate.
Qed.

Import RescanRoute RescanSpec.

(** ** [POST /api/projects/[id]/rescan]: every answer *)

Lemma project_findUnique_outcome (id : string) (w w' : World)
    (r : exn + option ProjectWithRelations) :
  project_findUnique id w = (r, w') ->
  tables w' = tables w /\ scanFaults w' = scanFaults w
  /\ counter w' = counter w /\ clock w' = clock w
  /\ match r with
     | inl _ => True
     | inr None => True
     | inr (Some p) =>
         Project.id (project p) = id
         /\ In (project p) (projects w)
         /\ project_urls p
            = filter (fun u => String.eqb (Url.projectId u) id) (urls w)
         /\ project_scans p
            = newest_first
                (filter (fun s => String.eqb (Scan.projectId s) id) (scans w))
     end.
Proof.
  unfold project_findUnique, bind, call. simpl.
  destruct (projectFaults w) as [|[e|] rest]; simpl; intros [= <- <-]; simpl;
    try (repeat split; reflexivity);
    (repeat (split; [reflexivity|]));
    (destruct (find _ (projects w)) as [pr|] eqn:F; [|exact I]);
    apply find_some in F as (F1 & F2); apply String.eqb_eq in F2; simpl; auto.
Qed.

Lemma rescanUrl_outcome (p : ProjectWithRelations) (u : Url.t) (w w' : World)
    (r : exn + ScanEntry * ScanRequest) :
  rescanUrl p u w = (r, w') ->
  projects w' = projects w /\ urls w' = urls w /\ results w' = results w
  /\ (exists created,
        scans w' = (scans w ++ created)%list
        /\ Forall (createdPending (Project.id (project p))) created
        /\ Forall (fun c => exists k, Scan.id c = cuid_of k
                                      /\ counter w <= k < counter w') created)
  /\ counter w <= counter w'
  /\ settledFor p w' u r.
Proof.
  unfold rescanUrl, settledFor, handled.
  destruct (find (fun scan => String.eqb (Scan.url scan) (Url.url u)) (project_scans p))
    as [sc|] eqn:F.
  - unfold bind, ret. simpl. intros [= <- <-]. simpl.
    repeat (split; [reflexivity|]). split.
    { exists []. rewrite app_nil_r. repeat constructor. }
    split; [lia|]. auto 10.
  - unfold bind at 1. unfold bind at 1.
    destruct (scan_create _ w) as [[e|s] w1] eqn:C;
      apply scan_create_outcome in C as (Pj & Ur & Rs & _ & O).
    + intros [= <- <-]. destruct O as (Sc & Cn).
      repeat (split; [assumption|]). split.
      { exists []. rewrite app_nil_r. repeat constructor. assumption. }
      split; [lia | reflexivity].
    + unfold ret. intros [= <- <-]. destruct O as (-> & Sc & Cn). simpl.
      repeat (split; [assumption|]). split.
      { eexists. split; [exact Sc|]. split.
        - constructor; [|constructor]. split; reflexivity.
        - constructor; [|constructor]. exists (counter w). simpl. split; [reflexivity | lia]. }
      split; [lia|].
      repeat (split; [reflexivity|]). eexists. split.
      * rewrite Sc. apply in_or_app. right. now left.
      * simpl. auto.
Qed.

Lemma settledFor_mono (p : ProjectWithRelations) (w1 w2 : World) u o :
  (forall x, In x (scans w1) -> In x (scans w2)) ->
  settledFor p w1 u o -> settledFor p w2 u o.
Proof.
  destruct o as [e|o]; simpl; [auto|]. apply handled_mono.
Qed.

Lemma mapAll_outcome (p : ProjectWithRelations) (l : list Url.t) (w : World) :
  exists settled w',
    mapAll (rescanUrl p) l w = (inr settled, w')
    /\ projects w' = projects w /\ urls w' = urls w /\ results w' = results w
    /\ (exists created,
          scans w' = (scans w ++ created)%list
          /\ Forall (createdPending (Project.id (project p))) created
          /\ Forall (fun c => exists k, Scan.id c = cuid_of k
                                        /\ counter w <= k < counter w') created)
    /\ counter w <= counter w'
    /\ Forall2 (settledFor p w') l settled.
Proof.
  revert w. induction l as [|u l IH]; intros w; simpl.
  - exists [], w. unfold ret. repeat (split; [reflexivity|]). split.
    { exists []. rewrite app_nil_r. repeat constructor. }
    split; [lia | constructor].
  - destruct (rescanUrl p u w) as [r w1] eqn:R.
    pose proof (rescanUrl_outcome p u w w1 r R)
      as (P1 & U1 & R1 & (c1 & S1 & K1 & I1) & N1 & H1).
    destruct (IH w1) as (settled & w2 & M & P2 & U2 & R2 & (c2 & S2 & K2 & I2) & N2 & H2).
    exists (r :: settled), w2.
    unfold bind at 1. unfold try_catch, bind at 1. rewrite R.
    assert (E : (match r with
                 | inl e => ret (inl e) w1
                 | inr a => ret (inr a) w1
                 end) = (inr r, w1)) by (destruct r; reflexivity).
    destruct r as [e|o]; unfold ret at 1; unfold bind at 1; rewrite M; unfold ret;
      (split; [reflexivity|]); (split; [congruence|]); (split; [congruence|]);
      (split; [congruence|]);
      (split;
       [exists (c1 ++ c2)%list; split; [now rewrite S2, S1, app_assoc|];
        split; [apply Forall_app; auto|];
        apply Forall_app; split;
        [refine (Forall_impl _ _ I1); intros c (k & Ek & Lk); exists k; split; [assumption | lia]
        |refine (Forall_impl _ _ I2); intros c (k & Ek & Lk); exists k; split; [assumption | lia]]|]);
      (split; [lia|]);
      (constructor; [|assumption]);
      (apply (settledFor_mono p w1); [|assumption]);
      intros x Ix; rewrite S2; apply in_or_app; now left.
Qed.

Lemma all_or_rejected {B : Type} (l : list (exn + B)) :
  (exists bs, all l = inr bs /\ l = map inr bs /\ fulfilled l = bs)
  \/ (exists e, all l = inl e /\ In (inl e) l).
Proof.
  induction l as [|[e|b] l IH]; simpl.
  - left. exists []. auto.
  - right. exists e. auto.
  - destruct IH as [(bs & A & E & F) | (e & A & I)].
    + left. exists (b :: bs). rewrite A, F. simpl. split; [reflexivity|].
      split; [now rewrite E | reflexivity].
    + right. exists e. rewrite A. auto.
Qed.

(** X8: the route always answers, with 200, 400, 404, 409 or 500.  It
    changes no project, url or finding and no scan that exists: it may
    only append scans, each pending and of this project.  With 400,
    404 or 409 it has appended none and triggered no analysis. *)
Theorem rescan_every_answer (id : string) (w : World) :
  exists resp triggers w' created,
    RescanRoute.POST id w = (inr (resp, triggers), w')
    /\ In (status resp) [200; 400; 404; 409; 500]
    /\ projects w' = projects w /\ urls w' = urls w /\ results w' = results w
    /\ scans w' = (scans w ++ created)%list
    /\ Forall (createdPending id) created
    /\ (In (status resp) [400; 404; 409] -> created = [] /\ triggers = [])
    /\ (status resp = 200 ->
        length triggers
        = length (filter (fun u => String.eqb (Url.projectId u) id) (urls w))).
Proof.
  unfold RescanRoute.POST, try_catch. unfold bind at 1.
  destruct (project_findUnique id w) as [[e|[p|]] w1] eqn:F;
    apply project_findUnique_outcome in F as (T & Q & Cn & Ck & O);
    unfold tables in T; injection T as Pj Ur Sc Rs.
  - do 3 eexists. exists []. split; [reflexivity|]. simpl. rewrite app_nil_r.
    intuition (try discriminate; auto).
  - destruct O as (Ip & _ & Us & Ss).
    destruct (Nat.eqb (length (project_urls p)) 0) eqn:L.
    { do 3 eexists. exists []. split; [reflexivity|]. simpl. rewrite app_nil_r.
      intuition (try discriminate; auto). }
    destruct (Nat.ltb 0 (length (filter isPending (project_scans p)))) eqn:Pn.
    { do 3 eexists. exists []. split; [reflexivity|]. simpl. rewrite app_nil_r.
      intuition (try discriminate; auto). }
    destruct (mapAll_outcome p (project_urls p) w1)
      as (settled & w2 & M & P2 & U2 & R2 & (created & S2 & K2 & _) & _ & H2).
    unfold bind at 1. rewrite M. rewrite Ip in K2.
    destruct (all_or_rejected settled) as [(bs & A & E & Fu) | (e & A & _)]; rewrite A.
    + do 3 eexists. exists created. split; [reflexivity|]. simpl.
      split; [auto|]. split; [congruence|]. split; [congruence|].
      split; [congruence|]. split; [now rewrite S2, Sc|].
      split; [assumption|]. split.
      { intros [X|[X|[X|[]]]]; discriminate. }
      intros _. rewrite length_map, Fu, <- Us.
      apply Forall2_length in H2. rewrite H2, E. now rewrite length_map.
    + do 3 eexists. exists created. split; [reflexivity|]. simpl.
      split; [auto 6|]. split; [congruence|]. split; [congruence|].
      split; [congruence|]. split; [now rewrite S2, Sc|].
      split; [assumption|]. split.
      { intros [X|[X|[X|[]]]]; discriminate. }
      discriminate.
  - do 3 eexists. exists []. split; [reflexivity|]. simpl. rewrite app_nil_r.
    intuition (try discriminate; auto).
Qed.

(** X9: for a project with urls and no scan pending or in progress: each
    url whose scan was found or created has its entry and its posted
    body, also when the answer is 500; the answer is 500 exactly when
    the creation of some scan was rejected, and 200 otherwise. *)
Theorem rescan_triggers_what_it_settled (id : string) (w w1 : World)
    (p : ProjectWithRelations) :
  project_findUnique id w = (inr (Some p), w1) ->
  project_urls p <> [] ->
  existsb isPending (project_scans p) = false ->
  exists resp settled w',
    RescanRoute.POST id w = (inr (resp, map snd (fulfilled settled)), w')
    /\ Forall2 (settledFor p w') (project_urls p) settled
    /\ ((status resp = 200 /\ forall e, ~ In (inl e) settled)
        \/ (status resp = 500 /\ exists e, In (inl e) settled)).
Proof.
  intros F U E.
  assert (L : Nat.eqb (length (project_urls p)) 0 = false).
  { destruct (project_urls p); [congruence | reflexivity]. }
  unfold RescanRoute.POST, try_catch. unfold bind at 1. rewrite F, L.
  rewrite pending_exists, E.
  destruct (mapAll_outcome p (project_urls p) w1)
    as (settled & w2 & M & _ & _ & _ & _ & _ & H2).
  unfold bind at 1. rewrite M.
  destruct (all_or_rejected settled) as [(bs & A & Es & Fu) | (e & A & I)]; rewrite A.
  - do 3 eexists. split; [reflexivity|]. split; [exact H2|]. left.
    split; [reflexivity|]. intros e I. rewrite Es in I.
    apply in_map_iff in I as (b & Q & _). discriminate.
  - do 3 eexists. split; [reflexivity|]. split; [exact H2|]. right.
    split; [reflexivity | eauto].
Qed.

(** ** A rescan, the analysis it triggers, and the next rescan *)

Lemma cuid_of_inj (n m : nat) : cuid_of n = cuid_of m -> n = m.
Proof.
  unfold cuid_of. simpl. intros [= E]. apply string_of_Z_inj in E. lia.
Qed.

Lemma fulfilled_in {B : Type} (l : list (exn + B)) (b : B) :
  In b (fulfilled l) <-> In (inr b) l.
Proof.
  induction l as [|[e|x] l IH]; simpl; [tauto| |].
  - rewrite IH. split; [auto | intros [Q|Q]; [discriminate | assumption]].
  - rewrite IH. split; [intros [->|Q]; auto | intros [[= ->]|Q]; auto].
Qed.

Lemma rewritten_keeps (id : string) (before after : list Scan.t) (c : Scan.t) :
  rewritten id before after -> In c before -> Scan.id c <> id -> In c after.
Proof.
  intros R I N. destruct (Forall2_left _ _ _ _ R I) as (c' & I' & _ & K).
  now rewrite <- (K N).
Qed.

(** A project with a scan pending is refused: 409, or 500 when the
    read of the project is rejected; nothing is triggered. *)
Lemma rescan_refused (id : string) (w : World) (c : Scan.t) :
  In c (scans w) -> Scan.projectId c = id -> isPending c = true ->
  (exists u, In u (urls w) /\ Url.projectId u = id) ->
  (exists pr, In pr (projects w) /\ Project.id pr = id) ->
  exists resp w',
    RescanRoute.POST id w = (inr (resp, []), w')
    /\ (status resp = 409 \/ status resp = 500)
    /\ (projectFaults w = [] -> status resp = 409).
Proof.
  intros Ic Pc Pn (u & Iu & Pu) (pr & Ipr & Epr).
  unfold RescanRoute.POST, try_catch. unfold bind at 1.
  unfold project_findUnique, bind, call. simpl.
  assert (F : exists pr', find (fun p => String.eqb (Project.id p) id) (projects w)
                          = Some pr').
  { apply existsb_find. apply existsb_exists. exists pr.
    split; [assumption | now apply String.eqb_eq]. }
  destruct F as (pr' & F).
  assert (L : Nat.eqb (length (filter (fun u => String.eqb (Url.projectId u) id)
                                      (urls w))) 0 = false).
  { destruct (filter _ (urls w)) as [|x l] eqn:E; [|reflexivity].
    assert (I : In u (filter (fun u => String.eqb (Url.projectId u) id) (urls w))).
    { apply filter_In. split; [assumption | now apply String.eqb_eq]. }
    rewrite E in I. destruct I. }
  assert (P : Nat.ltb 0 (length (filter isPending
                (newest_first (filter (fun s => String.eqb (Scan.projectId s) id)
                                      (scans w))))) = true).
  { rewrite pending_exists. apply existsb_exists. exists c. split; [|assumption].
    unfold newest_first. apply (Permutation_in c (Permutation_sym (sort_perm _ _))).
    apply filter_In. split; [assumption | now apply String.eqb_eq]. }
  destruct (projectFaults w) as [|[e|] rest]; simpl; rewrite ?F; simpl;
    rewrite ?L, ?P; unfold ret; do 2 eexists;
    (split; [reflexivity|]); simpl; (split; [auto|]); try discriminate; auto.
Qed.

Lemma post_scans_fresh (req : ScanRequest) (w w' : World)
    (answer : Response ScanBody) (t : Task) :
  ScansRoute.POST req w = (inr (answer, Some t), w') ->
  req_scanId req = None ->
  exists s,
    scans w' = (scans w ++ [s])%list
    /\ task_scanId t = cuid_of (counter w)
    /\ projects w' = projects w /\ urls w' = urls w
    /\ counter w' = S (counter w).
Proof.
  unfold ScansRoute.POST, try_catch. intros H N. rewrite N in H. simpl in H.
  destruct (negb (given (req_projectId req)) || negb (given (req_url req)));
    [discriminate|].
  unfold bind at 1 in H. unfold bind at 1 in H. unfold new_Date in H.
  match type of H with
  | context [scan_create ?d ?v] =>
      destruct (scan_create d v) as [[e|s] w1] eqn:C;
      apply scan_create_outcome in C as (Pj & Ur & _ & _ & K)
  end; [discriminate|].
  destruct K as (Es & Sc & Cn). injection H as _ <- <-. simpl.
  exists s. subst s. simpl. auto.
Qed.

Section Blocked.
Variable simpleAnalyze : string -> ComplianceOptions -> exn + AnalysisResult.
Variable playwrightAnalyze : string -> PlaywrightOptions -> exn + AnalysisResult.
Variable htmlAnalyze : string -> ComplianceOptions -> exn + AnalysisResult.

Local Abbreviation background' :=
  (background simpleAnalyze playwrightAnalyze htmlAnalyze).

(** X10: when a rescan is accepted and one of its urls had no scan, the
    body posted for that url names no scan.  [POST /api/scans] then
    creates a second scan for the url, and its analysis runs on that
    one: the scan that the rescan created stays pending, and the next
    rescan of the project is refused (409; 500 when its read of the
    project is rejected) and triggers nothing. *)
Theorem unscanned_url_blocks_the_next_rescan (id : string)
    (w w1 w2 w3 : World) (resp : Response RescanBody)
    (triggers : list ScanRequest) (req : ScanRequest)
    (answer : Response ScanBody) (t : Task) (r : exn + unit) :
  RescanRoute.POST id w = (inr (resp, triggers), w1) ->
  status resp = 200 ->
  In req triggers -> req_scanId req = None ->
  ScansRoute.POST req w1 = (inr (answer, Some t), w2) ->
  background' t w2 = (r, w3) ->
  (exists c, In c (scans w3) /\ Scan.projectId c = id
             /\ Scan.status c = "pending" /\ Scan.id c <> task_scanId t)
  /\ exists resp' w4,
       RescanRoute.POST id w3 = (inr (resp', []), w4)
       /\ (status resp' = 409 \/ status resp' = 500)
       /\ (projectFaults w3 = [] -> status resp' = 409).
Proof.
  intros H S Ir Ns Hp Hb.
  (* the first rescan *)
  unfold RescanRoute.POST, try_catch in H. unfold bind at 1 in H.
  destruct (project_findUnique id w) as [[e|[p|]] w0] eqn:F.
  { injection H as <- _ _. discriminate. }
  2:{ injection H as <- _ _. discriminate. }
  apply project_findUnique_outcome in F as (T & _ & Cn0 & _ & Ip & Ipr & Us & Ss).
  unfold tables in T. injection T as Pj Ur Sc Rs.
  destruct (Nat.eqb (length (project_urls p)) 0) eqn:L.
  { injection H as <- _ _. discriminate. }
  destruct (Nat.ltb 0 (length (filter isPending (project_scans p)))) eqn:Pn.
  { injection H as <- _ _. discriminate. }
  destruct (mapAll_outcome p (project_urls p) w0)
    as (settled & w0' & M & P1 & U1 & R1 & (created & S1 & K1 & I1) & Cn1 & H1).
  unfold bind at 1 in H. rewrite M in H.
  assert (Tr : triggers = map snd (fulfilled settled) /\ w0' = w1).
  { destruct (all settled); injection H as _ <- <-; auto. }
  destruct Tr as (-> & ->). clear H.
  apply in_map_iff in Ir as (o & <- & Io). apply fulfilled_in in Io.
  destruct (Forall2_right _ _ _ _ H1 Io) as (u & Iu & Hu). simpl in Hu.
  destruct Hu as (_ & Rp & Ru & Hu).
  destruct (find _ (project_scans p)) as [sc|] eqn:Fd.
  { destruct Hu as (_ & _ & Q). congruence. }
  destruct Hu as (_ & _ & c & Ic & Ec & Pc & Uc & Stc).
  (* the scan it created *)
  assert (Old : ~ In c (scans w0)).
  { intros I. rewrite pending_exists in Pn. apply not_true_iff_false in Pn.
    apply Pn. apply existsb_exists. exists c. split.
    - rewrite Ss. unfold newest_first.
      apply (Permutation_in c (Permutation_sym (sort_perm _ _))).
      apply filter_In. rewrite <- Sc. split; [assumption|].
      apply String.eqb_eq. congruence.
    - unfold isPending. now rewrite Stc. }
  assert (New : exists k, Scan.id c = cuid_of k /\ k < counter w1).
  { rewrite S1 in Ic. apply in_app_or in Ic as [Ic|Ic]; [contradiction|].
    rewrite Forall_forall in I1. destruct (I1 c Ic) as (k & E & _ & Lt). eauto. }
  destruct New as (k & Ek & Lk).
  (* the scan of the posted body *)
  destruct (post_scans_fresh _ _ _ _ _ Hp Ns) as (s & S2 & Et & P2 & U2 & C2).
  pose proof (background_frame _ _ _ _ _ _ _ Hb) as (P3 & U3 & S3).
  assert (Ne : Scan.id c <> task_scanId t).
  { rewrite Ek, Et. intros Q. apply cuid_of_inj in Q. lia. }
  assert (I3 : In c (scans w3)).
  { apply (rewritten_keeps (task_scanId t) (scans w2)); [assumption| |assumption].
    rewrite S2. apply in_or_app. left. exact Ic. }
  split.
  { exists c. split; [assumption|]. split; [congruence|]. split; assumption. }
  apply (rescan_refused id w3 c I3).
  - congruence.
  - unfold isPending. now rewrite Stc.
  - exists u. rewrite U3, U2, U1, Ur. rewrite Us in Iu.
    apply filter_In in Iu as (Iu & Q). apply String.eqb_eq in Q.
    split; [assumption | congruence].
  - exists (project p). rewrite P3, P2, P1, Pj. auto.
Qed.
End Blocked.

(** ** The newest scan *)

Lemma newest_first_sorted (rows : list Scan.t) :
  StronglySorted (fun a b => (Scan.createdAt b <= Scan.createdAt a)%Z)
                 (newest_first rows).
Proof.
  apply Sorted_StronglySorted; [intros a b c; lia|].
  unfold newest_first.
  apply (Sorted_iff (fun a b => (Scan.createdAt b - Scan.createdAt a <= 0)%Z)).
  - intros a b. lia.
  - apply sort_sorted. intros x y. lia.
Qed.

Lemma find_first_of_sorted {A : Type} (R : A -> A -> Prop) (f : A -> bool)
    (l : list A) (x : A) :
  StronglySorted R l -> find f l = Some x ->
  In x l /\ f x = true /\ forall y, In y l -> f y = true -> y = x \/ R x y.
Proof.
  induction 1 as [|a l S IH F]; simpl; [discriminate|].
  destruct (f a) eqn:Fa.
  - intros [= <-]. split; [now left|]. split; [assumption|].
    intros y [<-|I] _; [now left | right]. rewrite Forall_forall in F. auto.
  - intros Fd. destruct (IH Fd) as (I & Fx & M). split; [now right|].
    split; [assumption|]. intros y [<-|Iy] Fy; [congruence | auto].
Qed.

Lemma newest_of (keep : Scan.t -> bool) (rows : list Scan.t) (s : Scan.t) :
  In s (newest_first (filter keep rows)) ->
  In s rows /\ keep s = true.
Proof.
  unfold newest_first. intros I. apply (Permutation_in _ (sort_perm _ _)) in I.
  now apply filter_In in I.
Qed.

Lemma in_newest (keep : Scan.t -> bool) (rows : list Scan.t) (s : Scan.t) :
  In s rows -> keep s = true -> In s (newest_first (filter keep rows)).
Proof.
  unfold newest_first. intros I K.
  apply (Permutation_in _ (Permutation_sym (sort_perm _ _))).
  now apply filter_In.
Qed.

(** X11: the scan a rescan resets for a url is the most recent scan of the
    project for that url: a body posted to [/api/scans] that names a
    scan names one of the project with the url of the body, neither
    pending nor in progress, and no scan of the project for that url
    was created after it. *)
Theorem rescan_resets_the_newest_scan (id : string) (w w' : World)
    (resp : Response RescanBody) (triggers : list ScanRequest)
    (req : ScanRequest) (scanId : string) :
  RescanRoute.POST id w = (inr (resp, triggers), w') ->
  In req triggers -> req_scanId req = Some scanId ->
  exists s,
    In s (scans w) /\ Scan.id s = scanId /\ Scan.projectId s = id
    /\ req_url req = Some (Scan.url s) /\ req_projectId req = Some id
    /\ isPending s = false
    /\ forall other, In other (scans w) -> Scan.projectId other = id ->
         Scan.url other = Scan.url s ->
         (Scan.createdAt other <= Scan.createdAt s)%Z.
Proof.
  intros H Ir Es.
  unfold RescanRoute.POST, try_catch in H. unfold bind at 1 in H.
  destruct (project_findUnique id w) as [[e|[p|]] w0] eqn:F.
  { injection H as _ <- _. destruct Ir. }
  2:{ injection H as _ <- _. destruct Ir. }
  apply project_findUnique_outcome in F as (T & _ & _ & _ & Ip & _ & _ & Ss).
  destruct (Nat.eqb (length (project_urls p)) 0) eqn:L.
  { injection H as _ <- _. destruct Ir. }
  destruct (Nat.ltb 0 (length (filter isPending (project_scans p)))) eqn:Pn.
  { injection H as _ <- _. destruct Ir. }
  destruct (mapAll_outcome p (project_urls p) w0)
    as (settled & w0' & M & _ & _ & _ & _ & _ & H1).
  unfold bind at 1 in H. rewrite M in H.
  assert (Tr : triggers = map snd (fulfilled settled)).
  { destruct (all settled); injection H as _ <- _; reflexivity. }
  subst triggers. clear H.
  apply in_map_iff in Ir as (o & <- & Io). apply fulfilled_in in Io.
  destruct (Forall2_right _ _ _ _ H1 Io) as (u & Iu & Hu). simpl in Hu.
  destruct Hu as (_ & Rp & Ru & Hu).
  destruct (find _ (project_scans p)) as [s|] eqn:Fd;
    [|destruct Hu as (_ & Q & _); congruence].
  destruct Hu as (_ & _ & Q). rewrite Q in Es. injection Es as <-.
  rewrite Ss in Fd.
  apply (find_first_of_sorted _ _ _ _ (newest_first_sorted _)) in Fd
    as (Is & Eu & Mx).
  pose proof Is as Is'. apply newest_of in Is' as (Iw & Pw).
  apply String.eqb_eq in Pw, Eu.
  exists s. split; [exact Iw|]. split; [reflexivity|]. split; [exact Pw|].
  split; [now rewrite Ru, Eu|]. split; [now rewrite Rp, Ip|]. split.
  { rewrite pending_exists in Pn. destruct (isPending s) eqn:Ps; [|reflexivity].
    rewrite <- Pn. symmetry. apply existsb_exists. exists s.
    split; [now rewrite Ss | exact Ps]. }
  intros other Io' Po Uo.
  destruct (Mx other) as [->|Le]; [| |lia|exact Le].
  - apply in_newest; [exact Io' | now apply String.eqb_eq].
  - apply String.eqb_eq. congruence.
Qed.


(** ** [GET /api/projects] *)

Import ProjectsRoute.

Lemma take_newest (keep : Scan.t -> bool) (rows : list Scan.t) :
  (firstn 1 (newest_first (filter keep rows)) = []
   /\ forall s, In s rows -> keep s = false)
  \/ exists newest,
       firstn 1 (newest_first (filter keep rows)) = [newest]
       /\ In newest rows /\ keep newest = true
       /\ forall s, In s rows -> keep s = true ->
            (Scan.createdAt s <= Scan.createdAt newest)%Z.
Proof.
  pose proof (newest_first_sorted (filter keep rows)) as St.
  pose proof (in_newest keep rows) as Into.
  pose proof (newest_of keep rows) as From.
  destruct (newest_first (filter keep rows)) as [|n l]; [left | right].
  - split; [reflexivity|]. intros s I. destruct (keep s) eqn:K; [|reflexivity].
    destruct (Into s I K).
  - exists n. split; [reflexivity|].
    destruct (From n (or_introl eq_refl)) as (In_ & Kn).
    split; [exact In_|]. split; [exact Kn|]. intros s I K.
    inversion St as [|? ? _ Fa]; subst. rewrite Forall_forall in Fa.
    destruct (Into s I K) as [<-|Is]; [lia | auto].
Qed.

(** X12: the list of projects always answers, with 200 or 500 (only when
    the read is rejected), and writes nothing.  It lists every
    project once, each with the urls of the project and with its
    most recent scan alone: no scan when the project has none,
    otherwise one scan of the project, none of the project having
    been created after it. *)
Theorem projects_are_listed_with_their_newest_scan (w : World) :
  exists resp w',
    ProjectsRoute.GET w = (inr resp, w')
    /\ tables w' = tables w
    /\ (status resp = 200 \/ status resp = 500)
    /\ (status resp = 500 <-> exists e rest, projectFaults w = Some e :: rest)
    /\ (status resp = 500 -> body resp = ErrorJson "Failed to fetch projects")
    /\ (status resp = 200 ->
        exists listed,
          body resp = ProjectsJson listed
          /\ map project listed = projects w
          /\ Forall (fun p =>
               (forall u, In u (project_urls p)
                          <-> In u (urls w)
                              /\ Url.projectId u = Project.id (project p))
               /\ ((project_scans p = []
                    /\ forall s, In s (scans w) ->
                                 Scan.projectId s <> Project.id (project p))
                   \/ exists newest,
                        project_scans p = [newest]
                        /\ In newest (scans w)
                        /\ Scan.projectId newest = Project.id (project p)
                        /\ forall s, In s (scans w) ->
                             Scan.projectId s = Project.id (project p) ->
                             (Scan.createdAt s <= Scan.createdAt newest)%Z))
             listed).
Proof.
  unfold ProjectsRoute.GET, try_catch, project_findMany. unfold bind at 1.
  unfold bind, call. simpl.
  assert (Listed :
    Forall (fun p =>
       (forall u, In u (project_urls p)
                  <-> In u (urls w) /\ Url.projectId u = Project.id (project p))
       /\ ((project_scans p = []
            /\ forall s, In s (scans w) ->
                         Scan.projectId s <> Project.id (project p))
           \/ exists newest,
                project_scans p = [newest]
                /\ In newest (scans w)
                /\ Scan.projectId newest = Project.id (project p)
                /\ forall s, In s (scans w) ->
                     Scan.projectId s = Project.id (project p) ->
                     (Scan.createdAt s <= Scan.createdAt newest)%Z))
      (map (fun p =>
              mkProject p
                (filter (fun u => String.eqb (Url.projectId u) (Project.id p))
                        (urls w))
                (firstn 1
                   (newest_first
                      (filter (fun s => String.eqb (Scan.projectId s)
                                                   (Project.id p))
                              (scans w)))))
           (projects w))).
  { apply Forall_forall. intros p I. apply in_map_iff in I as (p0 & <- & _).
    cbn [project project_urls project_scans]. split.
    - intros u. rewrite filter_In.
      split; intros (A & B); (split; [exact A|]); now apply String.eqb_eq.
    - destruct (take_newest
                  (fun s => String.eqb (Scan.projectId s) (Project.id p0))
                  (scans w)) as [(E & No)|(n & E & I & K & Mx)]; [left | right].
      + split; [exact E|]. intros s Is. apply String.eqb_neq. now apply No.
      + exists n. split; [exact E|]. split; [exact I|].
        split; [now apply String.eqb_eq|]. intros s Is Ps. apply Mx; [exact Is|].
        now apply String.eqb_eq. }
  assert (Names :
    map project
      (map (fun p =>
              mkProject p
                (filter (fun u => String.eqb (Url.projectId u) (Project.id p))
                        (urls w))
                (firstn 1
                   (newest_first
                      (filter (fun s => String.eqb (Scan.projectId s)
                                                   (Project.id p))
                              (scans w)))))
           (projects w)) = projects w).
  { rewrite map_map. simpl. apply map_id. }
  destruct (projectFaults w) as [|[e|] rest] eqn:Pf; simpl; unfold ret;
    do 2 eexists; (split; [reflexivity|]); simpl; (split; [reflexivity|]).
  - split; [now left|]. split; [split; [discriminate|]|].
    { intros (e' & r' & Q). discriminate. }
    split; [discriminate|]. intros _. eexists. split; [reflexivity|].
    split; [exact Names | exact Listed].
  - split; [now right|]. split; [split; [eauto | reflexivity]|].
    split; [reflexivity | discriminate].
  - split; [now left|]. split; [split; [discriminate|]|].
    { intros (e' & r' & Q). discriminate. }
    split; [discriminate|]. intros _. eexists. split; [reflexivity|].
    split; [exact Names | exact Listed].
Qed.

Import ResultsRoute ResultsSpec.

(** ** The listing: answers, pages, filters *)

Import ProjectResults Pages.

(** *** Pages *)

Lemma pages_concat {A : Type} (n t : nat) (l : list A) :
  0 < n -> length l <= t * n ->
  concat (map (fun k => firstn n (skipn (k * n) l)) (seq 0 t)) = l.
Proof.
  intros N. revert l. induction t as [|t IH]; intros l L.
  - destruct l; [reflexivity | simpl in L; lia].
  - cbn [seq map concat]. rewrite <- seq_shift, map_map.
    rewrite (map_ext _ (fun k => firstn n (skipn (k * n) (skipn n l)))).
    + rewrite (IH (skipn n l)); [apply firstn_skipn|].
      rewrite length_skipn. simpl in L. lia.
    + intros k. rewrite skipn_skipn. do 2 f_equal. simpl. lia.
Qed.

Lemma pageRows_slice (tl : string -> string) (lc : string -> string -> Z)
    (q : Query) (scans : list ScanWithResults) (k : Z) :
  pageRows tl lc q scans k
  = slice ((k - 1) * pageSize q) ((k - 1) * pageSize q + pageSize q)
          (listing tl lc q scans).
Proof.
  unfold pageRows, answer, listing, onPage. cbn [body_results page pageSize
    q_sortBy q_search q_severityFilters q_complianceFilters].
  rewrite map_map. simpl. now rewrite map_id.
Qed.

Lemma slice_to_zero {A : Type} (start : Z) (l : list A) :
  slice start 0 l = [].
Proof.
  unfold slice, relative_index. simpl.
  replace (Z.to_nat _) with 0; [reflexivity|].
  destruct (Z.ltb_spec start 0); lia.
Qed.

(** X13: for a positive page size the pages 1 to [totalPages], one after
    the other, are the whole listing, each row once and in order; a
    page holds at most [pageSize] rows, each of these pages holds at
    least one, and page 0 and the pages after the last hold none.
    The total, the summary and the number of pages are those of the
    whole listing on every page. *)
Theorem pages_partition_the_listing (toLowerCase : string -> string)
    (localeCompare : string -> string -> Z) (q : Query)
    (scans : list ScanWithResults) :
  (0 < pageSize q)%Z ->
  exists totalPages,
    (0 <= totalPages)%Z
    /\ (forall k, body_totalPages
                    (answer toLowerCase localeCompare (onPage q k) scans)
                  = Some totalPages
                  /\ body_total
                       (answer toLowerCase localeCompare (onPage q k) scans)
                     = length (listing toLowerCase localeCompare q scans)
                  /\ body_summary
                       (answer toLowerCase localeCompare (onPage q k) scans)
                     = body_summary (answer toLowerCase localeCompare q scans))
    /\ concat (map (fun k => pageRows toLowerCase localeCompare q scans
                               (Z.of_nat k))
                   (seq 1 (Z.to_nat totalPages)))
       = listing toLowerCase localeCompare q scans
    /\ (forall k, (1 <= k)%Z ->
          (Z.of_nat (length (pageRows toLowerCase localeCompare q scans k))
           <= pageSize q)%Z)
    /\ (forall k, (1 <= k <= totalPages)%Z ->
          pageRows toLowerCase localeCompare q scans k <> [])
    /\ (forall k, (totalPages < k)%Z \/ k = 0%Z ->
          pageRows toLowerCase localeCompare q scans k = []).
Proof.
  intros S. set (l := listing toLowerCase localeCompare q scans).
  destruct (ceil_div_spec (Z.of_nat (length l)) (pageSize q) S) as (t & Ct & Bt).
  assert (T0 : (0 <= t)%Z) by nia.
  exists t. split; [exact T0|]. split.
  { intros k. unfold answer. cbn [body_totalPages body_total body_summary onPage
      pageSize q_sortBy q_search q_severityFilters q_complianceFilters].
    fold (listing toLowerCase localeCompare q scans). fold l.
    split; [exact Ct|]. split; reflexivity. }
  assert (P : forall k, (1 <= k)%Z ->
            pageRows toLowerCase localeCompare q scans k
            = firstn (Z.to_nat (pageSize q))
                     (skipn (Z.to_nat ((k - 1) * pageSize q)) l)).
  { intros k K. rewrite pageRows_slice. apply slice_page; nia. }
  split.
  { rewrite <- seq_shift, map_map.
    rewrite (map_ext _ (fun k => firstn (Z.to_nat (pageSize q))
                                   (skipn (k * Z.to_nat (pageSize q)) l))).
    - apply pages_concat; [lia|]. nia.
    - intros k. rewrite P by lia. do 2 f_equal. nia. }
  split.
  { intros k K. rewrite (P k K). rewrite length_firstn. lia. }
  split.
  { intros k K. rewrite P by lia. intros E.
    apply (f_equal (@length _)) in E. rewrite length_firstn, length_skipn in E.
    simpl in E. nia. }
  intros k [K| ->].
  - rewrite P by lia. rewrite skipn_all2 by nia. apply firstn_nil.
  - rewrite pageRows_slice.
    replace ((0 - 1) * pageSize q + pageSize q)%Z with 0%Z by lia.
    apply slice_to_zero.
Qed.


(** *** The filters of the caller *)

Lemma split_comma_nonempty (s : string) : split_comma s <> [].
Proof.
  destruct s as [|c s]; simpl; [discriminate|].
  destruct (Ascii.eqb c ","); [discriminate|].
  destruct (split_comma s); discriminate.
Qed.

Lemma split_comma_free (s : string) : commaFree s = true -> split_comma s = [s].
Proof.
  induction s as [|c s IH]; simpl; [reflexivity|].
  destruct (Ascii.eqb c ","); simpl; [discriminate|].
  intros F. now rewrite (IH F).
Qed.

Lemma split_comma_app (s rest : string) :
  commaFree s = true ->
  split_comma (s ++ "," ++ rest) = s :: split_comma rest.
Proof.
  induction s as [|c s IH]; simpl; [reflexivity|]. simpl in IH.
  destruct (Ascii.eqb c ","); simpl; [discriminate|].
  intros F. now rewrite (IH F).
Qed.

Lemma split_join (l : list string) :
  l <> [] -> (forall f, In f l -> commaFree f = true) ->
  split_comma (join_comma l) = l.
Proof.
  induction l as [|x l IH]; [congruence|]. intros _ F.
  destruct l as [|y l].
  - simpl. apply split_comma_free. apply F. now left.
  - change (join_comma (x :: y :: l)) with (x ++ "," ++ join_comma (y :: l)).
    rewrite split_comma_app by (apply F; now left).
    rewrite IH; [reflexivity | discriminate |].
    intros f I. apply F. now right.
Qed.

Lemma join_split (s : string) : join_comma (split_comma s) = s.
Proof.
  induction s as [|c s IH]; [reflexivity|]. simpl.
  destruct (Ascii.eqb_spec c ","%char) as [->|N].
  - pose proof (split_comma_nonempty s) as Ne.
    destruct (split_comma s) as [|a l]; [congruence|].
    change (join_comma ("" :: a :: l)) with ("" ++ "," ++ join_comma (a :: l)).
    now rewrite IH.
  - pose proof (split_comma_nonempty s) as Ne.
    destruct (split_comma s) as [|a l]; [congruence|].
    destruct l as [|b l].
    + simpl in *. now rewrite IH.
    + change (join_comma (String c a :: b :: l))
        with (String c (a ++ "," ++ join_comma (b :: l))).
      change (join_comma (a :: b :: l)) with (a ++ "," ++ join_comma (b :: l)) in IH.
      now rewrite IH.
Qed.

(** X15: the filters chosen in the page reach the route as they were
    chosen: joined by the caller and split by the route, a list of
    severities or tags without commas comes back the same, and an
    empty list, which the caller leaves out, comes back empty.  The
    search text and the sort key arrive unchanged, the empty sort key
    standing for [severity].  Splitting any parameter and joining it
    gives the parameter back. *)
Theorem chosen_filters_reach_the_route (page pageSize : Z)
    (sortBy searchQuery : string) (severityFilters complianceFilters : list string) :
  (forall f, In f severityFilters -> commaFree f = true) ->
  (forall f, In f complianceFilters -> commaFree f = true) ->
  let q := fetchParams page pageSize sortBy searchQuery
                       severityFilters complianceFilters in
  filters (q_severityFilters q) = severityFilters
  /\ filters (q_complianceFilters q) = complianceFilters
  /\ or_default (q_search q) "" = searchQuery
  /\ or_default (q_sortBy q) "severity"
     = (if String.eqb sortBy "" then "severity" else sortBy)
  /\ ResultsRoute.page q = page /\ ResultsRoute.pageSize q = pageSize
  /\ forall s, join_comma (split_comma s) = s.
Proof.
  intros Fs Fc q. unfold q, fetchParams, filters.
  cbn [q_severityFilters q_complianceFilters q_search q_sortBy
       ResultsRoute.page ResultsRoute.pageSize or_default].
  split.
  { destruct severityFilters as [|x l]; [reflexivity|].
    cbn [length Nat.ltb Nat.leb]. apply split_join; [discriminate | exact Fs]. }
  split.
  { destruct complianceFilters as [|x l]; [reflexivity|].
    cbn [length Nat.ltb Nat.leb]. apply split_join; [discriminate | exact Fc]. }
  split.
  { destruct (String.eqb_spec searchQuery "") as [->|]; reflexivity. }
  split; [reflexivity|]. split; [reflexivity|]. split; [reflexivity|].
  exact join_split.
Qed.

(** *** Answers *)

Lemma scan_findMany_outcome (id : string) (w w' : World)
    (r : exn + list ScanWithResults) :
  scan_findMany_completed id w = (r, w') ->
  tables w' = tables w /\ clock w' = clock w /\ counter w' = counter w
  /\ match r with
     | inl e => exists rest, scanFaults w = Some e :: rest
     | inr found =>
         (forall e rest, scanFaults w <> Some e :: rest)
         /\ found
            = map (fun s =>
                     mkScan s (filter (fun x => String.eqb (Result.scanId x)
                                                           (Scan.id s))
                                      (results w)))
                  (newest_first
                     (filter (fun s => String.eqb (Scan.projectId s) id
                                       && String.eqb (Scan.status s) "completed")
                             (scans w)))
     end.
Proof.
  unfold scan_findMany_completed, bind, call. simpl.
  destruct (scanFaults w) as [|[e|] rest]; simpl; intros [= <- <-];
    (split; [reflexivity|]); (split; [reflexivity|]); (split; [reflexivity|]);
    eauto; split; (discriminate || reflexivity).
Qed.

(** X16: the listing always answers, with 200 or 500, and writes nothing:
    projects, urls, scans and results are after the request what they
    were before.  It answers 500, with its error message, exactly
    when the read of the scans is rejected; and a project none of
    whose scans is completed gets the empty listing with 0 pages,
    whatever the query. *)
Theorem results_listing_only_reads (toLowerCase : string -> string)
    (localeCompare : string -> string -> Z) (id : string) (q : Query)
    (w : World) :
  exists resp w',
    GET toLowerCase localeCompare id q w = (inr resp, w')
    /\ tables w' = tables w
    /\ (status resp = 200 \/ status resp = 500)
    /\ (status resp = 500 <-> exists e rest, scanFaults w = Some e :: rest)
    /\ (status resp = 500 ->
        body resp = ErrorJson "Failed to get project results")
    /\ (status resp = 200 ->
        (forall s, In s (scans w) -> Scan.projectId s = id ->
                   Scan.status s <> "completed") ->
        body resp
        = ResultsJson (mkBody [] (mkSummary 0 0 0 0 0) 0 (page q) (pageSize q)
                              (Some 0%Z))).
Proof.
  unfold GET, try_catch. unfold bind at 1.
  destruct (scan_findMany_completed id w) as [[e|found] w1] eqn:F;
    apply scan_findMany_outcome in F as (T & _ & _ & K).
  - do 2 eexists. split; [reflexivity|]. simpl. split; [exact T|].
    split; [now right|]. split; [split; [intros _|reflexivity]|].
    { destruct K as (rest & K). eauto. }
    split; [reflexivity | discriminate].
  - destruct K as (Nf & Ef).
    assert (E : (forall s, In s (scans w) -> Scan.projectId s = id ->
                           Scan.status s <> "completed") -> found = []).
    { intros No. rewrite Ef.
      replace (filter _ (scans w)) with (@nil Scan.t); [reflexivity|].
      symmetry. apply filter_none. intros s I.
      destruct (String.eqb_spec (Scan.projectId s) id) as [P|]; [|reflexivity].
      destruct (String.eqb_spec (Scan.status s) "completed") as [C|];
        [|reflexivity].
      now destruct (No s I P). }
    destruct (Nat.eqb (length found) 0) eqn:L; unfold ret;
      do 2 eexists; (split; [reflexivity|]); simpl; (split; [exact T|]);
      (split; [now left|]);
      (split; [split; [discriminate | intros (e & rest & Q); now destruct (Nf e rest)]|]);
      (split; [discriminate|]); intros _ No; [reflexivity|].
    rewrite (E No) in L. discriminate.
Qed.

(** *** The scan a row is listed under *)

Lemma find_some_first {A : Type} (f : A -> bool) (l : list A) (x : A) :
  In x l -> f x = true -> exists y, find f l = Some y.
Proof.
  intros I F. destruct (find f l) eqn:E; [eauto|].
  now rewrite (find_none _ _ E x I) in F.
Qed.

Lemma slice_incl {A : Type} (start stop : Z) (l : list A) (x : A) :
  In x (slice start stop l) -> In x l.
Proof.
  unfold slice. intros I.
  rewrite <- (firstn_skipn (Z.to_nat (relative_index (Z.of_nat (length l)) start)) l).
  apply in_or_app. right.
  match type of I with
  | In x (firstn ?n ?l') => rewrite <- (firstn_skipn n l')
  end.
  apply in_or_app. now left.
Qed.

(** X17: result ids being unique, every row of the answer is listed with
    the scan it belongs to: a completed scan of the project whose id
    is the row's [scanId], with its [createdAt] and the project id. *)
Theorem rows_are_listed_under_their_scan (toLowerCase : string -> string)
    (localeCompare : string -> string -> Z) (id : string) (q : Query)
    (w w' : World) (b : ResultsBody) :
  NoDup (map Result.id (results w)) ->
  GET toLowerCase localeCompare id q w
  = (inr (mkResponse 200 (ResultsJson b)), w') ->
  Forall (fun listed =>
            In (fst listed) (results w)
            /\ exists s, In s (scans w)
                 /\ Scan.id s = Result.scanId (fst listed)
                 /\ Scan.projectId s = id
                 /\ Scan.status s = "completed"
                 /\ snd listed
                    = Some (mkInfo (Scan.id s) (Scan.createdAt s) id))
         (body_results b).
Proof.
  intros N. unfold GET, try_catch. unfold bind at 1.
  destruct (scan_findMany_completed id w) as [[e|found] w1] eqn:F;
    [intros [= ]; discriminate|].
  apply scan_findMany_outcome in F as (_ & _ & _ & _ & Ef).
  destruct (Nat.eqb (length found) 0); unfold ret; intros [= <- _];
    [constructor|].
  unfold answer. cbn [body_results]. apply Forall_forall.
  intros [r info] I. apply in_map_iff in I as (r' & [= <- <-] & I). simpl.
  assert (Ir : In r' (flat_map scan_results found)).
  { apply slice_incl in I.
    apply (Permutation_in _ (sort_perm _ _)) in I.
    apply applyFilters_spec in I as (I & _).
    now apply (deduplicate_spec (flat_map scan_results found)). }
  assert (Rows : forall sw x, In sw found -> In x (scan_results sw) ->
                   In x (results w) /\ Result.scanId x = Scan.id (scan sw)
                   /\ In (scan sw) (scans w)
                   /\ Scan.projectId (scan sw) = id
                   /\ Scan.status (scan sw) = "completed").
  { intros sw x Isw Ix. rewrite Ef in Isw.
    apply in_map_iff in Isw as (s & <- & Is). simpl in *.
    apply filter_In in Ix as (Ix & Ex). apply String.eqb_eq in Ex.
    unfold newest_first in Is. apply (Permutation_in _ (sort_perm _ _)) in Is.
    apply filter_In in Is as (Is & P). apply andb_true_iff in P as (P1 & P2).
    apply String.eqb_eq in P1, P2. auto. }
  apply in_flat_map in Ir as (sw & Isw & Ix).
  destruct (Rows sw r' Isw Ix) as (Iw & _).
  split; [exact Iw|].
  unfold scanInfo.
  destruct (find_some_first
              (fun s => existsb (fun r => String.eqb (Result.id r) (Result.id r'))
                                (scan_results s)) found sw Isw) as (s0 & Fd).
  { apply existsb_exists. exists r'. split; [exact Ix | apply String.eqb_refl]. }
  rewrite Fd. apply find_some in Fd as (I0 & Ex).
  apply existsb_exists in Ex as (x & Ix0 & Ex). apply String.eqb_eq in Ex.
  destruct (Rows s0 x I0 Ix0) as (Iwx & Sx & Is & P & C).
  assert (x = r') by (apply (NoDup_map_eq Result.id (results w)); assumption).
  subst x. exists (scan s0). repeat (split; [assumption || congruence|]).
  now rewrite P.
Qed.

(** *** Deduplication: which row is kept *)

Lemma set_fresh {V : Type} (k : string) (v : V) (m : Map V) :
  get k m = None -> set k v m = (m ++ [(k, v)])%list.
Proof.
  induction m as [|[k0 v0] m IH]; simpl; [reflexivity|].
  destruct (String.eqb k k0); [discriminate|]. intros G. now rewrite IH.
Qed.

Lemma get_app_fresh {V : Type} (k : string) (m m' : Map V) :
  get k m = None -> get k (m ++ m')%list = get k m'.
Proof.
  induction m as [|[k0 v0] m IH]; simpl; [reflexivity|].
  destruct (String.eqb k k0); [discriminate | exact IH].
Qed.

Lemma dedup_distinct (l : list Result.t) (m : Map Result.t) :
  NoDup (map dedupKey l) ->
  (forall x, In x l -> get (dedupKey x) m = None) ->
  fold_left dedupStep l m = (m ++ map (fun r => (dedupKey r, r)) l)%list.
Proof.
  revert m. induction l as [|x l IH]; intros m N F; simpl.
  - now rewrite app_nil_r.
  - inversion N as [|? ? N1 N2]; subst.
    unfold dedupStep at 2. unfold has. rewrite (F x (or_introl eq_refl)). simpl.
    rewrite set_fresh by (apply F; now left).
    rewrite IH; [now rewrite <- app_assoc | assumption |].
    intros y I. rewrite get_app_fresh by (apply F; now right). simpl.
    destruct (String.eqb_spec (dedupKey y) (dedupKey x)) as [E|]; [|reflexivity].
    exfalso. apply N1. rewrite <- E. now apply in_map.
Qed.

Lemma deduplicate_distinct (l : list Result.t) :
  NoDup (map dedupKey l) -> deduplicate l = l.
Proof.
  intros N. unfold deduplicate. rewrite dedup_distinct; [|assumption|reflexivity].
  unfold values. simpl. rewrite map_map. simpl. apply map_id.
Qed.

Lemma dedup_position (l : list Result.t) (k : string) (r : Result.t) :
  get k (fold_left dedupStep l []) = Some r ->
  exists before after,
    l = (before ++ r :: after)%list
    /\ (forall x, In x before -> dedupKey x = k ->
          (Result.createdAt x < Result.createdAt r)%Z)
    /\ (forall x, In x after -> dedupKey x = k ->
          (Result.createdAt x <= Result.createdAt r)%Z).
Proof.
  revert r. induction l as [|x l IH] using rev_ind; intros r; [discriminate|].
  destruct (dedup_invariant l) as (_ & E & C).
  rewrite fold_left_app. simpl.
  set (m := fold_left dedupStep l []) in *.
  assert (Keep : get k m = Some r ->
            (dedupKey x = k -> (Result.createdAt x <= Result.createdAt r)%Z) ->
            exists before after,
              (l ++ [x])%list = (before ++ r :: after)%list
              /\ (forall y, In y before -> dedupKey y = k ->
                    (Result.createdAt y < Result.createdAt r)%Z)
              /\ (forall y, In y after -> dedupKey y = k ->
                    (Result.createdAt y <= Result.createdAt r)%Z)).
  { intros G Le. destruct (IH r G) as (b & a & -> & B & A).
    exists b, (a ++ [x])%list. split; [now rewrite <- app_assoc|].
    split; [exact B|]. intros y I. apply in_app_or in I as [I|[<-|[]]]; auto. }
  assert (Take : k = dedupKey x ->
            (forall kept, get k m = Some kept ->
               (Result.createdAt kept < Result.createdAt x)%Z) ->
            exists before after,
              (l ++ [x])%list = (before ++ x :: after)%list
              /\ (forall y, In y before -> dedupKey y = k ->
                    (Result.createdAt y < Result.createdAt x)%Z)
              /\ (forall y, In y after -> dedupKey y = k ->
                    (Result.createdAt y <= Result.createdAt x)%Z)).
  { intros -> Lt. exists l, []. split; [reflexivity|]. split; [|intros y []].
    intros y I Ey. destruct (C y I) as (kept & G & Le). rewrite Ey in G.
    specialize (Lt kept G). lia. }
  unfold dedupStep, has.
  destruct (get (dedupKey x) m) as [kept|] eqn:G; simpl.
  - destruct (Z.gtb_spec (Result.createdAt x) (Result.createdAt kept)) as [Gt|Le].
    + rewrite get_set. destruct (String.eqb_spec k (dedupKey x)) as [->|Nk].
      * intros [= <-]. apply Take; [reflexivity|].
        intros kept' G'. rewrite G in G'. injection G' as <-. lia.
      * intros Gk. apply Keep; [assumption | congruence].
    + intros Gk. apply Keep; [assumption|]. intros Ek. rewrite <- Ek, G in Gk.
      injection Gk as <-. exact Le.
  - rewrite get_set. destruct (String.eqb_spec k (dedupKey x)) as [->|Nk].
    + intros [= <-]. apply Take; [reflexivity|]. intros kept' G'. congruence.
    + intros Gk. apply Keep; [assumption | congruence].
Qed.

(** X18: of the rows of one key the deduplication keeps the most recent,
    and of several equally recent ones the first in the list: every
    kept row stands in the list, the rows of its key before it are
    strictly older and those after it are not more recent.  No two
    kept rows have the same key; a list without repeated keys is
    kept as it is, so deduplicating twice changes nothing more. *)
Theorem deduplication_keeps_the_first_latest (l : list Result.t) :
  NoDup (map dedupKey (deduplicate l))
  /\ (forall r, In r (deduplicate l) ->
        exists before after,
          l = (before ++ r :: after)%list
          /\ (forall x, In x before -> dedupKey x = dedupKey r ->
                (Result.createdAt x < Result.createdAt r)%Z)
          /\ (forall x, In x after -> dedupKey x = dedupKey r ->
                (Result.createdAt x <= Result.createdAt r)%Z))
  /\ (forall x, In x l -> In (dedupKey x) (map dedupKey (deduplicate l)))
  /\ (NoDup (map dedupKey l) -> deduplicate l = l)
  /\ deduplicate (deduplicate l) = deduplicate l.
Proof.
  destruct (deduplicate_spec l) as (N & Sub & Cov).
  split; [exact N|]. split.
  { intros r I. unfold deduplicate, values in I.
    apply in_map_iff in I as ([k r'] & E & I). simpl in E. subst r'.
    destruct (dedup_invariant l) as (Nk & Ek & _).
    pose proof (in_get _ _ _ Nk I) as G.
    destruct (Ek _ _ G) as (-> & _). now apply dedup_position. }
  split.
  { intros x I. destruct (Cov x I) as (r & Ir & E & _). rewrite <- E.
    now apply in_map. }
  split; [apply deduplicate_distinct | now apply deduplicate_distinct].
Qed.

Import ScansRoute.

(** ** The form that creates a project *)

Import NewProjectForm.

Lemma startsWith_nonempty (s prefix : string) :
  prefix <> "" -> startsWith s prefix = true -> s <> "".
Proof.
  unfold startsWith. intros N P ->. destruct prefix; [congruence | discriminate].
Qed.

Lemma formatted_ok (parses : string -> bool) (rawUrl u : string) :
  In u (formatted parses rawUrl) ->
  (startsWith u "http://" || startsWith u "https://") = true
  /\ parses u = true
  /\ (u = rawUrl \/ u = "https://" ++ rawUrl).
Proof.
  unfold formatted.
  destruct (startsWith rawUrl "http://") eqn:H1;
    [|destruct (startsWith rawUrl "https://") eqn:H2]; cbn [negb andb].
  - destruct (parses rawUrl) eqn:P; [|intros []]. intros [<-|[]].
    rewrite H1. auto.
  - destruct (parses rawUrl) eqn:P; [|intros []]. intros [<-|[]].
    rewrite H2, orb_true_r. auto.
  - destruct (parses ("https://" ++ rawUrl)) eqn:P; [|intros []].
    intros [<-|[]]. split; [|auto].
    apply orb_true_iff. right. unfold startsWith.
    change (String.prefix "https://" ("https://" ++ rawUrl))
      with (String.prefix "" rawUrl). now destruct rawUrl.
Qed.

Lemma slice_firstn {A : Type} (n : nat) (l : list A) :
  slice 0 (Z.of_nat n) l = firstn n l.
Proof.
  change (Z.of_nat n) with (0 + Z.of_nat n)%Z.
  rewrite slice_page by lia. simpl. now rewrite Nat2Z.id.
Qed.

Lemma submitted_first_ten (trim : string -> string) (parses : string -> bool)
    (data : ProjectFormData) :
  submittedUrls trim parses data = firstn 10 (enteredUrls trim parses data).
Proof.
  unfold submittedUrls.
  destruct (Nat.ltb_spec MAX_URLS (length (enteredUrls trim parses data)))
    as [Lt|Ge].
  - apply (slice_firstn 10).
  - symmetry. apply firstn_all2. exact Ge.
Qed.

Lemma submitted_ok (trim : string -> string) (parses : string -> bool)
    (data : ProjectFormData) (u : string) :
  In u (submittedUrls trim parses data) ->
  (startsWith u "http://" || startsWith u "https://") = true
  /\ parses u = true
  /\ exists text line,
       form_urls data = Some text
       /\ In line (split_lines text)
       /\ trim line <> ""
       /\ (u = trim line \/ u = "https://" ++ trim line).
Proof.
  rewrite submitted_first_ten. intros I.
  assert (I' : In u (enteredUrls trim parses data)).
  { rewrite <- (firstn_skipn 10 (enteredUrls trim parses data)).
    apply in_or_app. now left. }
  clear I. unfold enteredUrls in I'.
  destruct (form_urls data) as [text|]; [|destruct I'].
  destruct (String.eqb text ""); [destruct I'|].
  apply in_flat_map in I' as (raw & Ir & Iu).
  apply filter_In in Ir as (Ir & L). apply in_map_iff in Ir as (line & <- & Il).
  destruct (formatted_ok parses _ _ Iu) as (P & V & C).
  split; [exact P|]. split; [exact V|].
  exists text, line. split; [reflexivity|]. split; [exact Il|].
  split; [|exact C]. intros Q. rewrite Q in L. discriminate.
Qed.

(** X19: the form sends at most ten urls: the first ten, in the order
    they were entered, of the lines of the text area that are not
    blank and that the URL parser accepts once they start with a
    protocol.  Each url sent starts with [http://] or [https://],
    parses, and is a trimmed line of the text area, as it is or
    behind [https://]. *)
Theorem form_submits_at_most_ten_urls (trim : string -> string)
    (parses : string -> bool) (data : ProjectFormData) :
  length (submittedUrls trim parses data) <= 10
  /\ submittedUrls trim parses data = firstn 10 (enteredUrls trim parses data)
  /\ Forall (fun u =>
               (startsWith u "http://" || startsWith u "https://") = true
               /\ parses u = true
               /\ exists text line,
                    form_urls data = Some text
                    /\ In line (split_lines text)
                    /\ trim line <> ""
                    /\ (u = trim line \/ u = "https://" ++ trim line))
            (submittedUrls trim parses data).
Proof.
  split; [rewrite submitted_first_ten; apply firstn_le_length|].
  split; [apply submitted_first_ten|].
  apply Forall_forall. intros u I. now apply submitted_ok.
Qed.

(** X20: every url of a submitted form starts a scan of its own: for a
    project id that is not empty, [POST /api/scans] never answers 400
    to a body the form posts; it creates a scan of that url directly
    in progress (it resets none) and leaves one analysis task for it,
    or, the write being rejected, answers 500 and stores nothing. *)
Theorem form_urls_start_new_scans (trim : string -> string)
    (parses : string -> bool) (data : ProjectFormData) (projectId : string)
    (req : ScanRequest) (w : World) :
  projectId <> "" ->
  In req (scanRequests trim parses data (Some projectId)) ->
  exists resp task w',
    ScansRoute.POST req w = (inr (resp, task), w')
    /\ ((status resp = 500 /\ task = None /\ tables w' = tables w)
        \/ (status resp = 200
            /\ exists s t,
                 body resp = ScanJson s /\ task = Some t
                 /\ scans w' = (scans w ++ [s])%list
                 /\ Scan.projectId s = projectId
                 /\ In (Scan.url s) (submittedUrls trim parses data)
                 /\ Scan.status s = "in_progress"
                 /\ task_scanId t = Scan.id s /\ task_url t = Scan.url s
                 /\ task_isRescan t = false
                 /\ task_options t
                    = mkOptions (form_wcagLevel data) (form_section508 data)
                                (form_bestPractices data)
                                (form_experimental data)
                 /\ results w' = results w)).
Proof.
  intros Np I. unfold scanRequests in I. apply in_map_iff in I as (u & <- & Iu).
  destruct (submitted_ok trim parses data u Iu) as (P & _).
  assert (Nu : u <> "").
  { apply orb_true_iff in P as [P|P];
      apply (startsWith_nonempty _ _) in P; auto; discriminate. }
  unfold ScansRoute.POST, try_catch. cbn [req_projectId req_url req_scanId
    req_complianceOptions given text].
  rewrite (proj2 (String.eqb_neq _ _) Np), (proj2 (String.eqb_neq _ _) Nu).
  cbn [negb orb]. unfold bind at 1. unfold bind at 1. unfold new_Date.
  match goal with
  | |- context [scan_create ?d ?v] =>
      destruct (scan_create d v) as [[e|s] w1] eqn:C;
      apply scan_create_outcome in C as (Pj & Ur & Rs & _ & K)
  end.
  - destruct K as (Sc & _). unfold ret. do 3 eexists. split; [reflexivity|].
    left. simpl. split; [reflexivity|]. split; [reflexivity|].
    unfold tables. congruence.
  - destruct K as (Es & Sc & _). unfold ret. do 3 eexists.
    split; [reflexivity|]. right. simpl. split; [reflexivity|].
    exists s. eexists. split; [reflexivity|]. split; [reflexivity|]. simpl.
    subst s. simpl. repeat (split; [assumption || reflexivity|]). exact Rs.
Qed.

(* ================================================================== *)
(** ** The further properties on the sample data *)
(* ================================================================== *)

Import Samples.

(** X1, the diff of the example: the stored ids are unique. *)
Lemma diff_sets_keep_apart_witness :
  NoDup (map Result.id [missingAlt; emptyLink])
  /\ NoDup (toRemove (computeDiff [missingAlt; emptyLink] fresh 100%Z))
  /\ NoDup (map patch_id (toUpdate (computeDiff [missingAlt; emptyLink] fresh 100%Z))).
Proof.
  assert (N : NoDup (map Result.id [missingAlt; emptyLink])).
  { simpl. constructor; [intros [E|[]]; discriminate E|].
    constructor; [intros []|constructor]. }
  split; [exact N|].
  destruct (diff_sets_keep_apart [missingAlt; emptyLink] fresh 100%Z N)
    as (_ & _ & Nr & Np & _).
  split; [exact Nr | exact Np].
Defined.

(** X4, a first scan of [https://a.com] that completes. *)
Lemma fresh_scan_stores_each_finding_witness :
  let w := world scan1 [] [] [] in
  let out := processScan succeeds (playwrightFails "p") (fails "h")
               "s1" "https://a.com" defaultOptions false w in
  out = (inr tt, snd out)
  /\ exists rows,
       results (snd out) = (results w ++ rows)%list
       /\ Forall2 (storedAs "s1") fresh rows.
Proof.
  intros w out.
  assert (H : processScan succeeds (playwrightFails "p") (fails "h")
                "s1" "https://a.com" defaultOptions false w
              = (inr tt, snd out)) by (vm_compute; reflexivity).
  split; [exact H|].
  destruct (fresh_scan_stores_each_finding succeeds (playwrightFails "p")
              (fails "h") "s1" "https://a.com" defaultOptions w (snd out) H)
    as (ar & method & rows & A & R & _ & F).
  injection A as <- _. exists rows. split; [exact R | exact F].
Defined.

(** X5, the task of a rescan, every strategy failing. *)
Lemma task_touches_only_its_scan_witness :
  let w := world scan1 [missingAlt] [] [] in
  let out := background (fails "s") (playwrightFails "p") (fails "h")
               rescanTask w in
  out = (fst out, snd out)
  /\ fst out = inr tt
  /\ map Scan.id (scans (snd out)) = map Scan.id (scans w).
Proof.
  intros w out.
  assert (H : background (fails "s") (playwrightFails "p") (fails "h")
                rescanTask w = (fst out, snd out))
    by apply surjective_pairing.
  split; [exact H|].
  destruct (task_touches_only_its_scan (fails "s") (playwrightFails "p")
              (fails "h") rescanTask w (snd out) (fst out) H)
    as (R & _ & _ & Ids & _).
  split; [exact R | exact Ids].
Defined.

(** X6, a first scan whose completion write is rejected: its rows are
    stored and the task fails. *)
Lemma failed_fresh_scan_stores_none_or_all_witness :
  let w := world scan1 [] [Some dbDown] [] in
  let out := processScan succeeds (playwrightFails "p") (fails "h")
               "s1" "https://a.com" defaultOptions false w in
  out = (inl dbDown, snd out)
  /\ (results (snd out) = results w
      \/ exists rows,
           Forall2 (storedAs "s1") fresh rows
           /\ results (snd out) = (results w ++ rows)%list).
Proof.
  intros w out.
  assert (H : processScan succeeds (playwrightFails "p") (fails "h")
                "s1" "https://a.com" defaultOptions false w
              = (inl dbDown, snd out)) by (vm_compute; reflexivity).
  split; [exact H|].
  destruct (failed_fresh_scan_stores_none_or_all succeeds (playwrightFails "p")
              (fails "h") "s1" "https://a.com" defaultOptions w (snd out)
              dbDown H)
    as [Same|(ar & method & rows & A & F & R)]; [now left | right].
  injection A as <- _. exists rows. split; [exact F | exact R].
Defined.

(** X7, the reconciliation of scan [s1] beside a row of scan [s2]. *)
Lemma rescan_leaves_other_scans_witness :
  let w := world scan1 [missingAlt; elsewhere; emptyLink] [] [] in
  let out := handleRescanDiff "s1" fresh w in
  NoDup (map Result.id (results w))
  /\ out = (fst out, snd out)
  /\ rowsOfOthers "s1" (results (snd out)) = [elsewhere].
Proof.
  intros w out.
  assert (N : NoDup (map Result.id (results w))).
  { simpl. constructor; [intros [E|[E|[]]]; discriminate E|].
    constructor; [intros [E|[]]; discriminate E|].
    constructor; [intros []|constructor]. }
  assert (H : handleRescanDiff "s1" fresh w = (fst out, snd out))
    by apply surjective_pairing.
  split; [exact N|]. split; [exact H|].
  destruct (rescan_leaves_other_scans "s1" fresh w (snd out) (fst out) N H)
    as (R & _).
  exact R.
Defined.

(** X9, a rescan of two urls without scans, the second creation being
    rejected: one analysis is triggered and the answer is 500. *)
Lemma rescan_triggers_what_it_settled_witness :
  let w := worldTwoUrls in
  let p := mkProject project1 [url1; url2] [] in
  project_findUnique "p1" w = (inr (Some p), w)
  /\ project_urls p <> []
  /\ existsb isPending (project_scans p) = false
  /\ exists resp settled w',
       RescanRoute.POST "p1" w = (inr (resp, map snd (fulfilled settled)), w')
       /\ Forall2 (settledFor p w') (project_urls p) settled.
Proof.
  intros w p.
  assert (F : project_findUnique "p1" w = (inr (Some p), w)) by reflexivity.
  assert (U : project_urls p <> []) by discriminate.
  assert (P : existsb isPending (project_scans p) = false) by reflexivity.
  split; [exact F|]. split; [exact U|]. split; [exact P|].
  destruct (rescan_triggers_what_it_settled "p1" w w p F U P)
    as (resp & settled & w' & H & S & _).
  exists resp, settled, w'. split; [exact H | exact S].
Defined.

(** X10, the first rescan of a project whose url was never scanned, the
    scan it triggers, and the second rescan. *)
Lemma unscanned_url_blocks_the_next_rescan_witness :
  let w := worldUnscanned in
  let w1 := snd (RescanRoute.POST "p1" w) in
  let w2 := snd (ScansRoute.POST firstScanRequest w1) in
  let w3 := snd (background succeeds (playwrightFails "p") (fails "h")
                   firstScanTask w2) in
  fst (RescanRoute.POST "p1" w)
  = inr (mkResponse 200
           (Started "Started rescanning 1 URLs"
                    [mkEntry "c0" "https://a.com" "pending"]),
         [firstScanRequest])
  /\ exists resp' w4,
       RescanRoute.POST "p1" w3 = (inr (resp', []), w4)
       /\ status resp' = 409.
Proof.
  intros w w1 w2 w3.
  assert (H : RescanRoute.POST "p1" w
              = (inr (mkResponse 200
                        (Started "Started rescanning 1 URLs"
                                 [mkEntry "c0" "https://a.com" "pending"]),
                      [firstScanRequest]), w1)) by (vm_compute; reflexivity).
  assert (Hp : exists answer,
             ScansRoute.POST firstScanRequest w1
             = (inr (answer, Some firstScanTask), w2))
    by (eexists; vm_compute; reflexivity).
  destruct Hp as (answer & Hp).
  assert (Hb : background succeeds (playwrightFails "p") (fails "h")
                 firstScanTask w2
               = (fst (background succeeds (playwrightFails "p") (fails "h")
                         firstScanTask w2), w3))
    by apply surjective_pairing.
  split; [now rewrite H|].
  destruct (unscanned_url_blocks_the_next_rescan succeeds (playwrightFails "p")
              (fails "h") "p1" w w1 w2 w3 _ _ firstScanRequest answer
              firstScanTask _ H eq_refl (or_introl eq_refl) eq_refl Hp Hb)
    as (_ & resp' & w4 & R & _ & C).
  exists resp', w4. split; [exact R|]. apply C. reflexivity.
Defined.

(** X11, a rescan of a url scanned twice resets the later scan. *)
Lemma rescan_resets_the_newest_scan_witness :
  let w := worldScannedTwice in
  let out := RescanRoute.POST "p1" w in
  let req := ScansRoute.mkRequest (Some "p1") (Some "https://a.com")
               (Some defaultOptions) (Some "s1") in
  (exists resp, out = (inr (resp, [req]), snd out))
  /\ exists s, In s (scans w) /\ Scan.id s = "s1"
               /\ forall other, In other (scans w) ->
                    Scan.projectId other = "p1" ->
                    Scan.url other = Scan.url s ->
                    (Scan.createdAt other <= Scan.createdAt s)%Z.
Proof.
  intros w out req.
  assert (H : exists resp, RescanRoute.POST "p1" w = (inr (resp, [req]), snd out))
    by (eexists; vm_compute; reflexivity).
  split; [exact H|]. destruct H as (resp & H).
  destruct (rescan_resets_the_newest_scan "p1" w (snd out) resp [req] req "s1"
              H (or_introl eq_refl) eq_refl)
    as (s & I & E & _ & _ & _ & _ & Mx).
  exists s. split; [exact I|]. split; [exact E | exact Mx].
Defined.

(** X13, the pages of ten of a project with two findings. *)
Lemma pages_partition_the_listing_witness :
  let scans := [mkScan scanDone [missingAlt; emptyLink]] in
  (0 < pageSize firstPage)%Z
  /\ exists totalPages,
       concat (map (fun k => pageRows asciiLower byteCompare firstPage scans
                               (Z.of_nat k))
                   (seq 1 (Z.to_nat totalPages)))
       = listing asciiLower byteCompare firstPage scans.
Proof.
  intros scans.
  assert (S : (0 < pageSize firstPage)%Z) by (simpl; lia).
  split; [exact S|].
  destruct (pages_partition_the_listing asciiLower byteCompare firstPage scans S)
    as (t & _ & _ & C & _).
  exists t. exact C.
Defined.


(** X15, two severities and one tag chosen in the page. *)
Lemma chosen_filters_reach_the_route_witness :
  let q := fetchParams 1 10 "severity" "" ["critical"; "serious"] ["wcag2aa"] in
  (forall f, In f ["critical"; "serious"] -> commaFree f = true)
  /\ (forall f, In f ["wcag2aa"] -> commaFree f = true)
  /\ filters (q_severityFilters q) = ["critical"; "serious"]
  /\ filters (q_complianceFilters q) = ["wcag2aa"].
Proof.
  intros q.
  assert (Fs : forall f, In f ["critical"; "serious"] -> commaFree f = true)
    by (intros f [<-|[<-|[]]]; reflexivity).
  assert (Fc : forall f, In f ["wcag2aa"] -> commaFree f = true)
    by (intros f [<-|[]]; reflexivity).
  split; [exact Fs|]. split; [exact Fc|].
  destruct (chosen_filters_reach_the_route 1 10 "severity" ""
              ["critical"; "serious"] ["wcag2aa"] Fs Fc) as (S & C & _).
  split; [exact S | exact C].
Defined.

(** X17, the first page of a project with two findings of one scan. *)
Lemma rows_are_listed_under_their_scan_witness :
  let w := world scanDone [missingAlt; emptyLink] [] [] in
  let out := GET asciiLower byteCompare "p1" firstPage w in
  NoDup (map Result.id (results w))
  /\ exists b,
       out = (inr (mkResponse 200 (ResultsJson b)), snd out)
       /\ Forall (fun listed =>
                    snd listed = Some (mkInfo "s1" 50%Z "p1"))
                 (body_results b).
Proof.
  intros w out.
  assert (N : NoDup (map Result.id (results w))).
  { simpl. constructor; [intros [E|[]]; discriminate E|].
    constructor; [intros []|constructor]. }
  assert (H : exists b, GET asciiLower byteCompare "p1" firstPage w
                        = (inr (mkResponse 200 (ResultsJson b)), snd out))
    by (eexists; vm_compute; reflexivity).
  split; [exact N|]. destruct H as (b & H). exists b. split; [exact H|].
  pose proof (rows_are_listed_under_their_scan asciiLower byteCompare "p1"
                firstPage w (snd out) b N H) as F.
  apply Forall_forall. intros listed I. rewrite Forall_forall in F.
  destruct (F listed I) as (_ & s & Is & _ & _ & _ & E).
  destruct Is as [<-|[]]. exact E.
Defined.

(** X20, a form with two lines posts two bodies; the second starts a scan
    of [https://b.com]. *)
Lemma form_urls_start_new_scans_witness :
  let req := ScansRoute.mkRequest (Some "p1") (Some "https://b.com")
               (Some defaultOptions) None in
  "p1" <> ""
  /\ In req (scanRequests asEntered accepts sampleForm (Some "p1"))
  /\ exists resp task w',
       ScansRoute.POST req worldUnscanned = (inr (resp, task), w')
       /\ (status resp = 500 \/ status resp = 200).
Proof.
  intros req.
  assert (Np : "p1" <> "") by discriminate.
  assert (I : In req (scanRequests asEntered accepts sampleForm (Some "p1")))
    by (right; left; reflexivity).
  split; [exact Np|]. split; [exact I|].
  destruct (form_urls_start_new_scans asEntered accepts sampleForm "p1" req
              worldUnscanned Np I)
    as (resp & task & w' & H & [(S & _)|(S & _)]);
    exists resp, task, w'; (split; [exact H|]); [now left | now right].
Defined.
